(** * Variant spelling conversion of [backend/app/corrector.py]

    A shallow embedding of the variant-conversion core of the text
    corrector ([TextCorrector._convert_variant], [TextCorrector._match_case],
    the word tables and the two regular expressions they rely on), and the
    properties of it that the specification states.

    Python strings are sequences of Unicode code points; they are modelled
    as lists of code points.  The ASCII part of Python's character database
    is written out; the rest of it is a parameter ([UnicodeDB]). *)

From Stdlib Require Import String Ascii.
From Stdlib Require Import List NArith Arith Bool Lia Sorted.
Import ListNotations.

(** ** Strings *)

Definition cp := N.
Definition str := list cp.

(** The Python string written by an ASCII literal. *)
Definition py (s : string) : str := map N_of_ascii (list_ascii_of_string s).

Fixpoint str_eqb (a b : str) : bool :=
  match a, b with
  | [], [] => true
  | x :: a', y :: b' => N.eqb x y && str_eqb a' b'
  | _, _ => false
  end.

Definition between (lo hi c : cp) : bool := N.leb lo c && N.leb c hi.

Definition is_ascii (c : cp) : bool := N.ltb c 128%N.
Definition az_upper (c : cp) : bool := between 65%N 90%N c.    (* A-Z *)
Definition az_lower (c : cp) : bool := between 97%N 122%N c.   (* a-z *)
Definition az_letter (c : cp) : bool := az_upper c || az_lower c.
Definition is_digit (c : cp) : bool := between 48%N 57%N c.    (* 0-9 *)

Definition ascii_lower (c : cp) : cp := if az_upper c then (c + 32)%N else c.
Definition ascii_upper (c : cp) : cp := if az_lower c then (c - 32)%N else c.

(** What Python's character database says outside ASCII: the character
    predicates behind [str.isalpha] and [str.isupper], the full upper-case
    mapping of a code point, and [str.lower] on a string that has a
    non-ASCII code point (lower-casing looks at the context of a capital
    sigma, so it is given on strings). *)
Class UnicodeDB := {
  u_isalpha : cp -> bool;
  u_isupper : cp -> bool;
  u_islower : cp -> bool;
  u_istitle : cp -> bool;
  u_upper : cp -> str;
  u_lower : str -> str
}.

(** The database cut down to ASCII: no letter and no case outside it.  It
    serves to evaluate the functions on ASCII text. *)
Definition ascii_db : UnicodeDB := {|
  u_isalpha := fun _ => false;
  u_isupper := fun _ => false;
  u_islower := fun _ => false;
  u_istitle := fun _ => false;
  u_upper := fun c => [c];
  u_lower := fun s => s
|}.

(** A fragment of the real database, with three of its letters: the
    capital and the small e with acute accent (U+00C9, U+00E9) and the
    Kelvin sign (U+212A), whose lower case is the ASCII letter k. *)
Definition small_lower (c : cp) : cp :=
  if N.eqb c 201%N then 233%N
  else if N.eqb c 8490%N then 107%N
  else ascii_lower c.

Definition small_db : UnicodeDB := {|
  u_isalpha := fun c => N.eqb c 201%N || N.eqb c 233%N || N.eqb c 8490%N;
  u_isupper := fun c => N.eqb c 201%N || N.eqb c 8490%N;
  u_islower := fun c => N.eqb c 233%N;
  u_istitle := fun _ => false;
  u_upper := fun c => if N.eqb c 233%N then [201%N] else [c];
  u_lower := map small_lower
|}.

Section Str.
Context {U : UnicodeDB}.

Definition cp_isalpha (c : cp) : bool := if is_ascii c then az_letter c else u_isalpha c.
Definition cp_isupper (c : cp) : bool := if is_ascii c then az_upper c else u_isupper c.
Definition cp_islower (c : cp) : bool := if is_ascii c then az_lower c else u_islower c.
Definition cp_istitle (c : cp) : bool := if is_ascii c then false else u_istitle c.
Definition cp_upper (c : cp) : str := if is_ascii c then [ascii_upper c] else u_upper c.

(** [s.isalpha()]: at least one character, and all of them letters. *)
Definition isalpha (s : str) : bool :=
  match s with
  | [] => false
  | _ => forallb cp_isalpha s
  end.

(** The loop of [s.isupper()]: no lower-case or title-case character,
    and [cased] records that an upper-case one was seen. *)
Fixpoint isupper_loop (cased : bool) (s : str) : bool :=
  match s with
  | [] => cased
  | c :: s' =>
      if cp_islower c || cp_istitle c then false
      else isupper_loop (cased || cp_isupper c) s'
  end.

Definition isupper (s : str) : bool :=
  match s with
  | [c] => cp_isupper c
  | _ => isupper_loop false s
  end.

(** [s.lower()] and [s.upper()]. *)
Definition lower (s : str) : str :=
  if forallb is_ascii s then map ascii_lower s else u_lower s.

Definition upper (s : str) : str := flat_map cp_upper s.
End Str.

(** ** Dictionaries

    A Python [dict] keeps its keys in insertion order and a later
    assignment to a key overwrites the earlier value in place; the
    comprehension that builds the reverse table depends on both, so a
    dictionary is an association list with unique keys. *)

Definition dict := list (str * str).

Fixpoint dict_get (d : dict) (k : str) : option str :=
  match d with
  | [] => None
  | (k', v) :: d' => if str_eqb k k' then Some v else dict_get d' k
  end.

(** [d[k] = v] *)
Fixpoint dict_set (d : dict) (k v : str) : dict :=
  match d with
  | [] => [(k, v)]
  | (k', v') :: d' => if str_eqb k k' then (k', v) :: d' else (k', v') :: dict_set d' k v
  end.

(** A dictionary display [{k1: v1, k2: v2, ...}]. *)
Definition dict_display (l : list (string * string)) : dict :=
  fold_left (fun d kv => dict_set d (py (fst kv)) (py (snd kv))) l [].

Definition items (d : dict) : list (str * str) := d.
Definition keys (d : dict) : list str := map fst d.
Definition values (d : dict) : list str := map snd d.

(** [{v: k for k, v in d.items()}] *)
Definition dict_invert (d : dict) : dict :=
  fold_left (fun r kv => dict_set r (snd kv) (fst kv)) (items d) [].

(** [set(l)], kept in first-occurrence order, and [x in s]. *)
Definition mem (x : str) (s : list str) : bool := existsb (str_eqb x) s.

Definition set_of (l : list str) : list str :=
  fold_left (fun s x => if mem x s then s else s ++ [x]) l [].

(** ** The word tables *)

Definition _US_TO_UK : dict := dict_display [
    ("color", "colour");
    ("colors", "colours");
    ("colored", "coloured");
    ("coloring", "colouring");
    ("colorful", "colourful");
    ("favor", "favour");
    ("favors", "favours");
    ("favorite", "favourite");
    ("favorites", "favourites");
    ("flavor", "flavour");
    ("flavors", "flavours");
    ("honor", "honour");
    ("honors", "honours");
    ("honored", "honoured");
    ("humor", "humour");
    ("humors", "humours");
    ("labor", "labour");
    ("labors", "labours");
    ("neighbor", "neighbour");
    ("neighbors", "neighbours");
    ("neighborhood", "neighbourhood");
    ("rumor", "rumour");
    ("rumors", "rumours");
    ("savior", "saviour");
    ("valor", "valour");
    ("vigor", "vigour");
    ("behavior", "behaviour");
    ("behaviors", "behaviours");
    ("endeavor", "endeavour");
    ("endeavors", "endeavours");
    ("organize", "organise");
    ("organizes", "organises");
    ("organized", "organised");
    ("organizing", "organising");
    ("organization", "organisation");
    ("organizations", "organisations");
    ("recognize", "recognise");
    ("recognizes", "recognises");
    ("recognized", "recognised");
    ("recognizing", "recognising");
    ("realize", "realise");
    ("realizes", "realises");
    ("realized", "realised");
    ("realizing", "realising");
    ("apologize", "apologise");
    ("apologizes", "apologises");
    ("apologized", "apologised");
    ("apologizing", "apologising");
    ("authorize", "authorise");
    ("authorized", "authorised");
    ("capitalize", "capitalise");
    ("capitalized", "capitalised");
    ("categorize", "categorise");
    ("categorized", "categorised");
    ("centralize", "centralise");
    ("centralized", "centralised");
    ("characterize", "characterise");
    ("characterized", "characterised");
    ("customize", "customise");
    ("customized", "customised");
    ("emphasize", "emphasise");
    ("emphasized", "emphasised");
    ("finalize", "finalise");
    ("finalized", "finalised");
    ("generalize", "generalise");
    ("generalized", "generalised");
    ("initialize", "initialise");
    ("initialized", "initialised");
    ("maximize", "maximise");
    ("minimized", "minimised");
    ("minimize", "minimise");
    ("modernize", "modernise");
    ("normalize", "normalise");
    ("normalized", "normalised");
    ("optimize", "optimise");
    ("optimized", "optimised");
    ("prioritize", "prioritise");
    ("prioritized", "prioritised");
    ("specialize", "specialise");
    ("specialized", "specialised");
    ("standardize", "standardise");
    ("standardized", "standardised");
    ("summarize", "summarise");
    ("summarized", "summarised");
    ("symbolize", "symbolise");
    ("symbolized", "symbolised");
    ("utilize", "utilise");
    ("utilized", "utilised");
    ("visualize", "visualise");
    ("visualized", "visualised");
    ("center", "centre");
    ("centers", "centres");
    ("centered", "centred");
    ("fiber", "fibre");
    ("fibers", "fibres");
    ("liter", "litre");
    ("liters", "litres");
    ("meter", "metre");
    ("meters", "metres");
    ("theater", "theatre");
    ("theaters", "theatres");
    ("analog", "analogue");
    ("catalog", "catalogue");
    ("dialog", "dialogue");
    ("monolog", "monologue");
    ("defense", "defence");
    ("offense", "offence");
    ("license", "licence");
    ("pretense", "pretence");
    ("traveling", "travelling");
    ("traveled", "travelled");
    ("traveler", "traveller");
    ("travelers", "travellers");
    ("canceled", "cancelled");
    ("canceling", "cancelling");
    ("counselor", "counsellor");
    ("counselors", "counsellors");
    ("enrollment", "enrolment");
    ("fulfillment", "fulfilment");
    ("modeling", "modelling");
    ("modeled", "modelled");
    ("signaling", "signalling");
    ("signaled", "signalled");
    ("program", "programme");
    ("programs", "programmes");
    ("programmed", "programmed");
    ("gray", "grey");
    ("grays", "greys");
    ("tire", "tyre");
    ("tires", "tyres");
    ("airplane", "aeroplane");
    ("airplanes", "aeroplanes");
    ("artifact", "artefact");
    ("artifacts", "artefacts");
    ("check", "cheque");
    ("checks", "cheques");
    ("curb", "kerb");
    ("curbs", "kerbs");
    ("draft", "draught");
    ("drafts", "draughts");
    ("jewelry", "jewellery");
    ("pajamas", "pyjamas");
    ("plow", "plough");
    ("plows", "ploughs");
    ("skeptic", "sceptic");
    ("skeptical", "sceptical");
    ("skepticism", "scepticism")
  ]%string.

Definition _UK_TO_US : dict := dict_invert _US_TO_UK.

Definition _US_WORDS : list str := set_of (keys _US_TO_UK).
Definition _UK_WORDS : list str := set_of (keys _UK_TO_US).

(** ** Regular expressions

    The patterns of the program use character classes, literals,
    sequencing, ordered alternation, a greedy [?] and greedy repetition of
    a character class.  [rmatch] is the backtracking search of Python's
    [re]: it returns the number of characters consumed by the first way of
    matching found, the continuation [k] standing for what must match
    after the expression. *)

Inductive regex :=
| Eps
| Chr (p : cp -> bool)
| Seq (r1 r2 : regex)
| Alt (r1 r2 : regex)
| Opt (r : regex)
| Rep (p : cp -> bool) (min : nat).

(** [[p]{min,}]: take a character of the class and go on, and only when
    that fails (and [min] characters were taken) stop here. *)
Fixpoint rep (p : cp -> bool) (min : nat) (s : str) (k : str -> option nat)
  : option nat :=
  let stop := match min with 0 => k s | S _ => None end in
  match s with
  | c :: s' =>
      if p c then
        match rep p (pred min) s' k with
        | Some n => Some (S n)
        | None => stop
        end
      else stop
  | [] => stop
  end.

Fixpoint rmatch (r : regex) (s : str) (k : str -> option nat) : option nat :=
  match r with
  | Eps => k s
  | Chr p =>
      match s with
      | c :: s' => if p c then option_map S (k s') else None
      | [] => None
      end
  | Seq r1 r2 => rmatch r1 s (fun s1 => rmatch r2 s1 k)
  | Alt r1 r2 =>
      match rmatch r1 s k with
      | Some n => Some n
      | None => rmatch r2 s k
      end
  | Opt r1 =>
      match rmatch r1 s k with
      | Some n => Some n
      | None => k s
      end
  | Rep p min => rep p min s k
  end.

(** The length of the match of [r] at the start of [s], if there is one. *)
Definition match_at (r : regex) (s : str) : option nat :=
  rmatch r s (fun _ => Some 0).

Definition chr (a : ascii) (c : cp) : bool := N.eqb c (N_of_ascii a).

Fixpoint lit_of (l : list ascii) : regex :=
  match l with
  | [] => Eps
  | [a] => Chr (chr a)
  | a :: l' => Seq (Chr (chr a)) (lit_of l')
  end.

Definition lit (w : string) : regex := lit_of (list_ascii_of_string w).

(** A match object: [start()], [end()] and [group()]. *)
Record Match := { m_start : nat; m_end : nat; group : str }.

(** [r.finditer(text)]: the matches from left to right, each search
    starting where the previous match ended.  [skip] counts the characters
    of [s] that the previous match still covers and [pos] is the offset of
    [s] in the text.  Both patterns of the program match at least one
    character ([TOKEN_RE_nonempty], [URL_RE_nonempty]), so the rule of [re]
    for what follows an empty match is not needed: past one, the scan
    just moves on by a character. *)
Fixpoint scan (r : regex) (skip pos : nat) (s : str) : list Match :=
  match s with
  | [] => []
  | _ :: s' =>
      match skip with
      | S j => scan r j (S pos) s'
      | 0 =>
          match match_at r s with
          | Some n =>
              {| m_start := pos; m_end := pos + n; group := firstn n s |}
                :: scan r (pred n) (S pos) s'
          | None => scan r 0 (S pos) s'
          end
      end
  end.

Definition finditer (r : regex) (text : str) : list Match := scan r 0 0 text.

(** [\s] on a [str] pattern: the white space of Unicode. *)
Definition is_space (c : cp) : bool :=
  between 9%N 13%N c || between 28%N 31%N c || N.eqb c 32%N
  || N.eqb c 133%N || N.eqb c 160%N || N.eqb c 5760%N
  || between 8192%N 8202%N c || N.eqb c 8232%N || N.eqb c 8233%N
  || N.eqb c 8239%N || N.eqb c 8287%N || N.eqb c 12288%N.

Definition not_space (c : cp) : bool := negb (is_space c).
Definition not_letter (c : cp) : bool := negb (az_letter c).

(** [[a-zA-Z0-9._%+-]] and [[a-zA-Z0-9.-]] *)
Definition local_part (c : cp) : bool :=
  az_letter c || is_digit c || chr "." c || chr "_" c || chr "%" c
  || chr "+" c || chr "-" c.

Definition domain_part (c : cp) : bool :=
  az_letter c || is_digit c || chr "." c || chr "-" c.

(** [([A-Za-z]+|[^A-Za-z]+)] *)
Definition _TOKEN_RE : regex := Alt (Rep az_letter 1) (Rep not_letter 1).

(** [https?://[^\s]+|www\.[^\s]+|[a-zA-Z0-9._%+-]+@[a-zA-Z0-9.-]+\.[a-zA-Z]{2,}],
    alternative by alternative. *)
Definition http_url : regex :=
  Seq (lit "http") (Seq (Opt (Chr (chr "s")))
    (Seq (lit "://") (Rep not_space 1))).

Definition www_host : regex := Seq (lit "www.") (Rep not_space 1).

Definition email : regex :=
  Seq (Rep local_part 1) (Seq (Chr (chr "@"))
    (Seq (Rep domain_part 1) (Seq (Chr (chr ".")) (Rep az_letter 2)))).

Definition _URL_RE : regex := Alt http_url (Alt www_host email).

(** ** The converter *)

Record Change := { type : str; original : str; replacement : str }.

Section Converter.
Context {U : UnicodeDB}.

(** [_match_case]; [None] is the [IndexError] of [original[0]] or
    [replacement[0]] on an empty string. *)
Definition _match_case (original replacement : str) : option str :=
  if isupper original then Some (upper replacement)
  else
    match original with
    | [] => None
    | o :: _ =>
        if isupper [o] then
          match replacement with
          | [] => None
          | r :: rest => Some (upper [r] ++ rest)
          end
        else Some replacement
    end.

(** [any(s <= start < e for s, e in url_spans)] *)
Definition in_url (url_spans : list (nat * nat)) (start : nat) : bool :=
  existsb (fun se => (fst se <=? start) && (start <? snd se)) url_spans.

Definition select (variant : str) : dict * list str :=
  if str_eqb variant (py "uk") then (_US_TO_UK, _US_WORDS)
  else (_UK_TO_US, _UK_WORDS).

(** One turn of the loop over the tokens, on the pair of [changes] and
    [result_parts]; [None] is an exception ([KeyError] of
    [mapping[lower]], or the one of [_match_case]). *)
Definition convert_token (mapping : dict) (source_words : list str)
    (url_spans : list (nat * nat)) (st : list Change * list str)
    (token_match : Match) : option (list Change * list str) :=
  let (changes, result_parts) := st in
  let token := group token_match in
  let start := m_start token_match in
  if in_url url_spans start || negb (isalpha token) then
    Some (changes, result_parts ++ [token])
  else
    let lower := lower token in
    if mem lower source_words then
      match dict_get mapping lower with
      | None => None
      | Some replacement =>
          match _match_case token replacement with
          | None => None
          | Some replacement =>
              if negb (str_eqb replacement token) then
                Some (changes ++ [{| type := py "spelling";
                                     original := token;
                                     replacement := replacement |}],
                      result_parts ++ [replacement])
              else Some (changes, result_parts ++ [token])
          end
      end
    else Some (changes, result_parts ++ [token]).

Fixpoint convert_loop (mapping : dict) (source_words : list str)
    (url_spans : list (nat * nat)) (st : list Change * list str)
    (tokens : list Match) : option (list Change * list str) :=
  match tokens with
  | [] => Some st
  | token_match :: rest =>
      match convert_token mapping source_words url_spans st token_match with
      | None => None
      | Some st' => convert_loop mapping source_words url_spans st' rest
      end
  end.

Definition url_spans_of (text : str) : list (nat * nat) :=
  map (fun m => (m_start m, m_end m)) (finditer _URL_RE text).

(** Runs the loop and gives back [changes] and [result_parts]. *)
Definition convert_parts (text variant : str) : option (list Change * list str) :=
  let (mapping, source_words) := select variant in
  convert_loop mapping source_words (url_spans_of text) ([], [])
    (finditer _TOKEN_RE text).

Definition _convert_variant (text variant : str) : option (str * list Change) :=
  match convert_parts text variant with
  | None => None
  | Some (changes, result_parts) => Some (concat result_parts, changes)
  end.
End Converter.

(** ** Notions used to state and prove the properties *)

(** The module-level assignment [_UK_TO_US = {v: k for ...}] as a function
    of the forward table: [None] would be an exception raised while the
    module is loaded, and the comprehension raises none. *)
Definition build_reverse (forward : dict) : option dict :=
  Some (dict_invert forward).

(** The last pair of [d] whose value is [v]. *)
Definition last_with_value (d : dict) (v : str) : option (str * str) :=
  find (fun kv => str_eqb v (snd kv)) (rev d).

Fixpoint nodupb (l : list str) : bool :=
  match l with
  | [] => true
  | x :: l' => negb (mem x l') && nodupb l'
  end.

Definition opt_eqb (a b : option str) : bool :=
  match a, b with
  | Some x, Some y => str_eqb x y
  | None, None => true
  | _, _ => false
  end.

(** The number of leading characters of [s] in the class [p]. *)
Fixpoint run (p : cp -> bool) (s : str) : nat :=
  match s with
  | c :: s' => if p c then S (run p s') else 0
  | [] => 0
  end.

(** The continuation at the end of a pattern. *)
Definition k0 : str -> option nat := fun _ => Some 0.

(** The tokens of a text are its maximal runs of letters and of other
    characters: [chunked] describes such a division, and [matches_of] the
    match objects of its pieces. *)
Definition kind (t : str) : bool :=
  match t with
  | c :: _ => az_letter c
  | [] => false
  end.

Definition uniform (t : str) : bool :=
  forallb (fun c => Bool.eqb (az_letter c) (kind t)) t.

Inductive chunked : list str -> Prop :=
| chunked_nil : chunked []
| chunked_cons (t : str) (l : list str) :
    t <> [] -> uniform t = true ->
    (forall t2, hd_error l = Some t2 -> kind t2 = negb (kind t)) ->
    chunked l -> chunked (t :: l).

Fixpoint matches_of (pos : nat) (l : list str) : list Match :=
  match l with
  | [] => []
  | t :: l' =>
      {| m_start := pos; m_end := pos + length t; group := t |}
        :: matches_of (pos + length t) l'
  end.

(** Every word of the source set has a non-empty entry in the mapping. *)
Definition table_ok (mapping : dict) (source_words : list str) : bool :=
  forallb (fun k => match dict_get mapping k with
                    | Some (_ :: _) => true
                    | _ => false
                    end) source_words.

Definition spelling (original replacement : str) : Change :=
  {| type := py "spelling"; original := original; replacement := replacement |}.

(** What the turn of the loop for the token [m] appends to [changes] and
    to [result_parts]. *)
Definition changes_of {U : UnicodeDB} (mapping : dict) (source_words : list str)
    (url_spans : list (nat * nat)) (m : Match) : list Change :=
  match convert_token mapping source_words url_spans ([], []) m with
  | Some (c, _) => c
  | None => []
  end.

Definition part_of {U : UnicodeDB} (mapping : dict) (source_words : list str)
    (url_spans : list (nat * nat)) (m : Match) : str :=
  match convert_token mapping source_words url_spans ([], []) m with
  | Some (_, p) => concat p
  | None => []
  end.

(** ** Notions for running the converter on its own output *)

(** What remains of [s] after its prefix [pre]. *)
Fixpoint strip (pre s : str) : option str :=
  match pre, s with
  | [], _ => Some s
  | a :: pre', c :: s' => if N.eqb c a then strip pre' s' else None
  | _ :: _, [] => None
  end.

(** The match of [[^\s]+] at the end of a pattern, after [n] characters. *)
Definition rest_of_url (n : nat) (r : str) : option nat :=
  option_map (Nat.add n) (rep not_space 1 r k0).

(** What must follow the local part of an address, and what must follow
    its domain. *)
Definition after_domain (y : str) : option nat :=
  match y with
  | c :: y' => if chr "." c then option_map S (rep az_letter 2 y' k0) else None
  | [] => None
  end.

Definition after_local (x : str) : option nat :=
  match x with
  | c :: x' =>
      if chr "@" c then option_map S (rep domain_part 1 x' after_domain)
      else None
  | [] => None
  end.

(** [y.endswith(suf)] *)
Fixpoint ends_with (y suf : str) : bool :=
  str_eqb y suf ||
  match y with
  | [] => false
  | _ :: y' => ends_with y' suf
  end.

(** Words after which a URL could start in the middle of a token. *)
Definition unsafe_tail (y : str) : bool :=
  ends_with y (py "http") || ends_with y (py "https") || ends_with y (py "www").

Definition tail_safe (x : str) : Prop :=
  unsafe_tail (map ascii_lower x) = false.

Definition letters (w : str) : Prop := forallb az_letter w = true.

(** A text and the text that the converter makes of it, cut into pieces
    that correspond: a character that is no letter stays, and a whole word
    stays or becomes another word.  [word_pair] relates a word and what
    stands for it, [hrel] the ends of such words. *)
Definition word_pair (w w' : str) : Prop :=
  w <> [] /\ w' <> [] /\ letters w /\ letters w' /\
  (w = w' \/
   (tail_safe w /\ tail_safe w' /\ 2 <= length w /\ 2 <= length w')).

Definition hrel (a a' : str) : Prop :=
  letters a /\ letters a' /\
  (a = a' \/ (a <> [] /\ a' <> [] /\ tail_safe a /\ tail_safe a')).

Definition lhs (L : list (str * str)) : str := concat (map fst L).
Definition rhs (L : list (str * str)) : str := concat (map snd L).

Definition starts_other (L : list (str * str)) : Prop :=
  match L with
  | [] => True
  | (t, _) :: _ => kind t = false
  end.

(** The text after a word starts with a character that is no letter. *)
Definition other_first (x : str) : Prop :=
  match x with
  | [] => True
  | c :: _ => az_letter c = false
  end.

Inductive pieces : list (str * str) -> Prop :=
| pieces_nil : pieces []
| pieces_other (c : cp) (L : list (str * str)) :
    az_letter c = false -> pieces L -> pieces (([c], [c]) :: L)
| pieces_word (w w' : str) (L : list (str * str)) :
    word_pair w w' -> starts_other L -> pieces L -> pieces ((w, w') :: L).

(** Two searches with corresponding outcomes: both fail, or both succeed
    and consume the same pieces [La] of [L]. *)
Definition corr (L : list (str * str)) (x y : option nat) : Prop :=
  (x = None /\ y = None) \/
  exists La Lb, L = La ++ Lb
    /\ x = Some (length (lhs La)) /\ y = Some (length (rhs La)).

Definition mcorr (a a' : str) (L : list (str * str)) (x y : option nat) : Prop :=
  (x = None /\ y = None) \/
  exists La Lb, L = La ++ Lb /\ La <> []
    /\ x = Some (length a + length (lhs La))
    /\ y = Some (length a' + length (rhs La)).

(** The scan, offset by offset: whether the first character of [s] is
    inside a match, the number of characters covered after it, and the
    same [k] characters further or at the offset [p] of [s]. *)
Definition hit (r : regex) (skip : nat) (s : str) : bool :=
  match skip with
  | S _ => true
  | 0 => match match_at r s with Some (S _) => true | _ => false end
  end.

Definition next (r : regex) (skip : nat) (s : str) : nat :=
  match skip with
  | S j => j
  | 0 => match match_at r s with Some n => pred n | None => 0 end
  end.

Fixpoint advance (r : regex) (skip : nat) (s : str) (k : nat) : nat :=
  match k, s with
  | S k', _ :: s' => advance r (next r skip s) s' k'
  | _, _ => skip
  end.

Fixpoint covered (r : regex) (skip : nat) (s : str) (p : nat) : bool :=
  match s with
  | [] => false
  | _ :: s' =>
      match p with
      | 0 => hit r skip s
      | S p' => covered r (next r skip s) s' p'
      end
  end.

Definition spans_of (ms : list Match) : list (nat * nat) :=
  map (fun m => (m_start m, m_end m)) ms.

(** The pieces of a list of pairs of tokens: a word is one piece and a
    token of other characters gives a piece for each character. *)
Definition piece_of (tq : str * str) : list (str * str) :=
  if kind (fst tq) then [tq] else map (fun c => ([c], [c])) (fst tq).

(** A token and the part emitted for it. *)
Definition crel (tq : str * str) : Prop :=
  if kind (fst tq) then word_pair (fst tq) (snd tq) else snd tq = fst tq.

(** What the tables are checked for, entry by entry: the value is a word
    of at least two lower-case letters, no URL can start at the end of
    the key or of the value, and a value that is a key again is stored
    for itself. *)
Definition table_good (mapping : dict) (source_words : list str) : bool :=
  forallb (fun k =>
    match dict_get mapping k with
    | Some r =>
        forallb az_lower r && (2 <=? length r) && negb (unsafe_tail r)
        && negb (unsafe_tail k) && (2 <=? length k)
        && (negb (mem r source_words) || opt_eqb (dict_get mapping r) (Some r))
    | None => false
    end) source_words.

(** The one fact about lower-casing outside ASCII that the second run
    depends on: a token without ASCII letters that [isalpha] accepts is
    not lower-cased to a word of the tables.  (In Unicode only U+212A,
    the Kelvin sign, has an ASCII letter as its lower case, and no word
    of the tables is written with k alone.) *)
Definition lower_off_tables {U : UnicodeDB} : Prop :=
  forall t : str,
    forallb not_letter t = true -> isalpha t = true ->
    mem (lower t) _US_WORDS = false /\ mem (lower t) _UK_WORDS = false.

Definition pair_of {U : UnicodeDB} (mapping : dict) (source_words : list str)
    (url_spans : list (nat * nat)) (m : Match) : str * str :=
  (group m, part_of mapping source_words url_spans m).

(** A result that is one spelling change. *)
Definition one_change (res : option (str * list Change)) (out o r : str) : bool :=
  match res with
  | Some (text, [c]) =>
      str_eqb text out && str_eqb (type c) (py "spelling")
      && str_eqb (original c) o && str_eqb (replacement c) r
  | _ => false
  end.

(** ** The grammar stage

    [TextCorrector._fix_grammar] applies the matches that the grammar tool
    reports for the text.  The tool is outside the program: its [check] is
    a parameter, and a match is the record of the fields that the
    corrector reads.  Offsets and lengths are counts of characters. *)

Record GMatch := {
  offset : nat;
  errorLength : nat;
  replacements : list str;
  ruleId : option str;
  category : option str
}.

(** [x or ""] for [x] a string or [None]. *)
Definition or_empty (x : option str) : str :=
  match x with
  | Some s => s
  | None => []
  end.

(** [sub in s] *)
Fixpoint contains (sub s : str) : bool :=
  match strip sub s with
  | Some _ => true
  | None =>
      match s with
      | [] => false
      | _ :: s' => contains sub s'
      end
  end.

(** [s[a:b]] for offsets that are not negative. *)
Definition slice (s : str) (a b : nat) : str := firstn (b - a) (skipn a s).

Section Grammar.
Context {U : UnicodeDB}.

Definition _classify_match (m : GMatch) : str :=
  let rule_id := upper (or_empty (ruleId m)) in
  let cat := upper (or_empty (category m)) in
  if contains (py "PUNCT") rule_id || contains (py "COMMA") rule_id
     || contains (py "PUNCT") cat
  then py "punctuation"
  else if contains (py "SPELL") rule_id || contains (py "TYPO") rule_id
          || contains (py "SPELL") cat
  then py "spelling"
  else py "grammar".

(** One turn of the loop over [reversed(matches)], on the pair of
    [corrected] and [changes]. *)
Definition fix_step (st : str * list Change) (m : GMatch) : str * list Change :=
  let (corrected, changes) := st in
  match replacements m with
  | [] => st
  | replacement :: _ =>
      let original := slice corrected (offset m) (offset m + errorLength m) in
      if str_eqb original replacement then st
      else
        (firstn (offset m) corrected ++ replacement
           ++ skipn (offset m + errorLength m) corrected,
         changes ++ [{| type := _classify_match m; original := original;
                        replacement := replacement |}])
  end.

Definition _fix_grammar (check : str -> list GMatch) (text : str)
  : str * list Change :=
  let matches := check text in
  let (corrected, changes) := fold_left fix_step (rev matches) (text, []) in
  (corrected, rev changes).

(** [TextCorrector.correct]: the grammar stage, then the conversion of
    what it returns; [None] is an exception of the conversion. *)
Definition correct (check : str -> list GMatch) (text variant : str)
  : option (str * list Change) :=
  let (grammar_fixed, grammar_changes) := _fix_grammar check text in
  match _convert_variant grammar_fixed variant with
  | None => None
  | Some (variant_fixed, spelling_changes) =>
      Some (variant_fixed, grammar_changes ++ spelling_changes)
  end.
End Grammar.

(** ** The request and the response ([schemas.py], [main.py]) *)

(** [s.strip()]: without the white space at both ends. *)
Definition lstrip (s : str) : str := skipn (run is_space s) s.
Definition rstrip (s : str) : str := rev (lstrip (rev s)).
Definition str_strip (s : str) : str := rstrip (lstrip s).

Module schemas.



(** The validator of [text]; [None] is its [ValueError]. *)
Definition text_must_not_be_empty (v : str) : option str :=
  match str_strip v with
  | [] => None
  | _ :: _ => Some v
  end.



End schemas.

Module main.



End main.

(** ** Notions for the grammar stage *)

(** The matches lie in the text, in order and without overlap, from the
    offset [pos] on; [n] is the length of the text. *)
Fixpoint in_order (pos : nat) (ms : list GMatch) (n : nat) : Prop :=
  match ms with
  | [] => True
  | m :: ms' =>
      pos <= offset m /\ offset m + errorLength m <= n
      /\ in_order (offset m + errorLength m) ms' n
  end.

(** What stands for the match [m] of [text]: its first replacement, or
    the matched text when it has none. *)
Definition suggestion (text : str) (m : GMatch) : str :=
  match replacements m with
  | r :: _ => r
  | [] => slice text (offset m) (offset m + errorLength m)
  end.

(** The text from [pos] on with every match replaced by its suggestion. *)
Fixpoint splice (text : str) (pos : nat) (ms : list GMatch) : str :=
  match ms with
  | [] => skipn pos text
  | m :: ms' =>
      slice text pos (offset m) ++ suggestion text m
        ++ splice text (offset m + errorLength m) ms'
  end.

(** The change that the match [m] of [text] stands for, if any. *)
Definition edit_of {U : UnicodeDB} (text : str) (m : GMatch) : list Change :=
  match replacements m with
  | [] => []
  | r :: _ =>
      let o := slice text (offset m) (offset m + errorLength m) in
      if str_eqb o r then []
      else [{| type := _classify_match m; original := o; replacement := r |}]
  end.

Definition change_types : list str :=
  [py "spelling"; py "grammar"; py "punctuation"].

(** ** Notions for the conversion *)

(** How a token of the text and the token of the result that stands for
    it relate: a word stands for a word, and a run of other characters
    stays. *)
Definition stands_for (m m' : Match) : Prop :=
  if kind (group m) then group m' <> [] /\ letters (group m')
  else group m' = group m.


(** The words of [L] that the scan by [_URL_RE] of [u ++ lhs L] covers at
    their start are the same on both sides. *)
Definition guarded (u : str) (L : list (str * str)) : Prop :=
  forall L1 w w' L2, L = L1 ++ (w, w') :: L2 ->
    covered _URL_RE 0 (u ++ lhs L) (length u + length (lhs L1)) = true ->
    w = w'.

(** ** The corrector of the module ([get_corrector])

    The module keeps one [TextCorrector] in its global [_corrector], made
    at the first call.  An object is known by its identity, a number, and
    [made] counts the objects constructed so far; calls come one after the
    other. *)

Record Globals := { _corrector : option nat; made : nat }.

(** [get_corrector]: the corrector returned, and the globals after the
    call. *)
Definition get_corrector (g : Globals) : nat * Globals :=
  match _corrector g with
  | None => (made g, {| _corrector := Some (made g); made := S (made g) |})
  | Some c => (c, g)
  end.

(** [n] calls in a row: what they return, and the globals at the end. *)
Fixpoint calls (n : nat) (g : Globals) : list nat * Globals :=
  match n with
  | 0 => ([], g)
  | S n' =>
      let (c, g1) := get_corrector g in
      let (cs, g2) := calls n' g1 in
      (c :: cs, g2)
  end.

(** * Properties *)

(** ** Strings, sets and dictionaries *)

Lemma str_eqb_eq (a b : str) : str_eqb a b = true <-> a = b.
Proof.
  revert b; induction a as [|x a IH]; intros [|y b]; simpl;
    try (split; [discriminate | congruence]); try tauto.
  rewrite andb_true_iff, N.eqb_eq, IH. split.
  - intros [-> ->]; reflexivity.
  - intros E; injection E; auto.
Qed.

Lemma str_eqb_refl (a : str) : str_eqb a a = true.
Proof. apply str_eqb_eq; reflexivity. Qed.

Lemma str_eqb_neq (a b : str) : str_eqb a b = false <-> a <> b.
Proof.
  rewrite <- str_eqb_eq. destruct (str_eqb a b); split; congruence.
Qed.

Lemma mem_In (x : str) (s : list str) : mem x s = true <-> In x s.
Proof.
  unfold mem. rewrite existsb_exists. split.
  - intros (y & Hy & E). apply str_eqb_eq in E. subst; assumption.
  - intros H. exists x. split; [assumption | apply str_eqb_refl].
Qed.

Lemma dict_get_In (d : dict) (k v : str) :
  dict_get d k = Some v -> In (k, v) d.
Proof.
  induction d as [|[k' v'] d IH]; simpl; [discriminate|].
  destruct (str_eqb k k') eqn:E.
  - apply str_eqb_eq in E. intros [= ->]. subst; auto.
  - auto.
Qed.

Lemma dict_get_set (d : dict) (k v k' : str) :
  dict_get (dict_set d k v) k' = if str_eqb k' k then Some v else dict_get d k'.
Proof.
  induction d as [|[k0 v0] d IH]; simpl.
  - reflexivity.
  - destruct (str_eqb k k0) eqn:E; simpl.
    + apply str_eqb_eq in E. subst k0. destruct (str_eqb k' k); reflexivity.
    + rewrite IH. destruct (str_eqb k' k0) eqn:E0; [|reflexivity].
      apply str_eqb_eq in E0. subst k0.
      destruct (str_eqb k' k) eqn:E1; [|reflexivity].
      apply str_eqb_eq in E1. subst k'. rewrite str_eqb_refl in E. discriminate.
Qed.



Lemma find_snoc {A} (f : A -> bool) (l : list A) (x : A) :
  find f (l ++ [x]) =
  match find f l with Some y => Some y | None => if f x then Some x else None end.
Proof.
  induction l as [|y l IH]; simpl; [reflexivity|].
  destruct (f y); [reflexivity | exact IH].
Qed.

Lemma dict_invert_fold (d r : dict) (v : str) :
  dict_get (fold_left (fun r kv => dict_set r (snd kv) (fst kv)) d r) v =
  match last_with_value d v with
  | Some kv => Some (fst kv)
  | None => dict_get r v
  end.
Proof.
  unfold last_with_value. revert r; induction d as [|kv d IH]; intros r; simpl.
  - reflexivity.
  - rewrite IH, find_snoc.
    destruct (find _ (rev d)); [reflexivity|].
    rewrite dict_get_set. destruct (str_eqb v (snd kv)); reflexivity.
Qed.



Lemma nodupb_NoDup (l : list str) : nodupb l = true -> NoDup l.
Proof.
  induction l as [|x l IH]; simpl; intros H; constructor;
    apply andb_true_iff in H; destruct H as [H1 H2]; auto.
  intros HIn. apply mem_In in HIn. rewrite HIn in H1. discriminate.
Qed.



Lemma opt_eqb_eq (a b : option str) : opt_eqb a b = true -> a = b.
Proof.
  destruct a, b; simpl; try discriminate; try reflexivity.
  intros H; apply str_eqb_eq in H; congruence.
Qed.

(** A fact checked on every pair of a table holds of what a look-up
    returns. *)
Lemma table_forall (d : dict) (f : str * str -> bool) (k v : str) :
  forallb f d = true -> dict_get d k = Some v -> f (k, v) = true.
Proof.
  intros H G. apply dict_get_In in G.
  rewrite forallb_forall in H. exact (H _ G).
Qed.



(** ** The tables *)

(** C8 as the specification has it fails: the forward table stores the
    pair "programmed": "programmed". *)
Lemma C8_programmed_maps_to_itself :
  ~ (forall k v : str, dict_get _US_TO_UK k = Some v -> v <> k).
Proof.
  intros H. apply (H (py "programmed") (py "programmed")); reflexivity.
Qed.

(** C8, amended: "programmed" is stored with itself as its value, and for
    every other key of the forward table the stored value differs from
    the key. *)
Theorem C8_forward_values_differ :
  dict_get _US_TO_UK (py "programmed") = Some (py "programmed") /\
  forall k v : str,
    dict_get _US_TO_UK k = Some v -> k <> py "programmed" -> v <> k.
Proof.
  split; [reflexivity|].
  intros k v G Hk E. subst v.
  apply (table_forall _
           (fun kv => negb (str_eqb (snd kv) (fst kv))
                      || str_eqb (fst kv) (py "programmed"))) in G;
    [|vm_compute; reflexivity].
  simpl in G. rewrite str_eqb_refl in G. simpl in G.
  apply str_eqb_eq in G. contradiction.
Qed.

Lemma C8_forward_values_differ_witness :
  dict_get _US_TO_UK (py "color") = Some (py "colour") /\
  py "colour" <> py "color".
Proof.
  split; [reflexivity|].
  apply (proj2 C8_forward_values_differ (py "color") (py "colour"));
    [reflexivity | vm_compute; discriminate].
Defined.

(** C7 as the specification has it fails: a forward table with two equal
    values is inverted without an error, the later pair winning. *)
Lemma C7_duplicate_values_accepted :
  let forward := [(py "a", py "x"); (py "b", py "x")] in
  ~ NoDup (values forward) /\
  build_reverse forward = Some [(py "x", py "b")].
Proof.
  split; [|reflexivity].
  intros H. inversion H as [|? ? Hn _]. apply Hn. left; reflexivity.
Qed.

(** C7, amended: building the reverse table never fails and checks
    nothing; a value of the forward table is mapped to the key of the
    last pair that holds it.  The forward table of the program has
    pairwise distinct values, so the reverse table has as many entries
    and is its exact inverse. *)
Theorem C7_reverse_table :
  (forall forward : dict, build_reverse forward = Some (dict_invert forward)) /\
  (forall (forward : dict) (v : str),
      dict_get (dict_invert forward) v =
      option_map fst (last_with_value forward v)) /\
  NoDup (values _US_TO_UK) /\
  length _UK_TO_US = length _US_TO_UK /\
  (forall k v : str,
      dict_get _US_TO_UK k = Some v <-> dict_get _UK_TO_US v = Some k).
Proof.
  split; [reflexivity|]. split.
  { intros d v. unfold dict_invert, items. rewrite dict_invert_fold.
    destruct (last_with_value d v); reflexivity. }
  split; [apply nodupb_NoDup; vm_compute; reflexivity|].
  split; [vm_compute; reflexivity|].
  intros k v; split; intros G.
  - apply (table_forall _
      (fun kv => opt_eqb (dict_get _UK_TO_US (snd kv)) (Some (fst kv)))) in G;
      [|vm_compute; reflexivity].
    apply opt_eqb_eq in G. exact G.
  - apply (table_forall _
      (fun kv => opt_eqb (dict_get _US_TO_UK (snd kv)) (Some (fst kv)))) in G;
      [|vm_compute; reflexivity].
    apply opt_eqb_eq in G. exact G.
Qed.

Lemma C7_reverse_table_witness :
  dict_get _UK_TO_US (py "colour") = Some (py "color").
Proof.
  destruct C7_reverse_table as (_ & _ & _ & _ & H).
  apply (proj1 (H (py "color") (py "colour"))). vm_compute. reflexivity.
Defined.




(** ** Matching *)

Lemma run_le_length (p : cp -> bool) (s : str) : run p s <= length s.
Proof. induction s as [|c s IH]; simpl; [|destruct (p c)]; lia. Qed.

Lemma run_app_all (p : cp -> bool) (t r : str) :
  forallb p t = true -> run p (t ++ r) = length t + run p r.
Proof.
  induction t as [|c t IH]; simpl; [reflexivity|].
  intros H. apply andb_true_iff in H. destruct H as [-> H].
  rewrite IH by assumption. reflexivity.
Qed.

(** A greedy repetition at the end of a pattern takes the whole run. *)
Lemma rep_k0 (p : cp -> bool) (s : str) (min : nat) :
  rep p min s k0 = if min <=? run p s then Some (run p s) else None.
Proof.
  revert min; induction s as [|c s IH]; intros min; simpl.
  - destruct min; reflexivity.
  - destruct (p c).
    + rewrite IH. destruct min as [|min]; simpl.
      * reflexivity.
      * destruct (min <=? run p s); reflexivity.
    + destruct min; reflexivity.
Qed.

Lemma match_at_TOKEN (s : str) :
  match_at _TOKEN_RE s =
  match s with
  | [] => None
  | c :: _ => Some (if az_letter c then run az_letter s else run not_letter s)
  end.
Proof.
  unfold match_at, _TOKEN_RE. simpl. fold k0. rewrite !rep_k0.
  destruct s as [|c s]; simpl; [reflexivity|]. unfold not_letter.
  destruct (az_letter c); reflexivity.
Qed.

Lemma TOKEN_RE_nonempty (s : str) (n : nat) :
  match_at _TOKEN_RE s = Some n -> 0 < n.
Proof.
  rewrite match_at_TOKEN. destruct s as [|c s]; [discriminate|].
  intros [= <-]. cbn [run]. unfold not_letter.
  destruct (az_letter c); simpl; lia.
Qed.

(** A match never runs past the end of the text. *)
Lemma rep_le (p : cp -> bool) (k : str -> option nat) :
  (forall s n, k s = Some n -> n <= length s) ->
  forall s min n, rep p min s k = Some n -> n <= length s.
Proof.
  intros Hk. induction s as [|c s IH]; intros min n; simpl.
  - destruct min; [|discriminate]. apply Hk.
  - assert (Hstop : match min with 0 => k (c :: s) | S _ => None end = Some n
                    -> n <= S (length s)).
    { destruct min; [|discriminate]. apply Hk. }
    destruct (p c); [|exact Hstop].
    destruct (rep p (pred min) s k) as [m|] eqn:E; [|exact Hstop].
    intros [= <-]. apply IH in E. lia.
Qed.

Lemma rmatch_le (r : regex) :
  forall (k : str -> option nat),
    (forall s n, k s = Some n -> n <= length s) ->
    forall s n, rmatch r s k = Some n -> n <= length s.
Proof.
  induction r as [|p|r1 IH1 r2 IH2|r1 IH1 r2 IH2|r1 IH1|p min];
    intros k Hk s n; simpl.
  - apply Hk.
  - destruct s as [|c s]; [discriminate|]. destruct (p c); [|discriminate].
    destruct (k s) as [m|] eqn:E; [|discriminate]. simpl. intros [= <-].
    apply Hk in E. simpl. lia.
  - apply IH1. intros s1 n1. apply IH2. exact Hk.
  - destruct (rmatch r1 s k) as [m|] eqn:E.
    + intros [= <-]. exact (IH1 _ Hk _ _ E).
    + apply IH2. exact Hk.
  - destruct (rmatch r1 s k) as [m|] eqn:E.
    + intros [= <-]. exact (IH1 _ Hk _ _ E).
    + apply Hk.
  - apply rep_le. exact Hk.
Qed.

Lemma match_at_le (r : regex) (s : str) (n : nat) :
  match_at r s = Some n -> n <= length s.
Proof.
  apply rmatch_le. intros s1 n1 [= <-]. lia.
Qed.

(** ** Scanning *)

Lemma scan_skip (r : regex) (s : str) :
  forall skip pos, skip <= length s ->
    scan r skip pos s = scan r 0 (pos + skip) (skipn skip s).
Proof.
  induction s as [|c s IH]; intros skip pos H; simpl in H.
  - assert (skip = 0) by lia. subst. reflexivity.
  - destruct skip as [|j].
    + rewrite Nat.add_0_r. reflexivity.
    + simpl. rewrite IH by lia. f_equal. lia.
Qed.

Lemma scan_match (r : regex) (s : str) (pos n : nat) :
  match_at r s = Some (S n) ->
  scan r 0 pos s =
  {| m_start := pos; m_end := pos + S n; group := firstn (S n) s |}
    :: scan r 0 (pos + S n) (skipn (S n) s).
Proof.
  intros E. destruct s as [|c s].
  - apply match_at_le in E. simpl in E. lia.
  - cbn [scan]. rewrite E. f_equal. cbn [pred].
    pose proof (match_at_le _ _ _ E) as L. simpl in L.
    rewrite scan_skip by lia. cbn [skipn]. f_equal. lia.
Qed.

Lemma scan_no_match (r : regex) (c : cp) (s : str) (pos : nat) :
  match_at r (c :: s) = None -> scan r 0 pos (c :: s) = scan r 0 (S pos) s.
Proof. intros E. cbn [scan]. rewrite E. reflexivity. Qed.

(** ** Tokens

    Every text has a division into maximal runs and the scan by
    [_TOKEN_RE] finds it. *)









Lemma map_group_matches_of (l : list str) (pos : nat) :
  map group (matches_of pos l) = l.
Proof.
  revert pos; induction l as [|t l IH]; intros pos; simpl; [|rewrite IH];
    reflexivity.
Qed.

Lemma uniform_letters (t : str) :
  kind t = true -> uniform t = true -> forallb az_letter t = true.
Proof.
  unfold uniform. intros K H. rewrite K in H.
  rewrite forallb_forall in *. intros c Hc. specialize (H c Hc).
  destruct (az_letter c); [reflexivity | discriminate].
Qed.

Lemma uniform_others (t : str) :
  kind t = false -> uniform t = true -> forallb not_letter t = true.
Proof.
  unfold uniform, not_letter. intros K H. rewrite K in H.
  rewrite forallb_forall in *. intros c Hc. specialize (H c Hc).
  destruct (az_letter c); [discriminate | reflexivity].
Qed.

Lemma next_chunk_stops (p : cp -> bool) (t : str) (l : list str) :
  chunked (t :: l) ->
  (forall c, az_letter c = negb (kind t) -> p c = false) ->
  run p (concat l) = 0.
Proof.
  intros C Hp. inversion C as [|? ? Hne Hu Hk C']; subst.
  destruct C' as [|t2 l2 Hne2 _ _ _]; [reflexivity|].
  specialize (Hk t2 eq_refl). destruct t2 as [|c2 t2]; [contradiction|].
  simpl in *. rewrite (Hp c2 Hk). reflexivity.
Qed.

Lemma match_at_chunk (t : str) (l : list str) :
  chunked (t :: l) -> match_at _TOKEN_RE (concat (t :: l)) = Some (length t).
Proof.
  intros C. pose proof C as C0. inversion C as [|? ? Hne Hu Hk C']; subst.
  rewrite match_at_TOKEN. simpl.
  destruct t as [|c t]; [contradiction|]. cbn [app]. f_equal.
  change (c :: t ++ concat l) with ((c :: t) ++ concat l).
  change (az_letter c) with (kind (c :: t)).
  destruct (kind (c :: t)) eqn:K.
  - rewrite run_app_all by (apply uniform_letters; assumption).
    rewrite (next_chunk_stops az_letter _ _ C0); [lia|].
    intros d Hd. rewrite K in Hd. exact Hd.
  - rewrite run_app_all by (apply uniform_others; assumption).
    rewrite (next_chunk_stops not_letter _ _ C0); [lia|].
    intros d Hd. rewrite K in Hd. unfold not_letter. rewrite Hd. reflexivity.
Qed.

Lemma scan_chunked (l : list str) :
  chunked l -> forall pos, scan _TOKEN_RE 0 pos (concat l) = matches_of pos l.
Proof.
  induction 1 as [|t l Hne Hu Hk C IH]; intros pos; [reflexivity|].
  pose proof (match_at_chunk _ _ (chunked_cons _ _ Hne Hu Hk C)) as E.
  destruct (length t) as [|n] eqn:L.
  { destruct t; [contradiction | discriminate]. }
  rewrite (scan_match _ _ pos _ E). simpl concat. rewrite <- L.
  rewrite firstn_app, Nat.sub_diag, firstn_all, firstn_O, app_nil_r.
  rewrite skipn_app, Nat.sub_diag, skipn_all, skipn_O. simpl.
  rewrite IH. reflexivity.
Qed.

Lemma run_firstn (p : cp -> bool) (s : str) :
  forallb p (firstn (run p s) s) = true.
Proof.
  induction s as [|c s IH]; simpl; [reflexivity|].
  destruct (p c) eqn:E; simpl; [rewrite E, IH|]; reflexivity.
Qed.

Lemma run_skipn (p : cp -> bool) (s : str) (c : cp) (r : str) :
  skipn (run p s) s = c :: r -> p c = false.
Proof.
  induction s as [|d s IH]; simpl; [discriminate|].
  destruct (p d) eqn:E; simpl; [exact IH|].
  intros [= <- <-]. exact E.
Qed.

Lemma chunks_exist (s : str) : exists l, chunked l /\ concat l = s.
Proof.
  remember (length s) as n eqn:Hn. revert s Hn.
  induction n as [n IH] using lt_wf_ind. intros [|c s] Hn.
  - exists []. split; [constructor | reflexivity].
  - set (p := fun d => Bool.eqb (az_letter d) (az_letter c)).
    assert (Hp : p c = true) by (unfold p; apply eqb_reflx).
    set (m := run p s).
    destruct (IH (length (skipn m s))) with (s := skipn m s) as (l & C & E).
    { subst n. rewrite length_skipn. simpl. lia. }
    { reflexivity. }
    exists ((c :: firstn m s) :: l). split.
    + constructor; [discriminate | | | exact C].
      * unfold uniform. cbn [kind forallb]. rewrite eqb_reflx. simpl.
        exact (run_firstn p s).
      * intros t2 H2. destruct C as [|t l Hne _ _ _]; [discriminate|].
        simpl in H2. injection H2 as ->. destruct t2 as [|c2 t2]; [contradiction|].
        simpl in E. symmetry in E. apply run_skipn in E. unfold p in E. simpl.
        destruct (az_letter c2), (az_letter c); simpl in *; congruence.
    + simpl. rewrite E. rewrite firstn_skipn. reflexivity.
Qed.

(** The tokens of a text, as the scan finds them. *)
Lemma tokens_chunks (text : str) :
  exists l, chunked l /\ concat l = text /\
            finditer _TOKEN_RE text = matches_of 0 l.
Proof.
  destruct (chunks_exist text) as (l & C & E).
  exists l. repeat split; try assumption.
  unfold finditer. rewrite <- E. apply scan_chunked. exact C.
Qed.

Lemma chunked_nonempty (l : list str) :
  chunked l -> Forall (fun t => t <> []) l.
Proof. induction 1; constructor; assumption. Qed.

Lemma matches_of_start_ge (l : list str) (pos : nat) (m : Match) :
  In m (matches_of pos l) -> pos <= m_start m.
Proof.
  revert pos; induction l as [|t l IH]; intros pos; simpl; [tauto|].
  intros [<- | H]; [simpl; lia|]. apply IH in H. lia.
Qed.

Lemma matches_of_sorted (l : list str) :
  Forall (fun t => t <> []) l ->
  forall pos, StronglySorted (fun a b => m_start a < m_start b) (matches_of pos l).
Proof.
  induction 1 as [|t l Hne _ IH]; intros pos; simpl; constructor.
  - apply IH.
  - apply Forall_forall. intros m Hm. apply matches_of_start_ge in Hm. simpl.
    destruct t; [contradiction | simpl in Hm; lia].
Qed.


(** ** Case of ASCII letters *)

Ltac cp_cases :=
  unfold az_letter, az_upper, az_lower, is_digit, is_ascii, between,
    ascii_lower, ascii_upper in *;
  repeat match goal with
    | |- context [N.leb ?a ?b] => destruct (N.leb_spec a b)
    | |- context [N.ltb ?a ?b] => destruct (N.ltb_spec a b)
    | H : context [N.leb ?a ?b] |- _ => destruct (N.leb_spec a b)
    | H : context [N.ltb ?a ?b] |- _ => destruct (N.ltb_spec a b)
    end;
  simpl in *; try discriminate; try reflexivity; try lia.

Lemma az_letter_ascii (c : cp) : az_letter c = true -> is_ascii c = true.
Proof. cp_cases. Qed.

Lemma az_lower_not_upper (c : cp) :
  az_letter c = true -> az_lower c = negb (az_upper c).
Proof. cp_cases. Qed.

Section Case.
Context {U : UnicodeDB}.

Lemma cp_isupper_letter (c : cp) :
  az_letter c = true -> cp_isupper c = az_upper c.
Proof. intros H. unfold cp_isupper. rewrite (az_letter_ascii c H). reflexivity. Qed.

Lemma cp_islower_letter (c : cp) :
  az_letter c = true -> cp_islower c = negb (az_upper c).
Proof.
  intros H. unfold cp_islower. rewrite (az_letter_ascii c H).
  apply az_lower_not_upper. exact H.
Qed.

Lemma cp_istitle_letter (c : cp) : az_letter c = true -> cp_istitle c = false.
Proof. intros H. unfold cp_istitle. rewrite (az_letter_ascii c H). reflexivity. Qed.

Lemma isupper_loop_letters (s : str) (cased : bool) :
  forallb az_letter s = true ->
  isupper_loop cased s =
  forallb az_upper s && (cased || match s with [] => false | _ => true end).
Proof.
  revert cased; induction s as [|c s IH]; intros cased H; simpl.
  - rewrite orb_false_r. reflexivity.
  - simpl in H. apply andb_true_iff in H. destruct H as [Hc Hs].
    rewrite (cp_islower_letter c Hc), (cp_istitle_letter c Hc),
      (cp_isupper_letter c Hc), orb_false_r.
    destruct (az_upper c); simpl; [|reflexivity].
    rewrite (IH _ Hs), !orb_true_r, !andb_true_r. reflexivity.
Qed.

(** On a word of ASCII letters [isupper] says that every letter is a
    capital. *)
Lemma isupper_letters (s : str) :
  s <> [] -> forallb az_letter s = true -> isupper s = forallb az_upper s.
Proof.
  intros Hne H. destruct s as [|c [|c2 s]]; [contradiction| |].
  - simpl in *. rewrite andb_true_r in *. apply cp_isupper_letter. exact H.
  - unfold isupper. rewrite (isupper_loop_letters _ _ H).
    rewrite andb_true_r. reflexivity.
Qed.
End Case.



Lemma select_ok (variant : str) :
  table_ok (fst (select variant)) (snd (select variant)) = true.
Proof.
  unfold select. destruct (str_eqb variant (py "uk")); vm_compute; reflexivity.
Qed.

Lemma table_ok_get (mapping : dict) (sw : list str) (k : str) :
  table_ok mapping sw = true -> mem k sw = true ->
  exists c r, dict_get mapping k = Some (c :: r).
Proof.
  unfold table_ok. rewrite forallb_forall, mem_In. intros H Hk.
  specialize (H k Hk). destruct (dict_get mapping k) as [[|c r]|];
    try discriminate. eauto.
Qed.



Section Loop.
Context {U : UnicodeDB}.
Variables (mapping : dict) (source_words : list str)
          (url_spans : list (nat * nat)).

Lemma match_case_some (original replacement : str) :
  original <> [] -> replacement <> [] ->
  exists r, _match_case original replacement = Some r.
Proof.
  intros Ho Hr. unfold _match_case.
  destruct (isupper original); [eauto|].
  destruct original as [|o original]; [contradiction|].
  destruct (isupper [o]); [|eauto].
  destruct replacement; [contradiction | eauto].
Qed.

(** What a turn of the loop appends does not depend on what was
    collected before. *)
Lemma convert_token_st (cs : list Change) (ps : list str) (m : Match) :
  convert_token mapping source_words url_spans (cs, ps) m =
  match convert_token mapping source_words url_spans ([], []) m with
  | Some (c, p) => Some (cs ++ c, ps ++ p)
  | None => None
  end.
Proof.
  unfold convert_token. cbv zeta.
  destruct (in_url url_spans (m_start m) || negb (isalpha (group m)));
    [rewrite app_nil_r; reflexivity|].
  destruct (mem (lower (group m)) source_words);
    [|rewrite app_nil_r; reflexivity].
  destruct (dict_get mapping (lower (group m))) as [r|]; [|reflexivity].
  destruct (_match_case (group m) r) as [r'|]; [|reflexivity].
  destruct (negb (str_eqb r' (group m))); [|rewrite app_nil_r]; reflexivity.
Qed.

Hypothesis Hok : table_ok mapping source_words = true.

(** A turn on a non-empty token raises nothing; it appends one part, and
    one change exactly when the part differs from the token. *)
Lemma convert_token_total (m : Match) :
  group m <> [] ->
  exists c p, convert_token mapping source_words url_spans ([], []) m = Some (c, [p]) /\
    (c = [] /\ p = group m \/ c = [spelling (group m) p] /\ p <> group m).
Proof.
  intros Hne. unfold convert_token. cbv zeta. cbn [app].
  destruct (in_url url_spans (m_start m) || negb (isalpha (group m)));
    [solve [eauto 6]|].
  destruct (mem (lower (group m)) source_words) eqn:Hm; [|solve [eauto 6]].
  destruct (table_ok_get _ _ _ Hok Hm) as (c & r & ->).
  destruct (@match_case_some (group m) (c :: r) Hne) as (r' & ->);
    [discriminate|].
  destruct (str_eqb r' (group m)) eqn:E; simpl; [solve [eauto 6]|].
  apply str_eqb_neq in E. unfold spelling. eauto 7.
Qed.





Lemma convert_loop_spec (ms : list Match) :
  Forall (fun m => group m <> []) ms ->
  forall cs ps,
    convert_loop mapping source_words url_spans (cs, ps) ms =
    Some (cs ++ flat_map (changes_of mapping source_words url_spans) ms,
       ps ++ map (part_of mapping source_words url_spans) ms).
Proof.
  induction 1 as [|m ms Hm _ IH]; intros cs ps;
    cbn [convert_loop flat_map map].
  - rewrite !app_nil_r. reflexivity.
  - rewrite convert_token_st. unfold changes_of at 1, part_of at 1.
    destruct (convert_token_total m Hm) as (c & p & -> & _).
    rewrite IH. simpl. rewrite app_nil_r, <- !app_assoc. reflexivity.
Qed.
End Loop.

Section Convert.
Context {U : UnicodeDB}.

Lemma matches_of_nonempty (l : list str) (pos : nat) :
  Forall (fun t => t <> []) l ->
  Forall (fun m => group m <> []) (matches_of pos l).
Proof.
  intros H; revert pos; induction H; intros pos; simpl; constructor; auto.
Qed.

Lemma tokens_nonempty (text : str) :
  Forall (fun m => group m <> []) (finditer _TOKEN_RE text).
Proof.
  destruct (tokens_chunks text) as (l & C & _ & ->).
  apply matches_of_nonempty, chunked_nonempty, C.
Qed.

(** The result of the conversion, token by token. *)
Lemma convert_parts_spec (text variant : str) :
  let mapping := fst (select variant) in
  let sw := snd (select variant) in
  let spans := url_spans_of text in
  let tokens := finditer _TOKEN_RE text in
  convert_parts text variant =
  Some (flat_map (changes_of mapping sw spans) tokens,
        map (part_of mapping sw spans) tokens).
Proof.
  intros mapping sw spans tokens. unfold convert_parts.
  pose proof (select_ok variant) as Hok. fold mapping sw in Hok.
  destruct (select variant) as [mp s] eqn:E. simpl in mapping, sw.
  subst mapping sw.
  rewrite (convert_loop_spec _ _ _ Hok _ (tokens_nonempty text)). reflexivity.
Qed.

Lemma convert_variant_spec (text variant : str) :
  _convert_variant text variant =
  Some (concat (map (part_of (fst (select variant)) (snd (select variant))
                       (url_spans_of text)) (finditer _TOKEN_RE text)),
        flat_map (changes_of (fst (select variant)) (snd (select variant))
                    (url_spans_of text)) (finditer _TOKEN_RE text)).
Proof.
  unfold _convert_variant. rewrite convert_parts_spec. reflexivity.
Qed.
End Convert.


(** ** Tokens and protected spans *)

(** C2: tokenization is lossless.  The texts of the tokens that
    [_TOKEN_RE] finds in a string, concatenated in order, are the string:
    no character is dropped or repeated. *)
Theorem C2_tokenize_lossless (text : str) :
  concat (map group (finditer _TOKEN_RE text)) = text.
Proof.
  destruct (tokens_chunks text) as (l & _ & E & ->).
  rewrite map_group_matches_of. exact E.
Qed.

Section Claims.
Context {U : UnicodeDB}.

Lemma convert_token_in_url (mapping : dict) (sw : list str)
    (spans : list (nat * nat)) (st : list Change * list str) (m : Match) :
  in_url spans (m_start m) = true ->
  convert_token mapping sw spans st m = Some (fst st, snd st ++ [group m]).
Proof.
  intros H. unfold convert_token. destruct st as [cs ps]. rewrite H.
  reflexivity.
Qed.

Lemma part_of_in_url (mapping : dict) (sw : list str)
    (spans : list (nat * nat)) (m : Match) :
  in_url spans (m_start m) = true -> part_of mapping sw spans m = group m.
Proof.
  intros H. unfold part_of. rewrite (convert_token_in_url _ _ _ _ _ H).
  simpl. apply app_nil_r.
Qed.

Lemma changes_of_cases (mapping : dict) (sw : list str)
    (spans : list (nat * nat)) (m : Match) (c : list Change) (p : list str) :
  convert_token mapping sw spans ([], []) m = Some (c, p) ->
  changes_of mapping sw spans m = c.
Proof. intros H. unfold changes_of. rewrite H. reflexivity. Qed.
End Claims.

(** C1: in "Visit https://example.com/color for the color." converted to
    "uk" the span of the URL is [6, 31), the result is
    "Visit https://example.com/color for the colour." and the one change
    is "color" to "colour".  In every text, a token whose start offset
    lies in a span found by [_URL_RE] is emitted as it is: it is the part
    at its place in [result_parts] and its turn of the loop records no
    change. *)
Theorem C1_url_tokens_unchanged {U : UnicodeDB} :
  (url_spans_of (py "Visit https://example.com/color for the color.") = [(6, 31)]
   /\ _convert_variant (py "Visit https://example.com/color for the color.")
        (py "uk")
      = Some (py "Visit https://example.com/color for the colour.",
              [{| type := py "spelling"; original := py "color";
                  replacement := py "colour" |}]))
  /\ forall (text variant : str) (i : nat) (m : Match),
       nth_error (finditer _TOKEN_RE text) i = Some m ->
       in_url (url_spans_of text) (m_start m) = true ->
       exists changes result_parts,
         convert_parts text variant = Some (changes, result_parts)
         /\ _convert_variant text variant = Some (concat result_parts, changes)
         /\ nth_error result_parts i = Some (group m)
         /\ forall st,
             convert_token (fst (select variant)) (snd (select variant))
               (url_spans_of text) st m
             = Some (fst st, snd st ++ [group m]).
Proof.
  split; [split; vm_compute; reflexivity|].
  intros text variant i m Hi Hu.
  eexists; eexists. split; [apply convert_parts_spec|].
  split; [apply convert_variant_spec|]. split.
  - rewrite nth_error_map, Hi. simpl. f_equal. apply part_of_in_url. exact Hu.
  - intros st. apply convert_token_in_url. exact Hu.
Qed.

Lemma C1_url_tokens_unchanged_witness :
  let text := py "See www.color.org or the color" in
  exists changes result_parts,
    convert_parts (U := ascii_db) text (py "uk") = Some (changes, result_parts)
    /\ nth_error result_parts 4 = Some (py "color").
Proof.
  intros text.
  destruct (proj2 (C1_url_tokens_unchanged (U := ascii_db)) text (py "uk") 4
              {| m_start := 8; m_end := 13; group := py "color" |})
    as (changes & parts & H1 & _ & H3 & _).
  - vm_compute. reflexivity.
  - vm_compute. reflexivity.
  - exists changes, parts. split; assumption.
Defined.

(** ** Case projection *)

(** C3: for a non-empty token of ASCII letters, [_match_case] gives the
    replacement in capitals when every letter of the token is a capital;
    otherwise, when the first letter of the token is a capital, the
    replacement with its first character in upper case and the rest as it
    is; otherwise the replacement as it is.  So "COLOR", "Color" and
    "color" become "COLOUR", "Colour" and "colour". *)
Theorem C3_case_projection {U : UnicodeDB} :
  (forall (o : cp) (rest replacement : str),
      forallb az_letter (o :: rest) = true ->
      (forallb az_upper (o :: rest) = true ->
       _match_case (o :: rest) replacement = Some (upper replacement))
      /\ (forallb az_upper (o :: rest) = false -> az_upper o = true ->
          forall r tail, replacement = r :: tail ->
          _match_case (o :: rest) replacement = Some (upper [r] ++ tail))
      /\ (forallb az_upper (o :: rest) = false -> az_upper o = false ->
          _match_case (o :: rest) replacement = Some replacement))
  /\ _match_case (py "COLOR") (py "colour") = Some (py "COLOUR")
  /\ _match_case (py "Color") (py "colour") = Some (py "Colour")
  /\ _match_case (py "color") (py "colour") = Some (py "colour")
  /\ _convert_variant (py "COLOR") (py "uk")
     = Some (py "COLOUR", [{| type := py "spelling"; original := py "COLOR";
                              replacement := py "COLOUR" |}])
  /\ _convert_variant (py "Color") (py "uk")
     = Some (py "Colour", [{| type := py "spelling"; original := py "Color";
                              replacement := py "Colour" |}])
  /\ _convert_variant (py "color") (py "uk")
     = Some (py "colour", [{| type := py "spelling"; original := py "color";
                              replacement := py "colour" |}]).
Proof.
  split; [|repeat split; vm_compute; reflexivity].
  intros o rest replacement H.
  assert (Ho : az_letter o = true).
  { simpl in H. apply andb_true_iff in H. tauto. }
  assert (E : isupper (o :: rest) = forallb az_upper (o :: rest)).
  { apply isupper_letters; [discriminate | exact H]. }
  assert (E1 : isupper [o] = az_upper o).
  { simpl. apply cp_isupper_letter. exact Ho. }
  unfold _match_case. rewrite E, E1. repeat split.
  - intros ->. reflexivity.
  - intros -> -> r tail ->. reflexivity.
  - intros -> ->. reflexivity.
Qed.

Lemma C3_case_projection_witness :
  _match_case (U := ascii_db) (py "Gray") (py "grey") = Some (py "Grey").
Proof.
  destruct (proj1 (C3_case_projection (U := ascii_db))
              (N_of_ascii "G") (py "ray") (py "grey")) as (_ & H & _).
  - vm_compute. reflexivity.
  - apply (H eq_refl eq_refl (N_of_ascii "g") (py "rey")). reflexivity.
Defined.

(** ** Order of the changes *)

Lemma sorted_split (T : list Match) (a b : Match) :
  StronglySorted (fun x y => m_start x < m_start y) T ->
  In a T -> In b T -> m_start a < m_start b ->
  exists l1 l2 l3, T = l1 ++ a :: l2 ++ b :: l3.
Proof.
  induction 1 as [|x T HS IH HF]; intros Ha Hb Hlt; [contradiction|].
  rewrite Forall_forall in HF.
  destruct Ha as [-> | Ha].
  - destruct Hb as [-> | Hb]; [lia|].
    apply in_split in Hb. destruct Hb as (l2 & l3 & ->).
    exists [], l2, l3. reflexivity.
  - destruct Hb as [-> | Hb].
    + specialize (HF _ Ha). lia.
    + destruct (IH Ha Hb Hlt) as (l1 & l2 & l3 & ->).
      exists (x :: l1), l2, l3. reflexivity.
Qed.

Lemma tokens_sorted (text : str) :
  StronglySorted (fun x y => m_start x < m_start y) (finditer _TOKEN_RE text).
Proof.
  destruct (tokens_chunks text) as (l & C & _ & ->).
  apply matches_of_sorted, chunked_nonempty, C.
Qed.

(** C5: the changes are returned in the order of the text.  When the
    turn of the loop for a token [a] records the change [A], the one for
    a token [b] records [B], and [a] starts at a smaller offset than [b],
    then [A] comes before [B] in the list returned.  For
    "The color is nice and the neighbor is kind." converted to "uk" the
    list is the change of "color" followed by the change of "neighbor". *)
Theorem C5_changes_in_document_order {U : UnicodeDB} :
  (forall (text variant : str),
    exists out changes,
      _convert_variant text variant = Some (out, changes) /\
      forall (a b : Match) (A B : Change) (pa pb : list str),
        In a (finditer _TOKEN_RE text) -> In b (finditer _TOKEN_RE text) ->
        m_start a < m_start b ->
        convert_token (fst (select variant)) (snd (select variant))
          (url_spans_of text) ([], []) a = Some ([A], pa) ->
        convert_token (fst (select variant)) (snd (select variant))
          (url_spans_of text) ([], []) b = Some ([B], pb) ->
        exists c1 c2 c3, changes = c1 ++ A :: c2 ++ B :: c3)
  /\ _convert_variant (py "The color is nice and the neighbor is kind.")
       (py "uk")
     = Some (py "The colour is nice and the neighbour is kind.",
             [{| type := py "spelling"; original := py "color";
                 replacement := py "colour" |};
              {| type := py "spelling"; original := py "neighbor";
                 replacement := py "neighbour" |}]).
Proof.
  split; [|vm_compute; reflexivity].
  intros text variant. eexists; eexists. split; [apply convert_variant_spec|].
  intros a b A B pa pb Ha Hb Hlt HA HB.
  destruct (sorted_split _ a b (tokens_sorted text) Ha Hb Hlt)
    as (l1 & l2 & l3 & ->).
  rewrite flat_map_app. cbn [flat_map]. rewrite flat_map_app. cbn [flat_map].
  rewrite (changes_of_cases _ _ _ _ _ _ HA), (changes_of_cases _ _ _ _ _ _ HB).
  eexists; eexists; eexists. simpl. reflexivity.
Qed.

Lemma C5_changes_in_document_order_witness :
  exists c1 c2 c3,
    option_map snd
      (_convert_variant (U := ascii_db) (py "gray tire, gray curb") (py "uk"))
    = Some (c1 ++ spelling (py "tire") (py "tyre")
               :: c2 ++ spelling (py "curb") (py "kerb") :: c3).
Proof.
  destruct (proj1 (C5_changes_in_document_order (U := ascii_db))
              (py "gray tire, gray curb") (py "uk")) as (out & changes & E & H).
  destruct (H {| m_start := 5; m_end := 9; group := py "tire" |}
              {| m_start := 16; m_end := 20; group := py "curb" |}
              (spelling (py "tire") (py "tyre"))
              (spelling (py "curb") (py "kerb"))
              [py "tyre"] [py "kerb"]) as (c1 & c2 & c3 & ->).
  - vm_compute. tauto.
  - vm_compute. tauto.
  - simpl. lia.
  - vm_compute. reflexivity.
  - vm_compute. reflexivity.
  - exists c1, c2, c3. rewrite E. reflexivity.
Defined.

(** ** Totality and the choice of the direction *)

(** C6: the conversion never raises.  For every text and every variant
    [_convert_variant] returns a result; every token is non-empty and every
    word of the source set has a non-empty entry in the mapping, so that
    neither [mapping[lower]] nor the indexing in [_match_case] can fail;
    and the empty text gives the empty text and no change. *)
Theorem C6_convert_total {U : UnicodeDB} (text variant : str) :
  (exists out changes, _convert_variant text variant = Some (out, changes))
  /\ (forall m, In m (finditer _TOKEN_RE text) ->
        group m <> [] /\
        forall lower, mem lower (snd (select variant)) = true ->
          exists r r', dict_get (fst (select variant)) lower = Some r /\
                       _match_case (group m) r = Some r')
  /\ _convert_variant [] variant = Some ([], []).
Proof.
  split; [|split].
  - eexists; eexists. apply convert_variant_spec.
  - intros m Hm. pose proof (tokens_nonempty text) as F.
    rewrite Forall_forall in F. specialize (F m Hm). split; [exact F|].
    intros lw Hl.
    destruct (table_ok_get _ _ _ (select_ok variant) Hl) as (c & r & E).
    destruct (@match_case_some U (group m) (c :: r) F) as (r' & E');
      [discriminate|].
    exists (c :: r), r'. split; assumption.
  - unfold _convert_variant, convert_parts.
    destruct (select variant). reflexivity.
Qed.

Lemma C6_convert_total_witness :
  exists r r',
    dict_get (fst (select (py "uk"))) (py "color") = Some r
    /\ _match_case (U := ascii_db) (py "Color") r = Some r'.
Proof.
  destruct (C6_convert_total (U := ascii_db) (py "The Color") (py "uk"))
    as (_ & H & _).
  destruct (H {| m_start := 4; m_end := 9; group := py "Color" |}) as [_ H2].
  - vm_compute. tauto.
  - apply (H2 (py "color")). vm_compute. reflexivity.
Defined.

(** C10: every variant other than "uk" selects the tables of the
    direction UK to US, and the conversion then returns what it returns for
    "us". *)
Theorem C10_default_direction {U : UnicodeDB} (text variant : str) :
  variant <> py "uk" ->
  select variant = (_UK_TO_US, _UK_WORDS)
  /\ select variant = select (py "us")
  /\ _convert_variant text variant = _convert_variant text (py "us")
  /\ exists out changes, _convert_variant text variant = Some (out, changes).
Proof.
  intros H. apply str_eqb_neq in H.
  assert (E : select variant = (_UK_TO_US, _UK_WORDS)).
  { unfold select. rewrite H. reflexivity. }
  assert (E' : select variant = select (py "us")).
  { rewrite E. reflexivity. }
  repeat split; try assumption.
  - unfold _convert_variant, convert_parts. rewrite E'. reflexivity.
  - eexists; eexists. apply convert_variant_spec.
Qed.

Lemma C10_default_direction_witness :
  _convert_variant (U := ascii_db) (py "The Colour of grey") (py "fr")
  = Some (py "The Color of gray",
          [spelling (py "Colour") (py "Color");
           spelling (py "grey") (py "gray")]).
Proof.
  assert (H : py "fr" <> py "uk") by (vm_compute; discriminate).
  destruct (C10_default_direction (U := ascii_db) (py "The Colour of grey")
              (py "fr") H) as (_ & _ & E & _).
  rewrite E. vm_compute. reflexivity.
Defined.

Lemma one_change_eq (res : option (str * list Change)) (out o r : str) :
  one_change res out o r = true -> res = Some (out, [spelling o r]).
Proof.
  destruct res as [[text [|[ty og rp] [|c2 cs]]]|]; simpl; try discriminate.
  intros H. repeat (apply andb_true_iff in H; destruct H as [H ?]).
  repeat match goal with
    | X : str_eqb _ _ = true |- _ => apply str_eqb_eq in X
    end.
  subst. reflexivity.
Qed.

(** C9: a word of the forward table whose forward image is another word
    comes back.  Looking it up in the mapping chosen for "uk" and the
    result in the mapping chosen for "us" returns the word; and so do the
    conversions: the word converted to "uk" is its image, with that one
    change, and the image converted to "us" is the word. *)
Theorem C9_round_trip {U : UnicodeDB} (w v : str) :
  dict_get (fst (select (py "uk"))) w = Some v ->
  v <> w ->
  dict_get (fst (select (py "us"))) v = Some w
  /\ _convert_variant w (py "uk") = Some (v, [spelling w v])
  /\ _convert_variant v (py "us") = Some (w, [spelling v w]).
Proof.
  intros G Hvw. change (fst (select (py "uk"))) with _US_TO_UK in G.
  change (fst (select (py "us"))) with _UK_TO_US.
  pose proof G as G'.
  apply (table_forall _
    (fun kv => opt_eqb (dict_get _UK_TO_US (snd kv)) (Some (fst kv)))) in G;
    [|vm_compute; reflexivity].
  apply opt_eqb_eq in G. split; [exact G|].
  apply (table_forall _
    (fun kv => str_eqb (snd kv) (fst kv)
               || (one_change (_convert_variant (fst kv) (py "uk"))
                     (snd kv) (fst kv) (snd kv)
                   && one_change (_convert_variant (snd kv) (py "us"))
                        (fst kv) (snd kv) (fst kv)))) in G';
    [|vm_compute; reflexivity].
  cbn [fst snd] in G'. apply str_eqb_neq in Hvw. rewrite Hvw in G'.
  apply andb_true_iff in G'. destruct G' as [G1 G2].
  split; apply one_change_eq; assumption.
Qed.

Lemma C9_round_trip_witness :
  dict_get (fst (select (py "us"))) (py "theatre") = Some (py "theater")
  /\ _convert_variant (U := ascii_db) (py "theatre") (py "us")
     = Some (py "theater", [spelling (py "theatre") (py "theater")]).
Proof.
  destruct (C9_round_trip (U := ascii_db) (py "theater") (py "theatre"))
    as (H1 & _ & H3).
  - vm_compute. reflexivity.
  - vm_compute. discriminate.
  - split; assumption.
Defined.

(** * The converter on its own output

    The converter replaces whole words by words and leaves every other
    character where it is.  That a second run changes nothing rests on
    the spans of [_URL_RE]: a token that was protected in the text must be
    protected in the output.  The alternatives of [_URL_RE] are first
    given in closed form; the text and the output are then cut into
    corresponding pieces, searches on both are shown to have corresponding
    outcomes, and the scan is followed on both sides. *)

(** ** The three alternatives of [_URL_RE] *)

Lemma option_map_add0 (x : option nat) : option_map (Nat.add 0) x = x.
Proof. destruct x; reflexivity. Qed.

Lemma option_map_add_S (n : nat) (x : option nat) :
  option_map S (option_map (Nat.add n) x) = option_map (Nat.add (S n)) x.
Proof. destruct x; reflexivity. Qed.

Lemma option_map_add_add (n m : nat) (x : option nat) :
  option_map (Nat.add n) (option_map (Nat.add m) x)
  = option_map (Nat.add (n + m)) x.
Proof. destruct x; simpl; [f_equal; lia | reflexivity]. Qed.

Lemma strip_app (p q s : str) :
  strip (p ++ q) s =
  match strip p s with
  | Some r => strip q r
  | None => None
  end.
Proof.
  revert s; induction p as [|a p IH]; intros s; simpl.
  - destruct q, s; reflexivity.
  - destruct s as [|c s]; [reflexivity|]. destruct (N.eqb c a); auto.
Qed.

Lemma strip_Some (p s r : str) : strip p s = Some r -> s = p ++ r.
Proof.
  revert s; induction p as [|a p IH]; intros s; simpl.
  - destruct s; intros [= <-]; reflexivity.
  - destruct s as [|c s]; [discriminate|].
    destruct (N.eqb_spec c a); [|discriminate].
    intros H. apply IH in H. subst. reflexivity.
Qed.

Lemma strip_prefix (p r : str) : strip p (p ++ r) = Some r.
Proof.
  induction p as [|a p IH]; simpl.
  - destruct r; reflexivity.
  - rewrite N.eqb_refl. exact IH.
Qed.

Lemma strip_cons (a : cp) (p : str) (c : cp) (s : str) :
  strip (a :: p) (c :: s) = if N.eqb c a then strip p s else None.
Proof. reflexivity. Qed.

Lemma rmatch_lit (l : list ascii) (s : str) (k : str -> option nat) :
  rmatch (lit_of l) s k =
  match strip (map N_of_ascii l) s with
  | Some r => option_map (Nat.add (length l)) (k r)
  | None => None
  end.
Proof.
  revert s; induction l as [|a l IH]; intros s.
  - simpl. destruct s; rewrite option_map_add0; reflexivity.
  - destruct l as [|b l].
    + simpl. destruct s as [|c s]; [reflexivity|]. unfold chr.
      destruct (N.eqb c (N_of_ascii a)); [|reflexivity].
      destruct s; reflexivity.
    + change (lit_of (a :: b :: l)) with (Seq (Chr (chr a)) (lit_of (b :: l))).
      cbn [rmatch]. destruct s as [|c s]; [reflexivity|].
      change (map N_of_ascii (a :: b :: l))
        with (N_of_ascii a :: map N_of_ascii (b :: l)).
      rewrite strip_cons. unfold chr at 1.
      destruct (N.eqb c (N_of_ascii a)); [|reflexivity].
      rewrite IH.
      destruct (strip (map N_of_ascii (b :: l)) s); [|reflexivity].
      apply option_map_add_S.
Qed.

(** When nothing that starts with a character of the class can follow,
    the repetition can only stop at the end of the run. *)
Lemma rep_cut (p : cp -> bool) (k : str -> option nat) :
  (forall c s, p c = true -> k (c :: s) = None) ->
  forall s min,
    rep p min s k =
    if min <=? run p s
    then option_map (Nat.add (run p s)) (k (skipn (run p s) s))
    else None.
Proof.
  intros Hk. induction s as [|c s IH]; intros min.
  - simpl. destruct min; [rewrite option_map_add0|]; reflexivity.
  - cbn [rep run]. destruct (p c) eqn:Hc.
    + rewrite IH, (Hk c s Hc). cbn [skipn].
      destruct min as [|min]; cbn [pred Nat.leb].
      * destruct (k (skipn (run p s) s)); reflexivity.
      * destruct (min <=? run p s); [|reflexivity].
        destruct (k (skipn (run p s) s)); reflexivity.
    + destruct min; [rewrite option_map_add0|]; reflexivity.
Qed.

(** A repetition goes through a word when nothing that starts with a
    letter can follow. *)
Lemma rep_word (p : cp -> bool) (k : str -> option nat) :
  (forall c s, az_letter c = true -> k (c :: s) = None) ->
  forall w r min,
    forallb az_letter w = true -> forallb p w = true ->
    rep p min (w ++ r) k =
    option_map (Nat.add (length w)) (rep p (min - length w) r k).
Proof.
  intros Hk. induction w as [|c w IH]; intros r min Hl Hp.
  - simpl. rewrite Nat.sub_0_r, option_map_add0. reflexivity.
  - simpl in Hl, Hp. apply andb_true_iff in Hl, Hp.
    destruct Hl as [Hc Hl], Hp as [Hpc Hp].
    cbn [app rep length]. rewrite Hpc, (IH r (pred min) Hl Hp).
    rewrite (Hk c (w ++ r) Hc).
    replace (pred min - length w) with (min - S (length w)) by lia.
    destruct (rep p (min - S (length w)) r k); simpl.
    + reflexivity.
    + destruct min; reflexivity.
Qed.

Lemma after_scheme_spec (x : str) :
  rmatch (Seq (lit "://") (Rep not_space 1)) x k0 =
  match strip (py "://") x with
  | Some y => rest_of_url 3 y
  | None => None
  end.
Proof. unfold lit. cbn [rmatch]. rewrite rmatch_lit. reflexivity. Qed.

Lemma http_url_spec (s : str) :
  rmatch http_url s k0 =
  match strip (py "https://") s with
  | Some r => rest_of_url 8 r
  | None =>
      match strip (py "http://") s with
      | Some r => rest_of_url 7 r
      | None => None
      end
  end.
Proof.
  change (py "https://") with (py "http" ++ py "s://").
  change (py "http://") with (py "http" ++ py "://").
  rewrite !strip_app.
  unfold http_url. unfold lit at 1. cbn [rmatch]. rewrite rmatch_lit.
  change (map N_of_ascii (list_ascii_of_string "http")) with (py "http").
  destruct (strip (py "http") s) as [r|]; [|reflexivity].
  change (fun s1 : str => rmatch (lit "://") s1
            (fun s2 : str => rep not_space 1 s2 k0))
    with (fun s1 : str => rmatch (Seq (lit "://") (Rep not_space 1)) s1 k0).
  change (rmatch (lit "://") r (fun s2 : str => rep not_space 1 s2 k0))
    with (rmatch (Seq (lit "://") (Rep not_space 1)) r k0).
  rewrite !after_scheme_spec.
  change (py "s://") with (N_of_ascii "s" :: py "://").
  destruct r as [|c r]; [reflexivity|]. rewrite strip_cons. unfold chr.
  change (rmatch (lit "://") r (fun s2 : str => rep not_space 1 s2 k0))
    with (rmatch (Seq (lit "://") (Rep not_space 1)) r k0).
  destruct (N.eqb_spec c (N_of_ascii "s")) as [-> | Hc].
  - change (strip (py "://") (N_of_ascii "s" :: r)) with (@None str).
    rewrite after_scheme_spec.
    destruct (strip (py "://") r) as [y|]; [|reflexivity].
    unfold rest_of_url. destruct (rep not_space 1 y k0); reflexivity.
  - destruct (strip (py "://") (c :: r)) as [y|]; [|reflexivity].
    unfold rest_of_url. destruct (rep not_space 1 y k0); reflexivity.
Qed.

Lemma www_host_spec (s : str) :
  rmatch www_host s k0 =
  match strip (py "www.") s with
  | Some r => rest_of_url 4 r
  | None => None
  end.
Proof.
  unfold www_host, lit, rest_of_url. cbn [rmatch]. rewrite rmatch_lit.
  reflexivity.
Qed.

Lemma after_local_cut (c : cp) (s : str) :
  local_part c = true -> after_local (c :: s) = None.
Proof.
  intros H. unfold after_local, chr.
  destruct (N.eqb_spec c (N_of_ascii "@")) as [-> | _]; [|reflexivity].
  vm_compute in H. discriminate.
Qed.

Lemma email_spec (s : str) :
  rmatch email s k0 =
  if 1 <=? run local_part s
  then option_map (Nat.add (run local_part s))
         (after_local (skipn (run local_part s) s))
  else None.
Proof.
  unfold email. cbn [rmatch]. apply (rep_cut local_part after_local).
  exact after_local_cut.
Qed.

Lemma match_at_URL (s : str) :
  match_at _URL_RE s =
  match rmatch http_url s k0 with
  | Some n => Some n
  | None =>
      match rmatch www_host s k0 with
      | Some n => Some n
      | None => rmatch email s k0
      end
  end.
Proof. reflexivity. Qed.

Lemma URL_RE_nonempty (s : str) (n : nat) :
  match_at _URL_RE s = Some n -> 0 < n.
Proof.
  rewrite match_at_URL, http_url_spec, www_host_spec, email_spec.
  unfold rest_of_url.
  repeat match goal with
    | |- context [match strip ?p s with _ => _ end] => destruct (strip p s)
    | |- context [rep ?p ?m ?x k0] => destruct (rep p m x k0)
    end; cbn [option_map]; try (intros [= <-]; lia);
    destruct (Nat.leb_spec 1 (run local_part s)); try discriminate;
    destruct (after_local (skipn (run local_part s) s)); cbn [option_map];
    try discriminate; intros [= <-]; lia.
Qed.

(** ** Corresponding texts *)

Lemma az_letter_bounds (c : cp) :
  az_letter c = true -> (65 <= c /\ c <= 122)%N.
Proof. cp_cases. Qed.

Lemma letter_not_space (c : cp) : az_letter c = true -> not_space c = true.
Proof.
  intros H. apply az_letter_bounds in H.
  unfold not_space, is_space, between.
  repeat match goal with
    | |- context [N.leb ?a ?b] => destruct (N.leb_spec a b); try lia
    | |- context [N.eqb ?a ?b] => destruct (N.eqb_spec a b); try lia
    end; reflexivity.
Qed.

Lemma letter_local (c : cp) : az_letter c = true -> local_part c = true.
Proof. intros H. unfold local_part. rewrite H. reflexivity. Qed.

Lemma letter_domain (c : cp) : az_letter c = true -> domain_part c = true.
Proof. intros H. unfold domain_part. rewrite H. reflexivity. Qed.

Lemma lhs_app (L1 L2 : list (str * str)) : lhs (L1 ++ L2) = lhs L1 ++ lhs L2.
Proof. unfold lhs. rewrite map_app, concat_app. reflexivity. Qed.

Lemma rhs_app (L1 L2 : list (str * str)) : rhs (L1 ++ L2) = rhs L1 ++ rhs L2.
Proof. unfold rhs. rewrite map_app, concat_app. reflexivity. Qed.

Lemma letters_kind (w : str) : w <> [] -> letters w -> kind w = true.
Proof.
  destruct w as [|c w]; [contradiction|]. unfold letters. simpl.
  intros _ H. apply andb_true_iff in H. tauto.
Qed.

Lemma letters_class (p : cp -> bool) (w : str) :
  (forall c, az_letter c = true -> p c = true) ->
  letters w -> forallb p w = true.
Proof.
  intros Hp H. unfold letters in H. rewrite forallb_forall in *.
  intros c Hc. apply Hp, H, Hc.
Qed.

Lemma lhs_other_first (L : list (str * str)) :
  pieces L -> starts_other L -> other_first (lhs L).
Proof.
  intros [|c L' Hc _|w w' L' (Hw & _ & Hl & _) _ _] H; simpl in *.
  - exact I.
  - exact Hc.
  - rewrite (letters_kind w Hw Hl) in H. discriminate.
Qed.

Lemma rhs_other_first (L : list (str * str)) :
  pieces L -> starts_other L -> other_first (rhs L).
Proof.
  intros [|c L' Hc _|w w' L' (Hw & _ & Hl & _) _ _] H; simpl in *.
  - exact I.
  - exact Hc.
  - rewrite (letters_kind w Hw Hl) in H. discriminate.
Qed.

Lemma run_other_first (x : str) : other_first x -> run az_letter x = 0.
Proof. destruct x as [|c x]; simpl; [reflexivity | intros ->; reflexivity]. Qed.

Lemma pieces_nonempty (L : list (str * str)) :
  pieces L -> Forall (fun tq => fst tq <> [] /\ snd tq <> []) L.
Proof.
  induction 1 as [|c L Hc _ IH|w w' L (Hw & Hw' & _) _ _ IH]; constructor;
    simpl; auto; split; discriminate.
Qed.

Lemma pieces_app_r (L1 L2 : list (str * str)) : pieces (L1 ++ L2) -> pieces L2.
Proof.
  induction L1 as [|x L1 IH]; simpl; [auto|].
  intros H; inversion H; subst; auto.
Qed.

Lemma lhs_nil_inv (L : list (str * str)) :
  Forall (fun tq => fst tq <> [] /\ snd tq <> []) L -> lhs L = [] -> L = [].
Proof.
  intros [|[t q] L' [Ht _] _]; [reflexivity|]. simpl in *.
  unfold lhs. simpl. destruct t; [contradiction | discriminate].
Qed.

Lemma rhs_nil_inv (L : list (str * str)) :
  Forall (fun tq => fst tq <> [] /\ snd tq <> []) L -> rhs L = [] -> L = [].
Proof.
  intros [|[t q] L' [_ Hq] _]; [reflexivity|]. simpl in *.
  unfold rhs. simpl. destruct q; [contradiction | discriminate].
Qed.

Lemma Forall_app_l {A} (P : A -> Prop) (l1 l2 : list A) :
  Forall P (l1 ++ l2) -> Forall P l1.
Proof. rewrite Forall_app. tauto. Qed.

(** The run of a class that has every letter covers whole pieces, the
    same ones on both sides. *)
Lemma run_pieces (p : cp -> bool) (L : list (str * str)) :
  (forall c, az_letter c = true -> p c = true) ->
  pieces L ->
  exists L1 L2, L = L1 ++ L2
    /\ run p (lhs L) = length (lhs L1) /\ run p (rhs L) = length (rhs L1).
Proof.
  intros Hp. induction 1 as [|c L Hc HL IH|w w' L HW HS HL IH].
  - exists [], []. repeat split.
  - destruct IH as (L1 & L2 & -> & E1 & E2).
    change (lhs (([c], [c]) :: L1 ++ L2)) with (c :: lhs (L1 ++ L2)).
    change (rhs (([c], [c]) :: L1 ++ L2)) with (c :: rhs (L1 ++ L2)).
    cbn [run]. destruct (p c).
    + exists (([c], [c]) :: L1), L2. repeat split.
      * change (lhs (([c], [c]) :: L1)) with (c :: lhs L1). simpl. congruence.
      * change (rhs (([c], [c]) :: L1)) with (c :: rhs L1). simpl. congruence.
    + exists [], (([c], [c]) :: L1 ++ L2). repeat split.
  - destruct IH as (L1 & L2 & -> & E1 & E2).
    destruct HW as (_ & _ & Hl & Hl' & _).
    exists ((w, w') :: L1), L2. split; [reflexivity|].
    change (lhs ((w, w') :: L1 ++ L2)) with (w ++ lhs (L1 ++ L2)).
    change (rhs ((w, w') :: L1 ++ L2)) with (w' ++ rhs (L1 ++ L2)).
    change (lhs ((w, w') :: L1)) with (w ++ lhs L1).
    change (rhs ((w, w') :: L1)) with (w' ++ rhs L1).
    rewrite !run_app_all by (apply letters_class; assumption).
    rewrite !length_app. split; congruence.
Qed.

(** A literal without letters is found on both sides or on neither. *)
Lemma strip_others (B : str) :
  forallb not_letter B = true ->
  forall L, pieces L ->
    (strip B (lhs L) = None /\ strip B (rhs L) = None) \/
    exists L1 L2, L = L1 ++ L2 /\ lhs L1 = B /\ rhs L1 = B
      /\ strip B (lhs L) = Some (lhs L2) /\ strip B (rhs L) = Some (rhs L2).
Proof.
  induction B as [|b B IH]; intros HB L HL.
  - right. exists [], L. repeat split; destruct (lhs L), (rhs L); reflexivity.
  - simpl in HB. apply andb_true_iff in HB. destruct HB as [Hb HB].
    destruct HL as [|c L Hc HL|w w' L (Hw & Hw' & Hl & Hl' & _) _ _].
    + left. split; reflexivity.
    + change (lhs (([c], [c]) :: L)) with (c :: lhs L).
      change (rhs (([c], [c]) :: L)) with (c :: rhs L).
      rewrite !strip_cons. destruct (N.eqb_spec c b) as [-> | _].
      * destruct (IH HB L HL) as [H | (L1 & L2 & -> & E1 & E2 & S1 & S2)];
          [left; exact H|].
        right. exists (([b], [b]) :: L1), L2. repeat split; try assumption.
        -- change (lhs (([b], [b]) :: L1)) with (b :: lhs L1). congruence.
        -- change (rhs (([b], [b]) :: L1)) with (b :: rhs L1). congruence.
      * left. split; reflexivity.
    + left. destruct w as [|x w]; [contradiction|].
      destruct w' as [|x' w']; [contradiction|].
      unfold letters in Hl, Hl'. simpl in Hl, Hl'.
      apply andb_true_iff in Hl, Hl'. destruct Hl as [Hx _], Hl' as [Hx' _].
      change (lhs ((x :: w, x' :: w') :: L)) with (x :: (w ++ lhs L)).
      change (rhs ((x :: w, x' :: w') :: L)) with (x' :: (w' ++ rhs L)).
      rewrite !strip_cons. unfold not_letter in Hb.
      destruct (N.eqb_spec x b) as [-> | _];
        [rewrite Hx in Hb; discriminate|].
      destruct (N.eqb_spec x' b) as [-> | _];
        [rewrite Hx' in Hb; discriminate|].
      split; reflexivity.
Qed.

(** A word followed by a character that is no letter is found at the
    start of a text only when the text starts with that very word. *)
Lemma word_prefix (A : str) (d : cp) (B : str) :
  letters A -> az_letter d = false ->
  forall a x r, letters a -> other_first x ->
    strip (A ++ d :: B) (a ++ x) = Some r -> a = A.
Proof.
  induction A as [|h A IH]; intros HA Hd a x r Ha Hx.
  - destruct a as [|c a]; [reflexivity|]. cbn [app]. rewrite strip_cons.
    unfold letters in Ha. simpl in Ha. apply andb_true_iff in Ha.
    destruct (N.eqb_spec c d) as [-> | _]; [|discriminate].
    destruct Ha as [Ha _]. rewrite Ha in Hd. discriminate.
  - unfold letters in HA. simpl in HA. apply andb_true_iff in HA.
    destruct HA as [Hh HA]. destruct a as [|c a].
    + cbn [app]. destruct x as [|c x]; [discriminate|]. rewrite strip_cons.
      simpl in Hx. destruct (N.eqb_spec c h) as [-> | _]; [|discriminate].
      rewrite Hh in Hx. discriminate.
    + cbn [app]. rewrite strip_cons.
      unfold letters in Ha. simpl in Ha. apply andb_true_iff in Ha.
      destruct Ha as [_ Ha].
      destruct (N.eqb_spec c h) as [-> | _]; [|discriminate].
      intros H. f_equal. exact (IH HA Hd a x r Ha Hx H).
Qed.

Lemma ends_with_skipn (suf y : str) (k : nat) :
  ends_with (skipn k y) suf = true -> ends_with y suf = true.
Proof.
  revert y; induction k as [|k IH]; intros y; [auto|].
  destruct y as [|c y]; [auto|]. cbn [skipn]. intros H. apply IH in H.
  cbn [ends_with]. rewrite H. apply orb_true_r.
Qed.

Lemma tail_safe_skipn (x : str) (k : nat) : tail_safe x -> tail_safe (skipn k x).
Proof.
  unfold tail_safe, unsafe_tail. rewrite <- skipn_map. intros H.
  apply orb_false_iff in H. destruct H as [H H3].
  apply orb_false_iff in H. destruct H as [H1 H2].
  repeat (apply orb_false_iff; split);
    match goal with
    | |- ends_with (skipn k ?y) ?suf = false =>
        destruct (ends_with (skipn k y) suf) eqn:E; [|reflexivity];
        apply ends_with_skipn in E; congruence
    end.
Qed.

Lemma hrel_nil_iff (a a' : str) : hrel a a' -> (a = [] <-> a' = []).
Proof.
  intros (_ & _ & [-> | (H & H' & _)]); [tauto|]. split; intros; contradiction.
Qed.

Lemma word_pair_hrel (w w' : str) : word_pair w w' -> hrel w w'.
Proof.
  intros (Hw & Hw' & Hl & Hl' & [-> | (S1 & S2 & _)]);
    repeat split; auto.
Qed.

Lemma length_pos_iff (a a' : str) (L1 : list (str * str)) :
  hrel a a' -> Forall (fun tq => fst tq <> [] /\ snd tq <> []) L1 ->
  (1 <=? length a + length (lhs L1)) = (1 <=? length a' + length (rhs L1)).
Proof.
  intros H F. apply hrel_nil_iff in H.
  destruct a as [|c a], a' as [|c' a']; try reflexivity.
  - destruct F as [|[t q] L1 [Ht Hq] _]; [reflexivity|]. simpl in Ht, Hq.
    unfold lhs, rhs. simpl. destruct t, q; try contradiction. reflexivity.
  - destruct H as [H _]. discriminate (H eq_refl).
  - destruct H as [_ H]. discriminate (H eq_refl).
Qed.

Lemma skipn_app_length {A} (x y : list A) (n : nat) :
  skipn (length x + n) (x ++ y) = skipn n y.
Proof. induction x as [|c x IH]; simpl; auto. Qed.

Lemma skipn_lhs (L1 L2 : list (str * str)) :
  skipn (length (lhs L1)) (lhs (L1 ++ L2)) = lhs L2.
Proof.
  rewrite lhs_app. rewrite <- (Nat.add_0_r (length (lhs L1))).
  apply skipn_app_length.
Qed.

Lemma skipn_rhs (L1 L2 : list (str * str)) :
  skipn (length (rhs L1)) (rhs (L1 ++ L2)) = rhs L2.
Proof.
  rewrite rhs_app. rewrite <- (Nat.add_0_r (length (rhs L1))).
  apply skipn_app_length.
Qed.

Section Prefix.
Variables (A B : str).
Hypothesis HA : letters A.
Hypothesis HA' : ~ tail_safe A.
Hypothesis HB : forallb not_letter B = true.
Hypothesis HBne : B <> [].

(** The literal [A ++ B], a word of [unsafe_tail] and then characters
    that are no letters, is at the start of both texts or of neither. *)
Lemma strip_sim (a a' : str) (L : list (str * str)) :
  hrel a a' -> pieces L -> starts_other L ->
  (strip (A ++ B) (a ++ lhs L) = None /\ strip (A ++ B) (a' ++ rhs L) = None)
  \/ (a = A /\ a' = A /\
      exists L1 L2, L = L1 ++ L2 /\ lhs L1 = B /\ rhs L1 = B
        /\ strip (A ++ B) (a ++ lhs L) = Some (lhs L2)
        /\ strip (A ++ B) (a' ++ rhs L) = Some (rhs L2)).
Proof.
  intros Ha HL HS.
  destruct B as [|d B'] eqn:EB; [contradiction|]. rewrite <- EB in *.
  assert (Hd : az_letter d = false).
  { rewrite EB in HB. simpl in HB. apply andb_true_iff in HB.
    unfold not_letter in HB. destruct HB as [Hd _].
    destruct (az_letter d); [discriminate | reflexivity]. }
  destruct Ha as (Hla & Hla' & Hrel).
  assert (K1 : forall r, strip (A ++ B) (a ++ lhs L) = Some r -> a = A).
  { intros r. rewrite EB.
    apply (word_prefix A d B' HA Hd a (lhs L) r Hla).
    apply lhs_other_first; assumption. }
  assert (K2 : forall r, strip (A ++ B) (a' ++ rhs L) = Some r -> a' = A).
  { intros r. rewrite EB.
    apply (word_prefix A d B' HA Hd a' (rhs L) r Hla').
    apply rhs_other_first; assumption. }
  assert (K : a = A \/ a' = A -> a = A /\ a' = A).
  { destruct Hrel as [-> | (_ & _ & S1 & S2)]; [tauto|].
    intros [-> | ->]; contradiction. }
  assert (G : a = A /\ a' = A ->
              strip (A ++ B) (a ++ lhs L) = strip B (lhs L) /\
              strip (A ++ B) (a' ++ rhs L) = strip B (rhs L)).
  { intros [-> ->]. rewrite !strip_app, !strip_prefix. split; reflexivity. }
  destruct (strip (A ++ B) (a ++ lhs L)) as [r|] eqn:E1.
  - pose proof (K (or_introl (K1 r eq_refl))) as EA.
    destruct (G EA) as [G1 G2]. rewrite G2.
    destruct (strip_others B HB L HL)
      as [[N1 _] | (L1 & L2 & EL & E3 & E4 & S1 & S2)]; [congruence|].
    right. split; [tauto|]. split; [tauto|].
    exists L1, L2. repeat split; congruence.
  - destruct (strip (A ++ B) (a' ++ rhs L)) as [r|] eqn:E2;
      [|left; split; reflexivity].
    pose proof (K (or_intror (K2 r eq_refl))) as EA.
    destruct (G EA) as [G1 G2].
    destruct (strip_others B HB L HL)
      as [[_ N2] | (L1 & L2 & EL & E3 & E4 & S1 & S2)]; congruence.
Qed.

(** The rest of a URL then takes the same pieces on both sides. *)
Lemma url_tail_sim (a a' : str) (L : list (str * str)) :
  hrel a a' -> pieces L -> starts_other L ->
  mcorr a a' L
    match strip (A ++ B) (a ++ lhs L) with
    | Some r => rest_of_url (length (A ++ B)) r
    | None => None
    end
    match strip (A ++ B) (a' ++ rhs L) with
    | Some r => rest_of_url (length (A ++ B)) r
    | None => None
    end.
Proof.
  intros Ha HL HS.
  destruct (strip_sim a a' L Ha HL HS)
    as [[-> ->] | (Ea & Ea' & L1 & L2 & EL & E1 & E2 & -> & ->)];
    [left; split; reflexivity|].
  unfold rest_of_url. rewrite !rep_k0.
  assert (HL2 : pieces L2) by (rewrite EL in HL; exact (pieces_app_r _ _ HL)).
  destruct (run_pieces not_space L2 letter_not_space HL2)
    as (L3 & L4 & EL2 & -> & ->).
  pose proof (pieces_nonempty _ HL) as F. rewrite EL, EL2 in F.
  apply Forall_app in F. destruct F as [_ F]. apply Forall_app_l in F.
  pose proof (length_pos_iff [] [] L3) as P. cbn [length Nat.add] in P.
  rewrite <- P; [|repeat split; auto | exact F].
  destruct (1 <=? length (lhs L3)); [|left; split; reflexivity].
  right. exists (L1 ++ L3), L4. split; [|split; [|split]].
  - rewrite EL, EL2. apply app_assoc.
  - destruct L1; [|discriminate]. unfold lhs in E1. simpl in E1. congruence.
  - cbn [option_map]. rewrite lhs_app, !length_app, E1, Ea. f_equal. lia.
  - cbn [option_map]. rewrite rhs_app, !length_app, E2, Ea'. f_equal. lia.
Qed.
End Prefix.

Lemma not_tail_safe_http : ~ tail_safe (py "http").
Proof. unfold tail_safe. vm_compute. discriminate. Qed.

Lemma not_tail_safe_https : ~ tail_safe (py "https").
Proof. unfold tail_safe. vm_compute. discriminate. Qed.

Lemma not_tail_safe_www : ~ tail_safe (py "www").
Proof. unfold tail_safe. vm_compute. discriminate. Qed.

Section Alternatives.
Variables (a a' : str) (L : list (str * str)).
Hypothesis Ha : hrel a a'.
Hypothesis HL : pieces L.
Hypothesis HS : starts_other L.

Lemma http_url_sim :
  mcorr a a' L (rmatch http_url (a ++ lhs L) k0)
    (rmatch http_url (a' ++ rhs L) k0).
Proof.
  rewrite !http_url_spec.
  change (py "https://") with (py "https" ++ py "://").
  change (py "http://") with (py "http" ++ py "://").
  pose proof (url_tail_sim (py "https") (py "://") eq_refl not_tail_safe_https
                eq_refl ltac:(discriminate) a a' L Ha HL HS) as T8.
  pose proof (url_tail_sim (py "http") (py "://") eq_refl not_tail_safe_http
                eq_refl ltac:(discriminate) a a' L Ha HL HS) as T7.
  destruct (strip_sim (py "https") (py "://") eq_refl not_tail_safe_https
              eq_refl ltac:(discriminate) a a' L Ha HL HS)
    as [[E1 E2] | (_ & _ & L1 & L2 & _ & _ & _ & S1 & S2)].
  - rewrite E1, E2. exact T7.
  - rewrite S1, S2 in T8 |- *. exact T8.
Qed.

Lemma www_host_sim :
  mcorr a a' L (rmatch www_host (a ++ lhs L) k0)
    (rmatch www_host (a' ++ rhs L) k0).
Proof.
  rewrite !www_host_spec.
  change (py "www.") with (py "www" ++ py ".").
  exact (url_tail_sim (py "www") (py ".") eq_refl not_tail_safe_www
           eq_refl ltac:(discriminate) a a' L Ha HL HS).
Qed.
End Alternatives.

(** *** The address *)

Lemma letter_not_dot (c : cp) : az_letter c = true -> chr "." c = false.
Proof.
  intros H. apply az_letter_bounds in H. unfold chr.
  destruct (N.eqb_spec c (N_of_ascii ".")) as [-> | _]; [|reflexivity].
  vm_compute in H. destruct H as [H _]. exfalso. apply H. reflexivity.
Qed.

Lemma letter_not_at (c : cp) : az_letter c = true -> chr "@" c = false.
Proof.
  intros H. apply az_letter_bounds in H. unfold chr.
  destruct (N.eqb_spec c (N_of_ascii "@")) as [-> | _]; [|reflexivity].
  vm_compute in H. destruct H as [H _]. exfalso. apply H. reflexivity.
Qed.

Lemma after_domain_letter (c : cp) (s : str) :
  az_letter c = true -> after_domain (c :: s) = None.
Proof. intros H. unfold after_domain. rewrite (letter_not_dot c H). reflexivity. Qed.

Lemma lhs_cons (t q : str) (L : list (str * str)) :
  lhs ((t, q) :: L) = t ++ lhs L.
Proof. reflexivity. Qed.

Lemma rhs_cons (t q : str) (L : list (str * str)) :
  rhs ((t, q) :: L) = q ++ rhs L.
Proof. reflexivity. Qed.

Lemma word_first (w : str) (x : str) :
  w <> [] -> letters w ->
  exists c r, w ++ x = c :: r /\ az_letter c = true.
Proof.
  destruct w as [|c w]; [contradiction|]. intros _ H.
  unfold letters in H. simpl in H. apply andb_true_iff in H.
  exists c, (w ++ x). split; [reflexivity | tauto].
Qed.

Lemma word_pair_length2 (w w' : str) :
  word_pair w w' -> (2 <=? length w) = (2 <=? length w').
Proof.
  intros (_ & _ & _ & _ & [-> | (_ & _ & H & H')]); [reflexivity|].
  apply Nat.leb_le in H, H'. congruence.
Qed.

(** The last label of the domain, [\.[a-zA-Z]{2,}]. *)
Lemma after_domain_sim (L : list (str * str)) :
  pieces L -> corr L (after_domain (lhs L)) (after_domain (rhs L)).
Proof.
  intros [|c L1 Hc H1|w w' L1 (Hw & Hw' & Hl & Hl' & HP) HS1 H1].
  - left. split; reflexivity.
  - rewrite lhs_cons, rhs_cons. cbn [app after_domain].
    destruct (chr "." c); [|left; split; reflexivity].
    rewrite !rep_k0.
    destruct H1 as [|c2 L2 Hc2 H2|v v' L2 HV HS2 H2].
    + left. split; reflexivity.
    + rewrite lhs_cons, rhs_cons. cbn [app run]. rewrite Hc2.
      left. split; reflexivity.
    + rewrite lhs_cons, rhs_cons.
      pose proof (word_pair_length2 v v' HV) as E2.
      destruct HV as (_ & _ & Hv & Hv' & _).
      rewrite !run_app_all by assumption.
      rewrite (run_other_first _ (lhs_other_first _ H2 HS2)).
      rewrite (run_other_first _ (rhs_other_first _ H2 HS2)).
      rewrite !Nat.add_0_r, <- E2.
      destruct (2 <=? length v); [|left; split; reflexivity].
      right. exists [([c], [c]); (v, v')], L2. repeat split.
      * unfold lhs. simpl. rewrite app_nil_r. reflexivity.
      * unfold rhs. simpl. rewrite app_nil_r. reflexivity.
  - left. rewrite lhs_cons, rhs_cons.
    destruct (word_first w (lhs L1) Hw Hl) as (c & r & -> & Hc).
    destruct (word_first w' (rhs L1) Hw' Hl') as (c' & r' & -> & Hc').
    rewrite !after_domain_letter by assumption. split; reflexivity.
Qed.

Lemma corr_cons (t q : str) (L : list (str * str)) (x y : option nat) :
  corr L x y ->
  corr ((t, q) :: L) (option_map (Nat.add (length t)) x)
    (option_map (Nat.add (length q)) y).
Proof.
  intros [[-> ->] | (La & Lb & -> & -> & ->)]; [left; split; reflexivity|].
  right. exists ((t, q) :: La), Lb. repeat split; simpl.
  - rewrite lhs_cons, length_app. reflexivity.
  - rewrite rhs_cons, length_app. reflexivity.
Qed.

(** The domain, with the search for its last label backing up. *)
Lemma rep_pieces (L : list (str * str)) :
  pieces L -> forall min, min <= 1 ->
    corr L (rep domain_part min (lhs L) after_domain)
      (rep domain_part min (rhs L) after_domain).
Proof.
  induction 1 as [|c L Hc HL IH|w w' L HW HS HL IH]; intros min Hmin.
  - left. destruct min; split; reflexivity.
  - pose proof (after_domain_sim _ (pieces_other c L Hc HL)) as AD.
    rewrite lhs_cons, rhs_cons in AD |- *. cbn [app] in AD |- *. cbn [rep].
    assert (Stop : corr (([c], [c]) :: L)
                     match min with 0 => after_domain (c :: lhs L) | S _ => None end
                     match min with 0 => after_domain (c :: rhs L) | S _ => None end).
    { destruct min; [exact AD | left; split; reflexivity]. }
    destruct (domain_part c); [|exact Stop].
    destruct (IH (pred min) ltac:(lia)) as [[-> ->] | (La & Lb & -> & -> & ->)];
      [exact Stop|].
    right. exists (([c], [c]) :: La), Lb. repeat split.
  - pose proof HW as (Hw & Hw' & Hl & Hl' & _).
    rewrite lhs_cons, rhs_cons.
    rewrite !(rep_word domain_part after_domain after_domain_letter)
      by (try assumption; apply letters_class; auto using letter_domain).
    apply corr_cons.
    assert (E1 : min - length w = 0) by (destruct w; [contradiction | simpl; lia]).
    assert (E2 : min - length w' = 0) by (destruct w'; [contradiction | simpl; lia]).
    rewrite E1, E2. apply IH. lia.
Qed.

Lemma email_sim (a a' : str) (L : list (str * str)) :
  hrel a a' -> pieces L -> starts_other L ->
  mcorr a a' L (rmatch email (a ++ lhs L) k0) (rmatch email (a' ++ rhs L) k0).
Proof.
  intros Ha HL HS. rewrite !email_spec.
  pose proof Ha as (Hla & Hla' & _).
  rewrite !run_app_all by (apply letters_class; auto using letter_local).
  destruct (run_pieces local_part L letter_local HL) as (L1 & L2 & EL & -> & ->).
  pose proof (pieces_nonempty _ HL) as F. rewrite EL in F.
  apply Forall_app_l in F.
  rewrite <- (length_pos_iff a a' L1 Ha F).
  rewrite !skipn_app_length, EL, skipn_lhs, skipn_rhs.
  assert (HL2 : pieces L2) by (rewrite EL in HL; exact (pieces_app_r _ _ HL)).
  destruct (1 <=? length a + length (lhs L1)); [|left; split; reflexivity].
  destruct HL2 as [|c L3 Hc HL3|w w' L3 (Hw & Hw' & Hl & Hl' & _) _ _].
  - left. split; reflexivity.
  - rewrite lhs_cons, rhs_cons. cbn [app after_local].
    destruct (chr "@" c); [|left; split; reflexivity].
    destruct (rep_pieces L3 HL3 1 (le_n 1))
      as [[-> ->] | (La & Lb & -> & -> & ->)]; [left; split; reflexivity|].
    right. exists (L1 ++ ([c], [c]) :: La), Lb. repeat split.
    + rewrite <- app_assoc. reflexivity.
    + destruct L1; discriminate.
    + cbn [option_map]. rewrite lhs_app, lhs_cons, !length_app. simpl.
      f_equal. lia.
    + cbn [option_map]. rewrite rhs_app, rhs_cons, !length_app. simpl.
      f_equal. lia.
  - left. rewrite lhs_cons, rhs_cons.
    destruct (word_first w (lhs L3) Hw Hl) as (c & r & -> & Hc).
    destruct (word_first w' (rhs L3) Hw' Hl') as (c' & r' & -> & Hc').
    unfold after_local. rewrite (letter_not_at c Hc), (letter_not_at c' Hc').
    split; reflexivity.
Qed.

(** A search by [_URL_RE] has corresponding outcomes on corresponding
    texts. *)
Lemma url_sim (a a' : str) (L : list (str * str)) :
  hrel a a' -> pieces L -> starts_other L ->
  mcorr a a' L (match_at _URL_RE (a ++ lhs L)) (match_at _URL_RE (a' ++ rhs L)).
Proof.
  intros Ha HL HS. rewrite !match_at_URL.
  destruct (http_url_sim a a' L Ha HL HS) as [[-> ->] | H].
  - destruct (www_host_sim a a' L Ha HL HS) as [[-> ->] | H].
    + apply email_sim; assumption.
    + destruct H as (La & Lb & E & N & -> & ->). right. exists La, Lb. auto.
  - destruct H as (La & Lb & E & N & -> & ->). right. exists La, Lb. auto.
Qed.

(** ** The spans of corresponding texts *)

Lemma scan_start_ge (r : regex) (s : str) :
  forall skip pos m, In m (scan r skip pos s) -> pos <= m_start m.
Proof.
  induction s as [|c s IH]; intros skip pos m; [contradiction|].
  cbn [scan]. destruct skip as [|j].
  - destruct (match_at r (c :: s)) as [n|].
    + intros [<- | H]; [simpl; lia|]. apply IH in H. lia.
    + intros H. apply IH in H. lia.
  - intros H. apply IH in H. lia.
Qed.

Lemma in_url_before (r : regex) (s : str) (skip pos q : nat) :
  q < pos -> in_url (spans_of (scan r skip pos s)) q = false.
Proof.
  intros Hq. unfold in_url, spans_of.
  destruct (existsb _ _) eqn:E; [|reflexivity].
  apply existsb_exists in E. destruct E as ([st en] & Hin & E).
  apply in_map_iff in Hin. destruct Hin as (m & [= <- <-] & Hm).
  apply scan_start_ge in Hm. simpl in E. apply andb_true_iff in E.
  destruct E as [E _]. apply Nat.leb_le in E. lia.
Qed.

Lemma covered_skip (r : regex) (s : str) :
  forall skip p, p < skip -> skip <= length s -> covered r skip s p = true.
Proof.
  induction s as [|c s IH]; intros skip p Hp Hs; simpl in Hs; [lia|].
  destruct skip as [|j]; [lia|]. destruct p as [|p]; [reflexivity|].
  cbn [covered next]. apply IH; lia.
Qed.

(** [in_url] on the spans of a scan reads [covered]. *)
Lemma in_url_scan (r : regex) (s : str) :
  forall skip pos p, skip <= length s ->
    in_url (spans_of (scan r skip pos s)) (pos + p)
    = (skip <=? p) && covered r skip s p.
Proof.
  induction s as [|c s IH]; intros skip pos p Hs.
  - simpl. rewrite andb_false_r. reflexivity.
  - simpl in Hs. cbn [scan]. destruct skip as [|j].
    + cbn [Nat.leb andb]. destruct (match_at r (c :: s)) as [n|] eqn:E.
      * pose proof (match_at_le _ _ _ E) as Hn. simpl in Hn.
        unfold spans_of. cbn [map in_url existsb fst snd m_start m_end].
        fold (spans_of (scan r (pred n) (S pos) s)).
        fold (in_url (spans_of (scan r (pred n) (S pos) s)) (pos + p)).
        destruct p as [|p].
        -- rewrite Nat.add_0_r, in_url_before by lia.
           rewrite orb_false_r, Nat.leb_refl. cbn [andb covered hit].
           rewrite E. destruct n as [|n].
           ++ apply Nat.ltb_ge. lia.
           ++ apply Nat.ltb_lt. lia.
        -- replace (pos + S p) with (S pos + p) by lia.
           rewrite IH by lia. cbn [covered next]. rewrite E.
           replace (pos <=? S pos + p) with true
             by (symmetry; apply Nat.leb_le; lia).
           cbn [andb]. destruct (Nat.ltb_spec (S pos + p) (pos + n)) as [H|H].
           ++ cbn [orb]. symmetry. apply covered_skip; lia.
           ++ cbn [orb]. replace (pred n <=? p) with true
                by (symmetry; apply Nat.leb_le; lia).
              reflexivity.
      * destruct p as [|p].
        -- rewrite Nat.add_0_r, in_url_before by lia.
           cbn [covered hit]. rewrite E. reflexivity.
        -- replace (pos + S p) with (S pos + p) by lia.
           rewrite IH by lia. cbn [covered next Nat.leb andb]. rewrite E.
           reflexivity.
    + destruct p as [|p].
      * rewrite Nat.add_0_r, in_url_before by lia. reflexivity.
      * replace (pos + S p) with (S pos + p) by lia.
        rewrite IH by lia. reflexivity.
Qed.

Lemma in_url_covered (text : str) (p : nat) :
  in_url (url_spans_of text) p = covered _URL_RE 0 text p.
Proof.
  unfold url_spans_of, finditer. fold (spans_of (scan _URL_RE 0 0 text)).
  rewrite <- (Nat.add_0_l p) at 1. rewrite in_url_scan by lia. reflexivity.
Qed.

Lemma covered_advance (r : regex) (k : nat) :
  forall skip s p, k <= length s ->
    covered r skip s (k + p) = covered r (advance r skip s k) (skipn k s) p.
Proof.
  induction k as [|k IH]; intros skip s p Hk.
  - destruct s; reflexivity.
  - destruct s as [|c s]; simpl in Hk; [lia|].
    cbn [Nat.add covered advance skipn]. apply IH. lia.
Qed.

Lemma advance_skip (r : regex) (k : nat) :
  forall skip s, k <= skip -> k <= length s -> advance r skip s k = skip - k.
Proof.
  induction k as [|k IH]; intros skip s Hs Hl.
  - destruct s; simpl; lia.
  - destruct s as [|c s]; simpl in Hl; [lia|].
    destruct skip as [|j]; [lia|]. cbn [advance next]. rewrite IH by lia. lia.
Qed.

Lemma advance_none (r : regex) (n : nat) :
  forall s, n <= length s ->
    (forall k, k < n -> match_at r (skipn k s) = None) ->
    advance r 0 s n = 0.
Proof.
  induction n as [|n IH]; intros s Hl H.
  - destruct s; reflexivity.
  - destruct s as [|c s]; simpl in Hl; [lia|]. cbn [advance next].
    pose proof (H 0 ltac:(lia)) as H0. cbn [skipn] in H0. rewrite H0.
    apply IH; [lia|].
    intros k Hk. apply (H (S k)). lia.
Qed.

Lemma advance_one (r : regex) (skip : nat) (c : cp) (s : str) :
  advance r skip (c :: s) 1 = next r skip (c :: s).
Proof. cbn [advance]. destruct s; reflexivity. Qed.

Lemma lhs_length_pos (L : list (str * str)) :
  Forall (fun tq => fst tq <> [] /\ snd tq <> []) L -> L <> [] ->
  exists n n', length (lhs L) = S n /\ length (rhs L) = S n'.
Proof.
  intros [|[t q] L' [Ht Hq] _] HL; [contradiction|]. simpl in Ht, Hq.
  rewrite lhs_cons, rhs_cons, !length_app.
  destruct t, q; try contradiction. simpl. eauto.
Qed.

Lemma pieces_app_nonempty (La Lb : list (str * str)) :
  pieces (La ++ Lb) -> Forall (fun tq => fst tq <> [] /\ snd tq <> []) La.
Proof. intros H. apply pieces_nonempty in H. exact (Forall_app_l _ _ _ H). Qed.

Lemma letters_skipn (w : str) (k : nat) : letters w -> letters (skipn k w).
Proof.
  unfold letters. rewrite !forallb_forall. intros H c Hc.
  apply H. rewrite <- (firstn_skipn k w). apply in_or_app. right. exact Hc.
Qed.

Lemma skipn_nonempty {A} (w : list A) (k : nat) : k < length w -> skipn k w <> [].
Proof.
  intros H E. pose proof (length_skipn k w) as L. rewrite E in L. simpl in L. lia.
Qed.

Lemma skipn_app_le {A} (w x : list A) (k : nat) :
  k <= length w -> skipn k (w ++ x) = skipn k w ++ x.
Proof.
  intros H. rewrite skipn_app. replace (k - length w) with 0 by lia.
  reflexivity.
Qed.

Section Words.
Variables (L : list (str * str)).
Hypothesis HL : pieces L.
Hypothesis HS : starts_other L.

(** Through a word that is the same on both sides. *)
Lemma advance_same_word (u : str) :
  letters u ->
  exists La Lb, L = La ++ Lb
    /\ advance _URL_RE 0 (u ++ lhs L) (length u) = length (lhs La)
    /\ advance _URL_RE 0 (u ++ rhs L) (length u) = length (rhs La).
Proof.
  induction u as [|c u IH]; intros Hu.
  - exists [], L. repeat split; simpl.
    + destruct (lhs L); reflexivity.
    + destruct (rhs L); reflexivity.
  - assert (Hu' : letters u).
    { unfold letters in *. simpl in Hu. apply andb_true_iff in Hu. tauto. }
    assert (Hr : hrel (c :: u) (c :: u)) by (repeat split; auto).
    cbn [app length advance next].
    destruct (url_sim (c :: u) (c :: u) L Hr HL HS)
      as [[E1 E2] | (La & Lb & EL & _ & E1 & E2)]; cbn [app] in E1, E2;
      rewrite E1, E2.
    + exact (IH Hu').
    + exists La, Lb. split; [exact EL|]. cbn [length Nat.add pred].
      rewrite !advance_skip by (rewrite ?length_app; lia). split; lia.
Qed.

(** Through a word replaced by another one: no match starts inside. *)
Lemma advance_safe_word (w w' : str) :
  word_pair w w' -> tail_safe w -> tail_safe w' ->
  match_at _URL_RE (w ++ lhs L) = None ->
  advance _URL_RE 0 (w ++ lhs L) (length w) = 0
  /\ advance _URL_RE 0 (w' ++ rhs L) (length w') = 0.
Proof.
  intros (Hw & Hw' & Hl & Hl' & _) S1 S2 E.
  assert (E' : match_at _URL_RE (w' ++ rhs L) = None).
  { destruct (url_sim w w' L) as [[_ H] | (La & Lb & _ & _ & H & _)];
      try assumption; [repeat split; auto | congruence]. }
  split; apply advance_none; try (rewrite length_app; lia); intros k Hk;
    rewrite skipn_app_le by lia.
  - destruct (url_sim (skipn k w) w' L) as [[H _] | (La & Lb & _ & _ & _ & H)];
      try assumption; [|congruence].
    split; [apply letters_skipn; exact Hl|]. split; [exact Hl'|]. right.
    split; [apply skipn_nonempty; exact Hk|]. split; [exact Hw'|].
    split; [apply tail_safe_skipn; exact S1 | exact S2].
  - destruct (url_sim w (skipn k w') L) as [[_ H] | (La & Lb & _ & _ & H & _)];
      try assumption; [|congruence].
    split; [exact Hl|]. split; [apply letters_skipn; exact Hl'|]. right.
    split; [exact Hw|]. split; [apply skipn_nonempty; exact Hk|].
    split; [exact S1 | apply tail_safe_skipn; exact S2].
Qed.
End Words.

Lemma skipn_exact {A} (x y : list A) : skipn (length x) (x ++ y) = y.
Proof. induction x; simpl; auto. Qed.

Lemma covered_0 (r : regex) (skip : nat) (s : str) :
  s <> [] -> covered r skip s 0 = hit r skip s.
Proof. destruct s; [contradiction | reflexivity]. Qed.

Lemma pieces_starts_other (c : cp) (L : list (str * str)) :
  az_letter c = false -> starts_other (([c], [c]) :: L).
Proof. intros H. exact H. Qed.

Lemma hrel_nil : hrel [] [].
Proof. repeat split. left. reflexivity. Qed.

Lemma hit_sim (L La Lb : list (str * str)) :
  pieces L -> L <> [] -> L = La ++ Lb ->
  hit _URL_RE (length (lhs La)) (lhs L) = hit _URL_RE (length (rhs La)) (rhs L).
Proof.
  intros HL Hne EL. destruct La as [|x La0].
  - unfold hit. cbn [lhs rhs map concat length].
    assert (G : forall a a' L0, L = (a, a') :: L0 \/ (a = [] /\ a' = [] /\ L = L0) ->
              mcorr a a' L0 (match_at _URL_RE (lhs L)) (match_at _URL_RE (rhs L)) ->
              (a <> [] /\ a' <> []) \/ (a = [] /\ a' = []) ->
              pieces L0 ->
              match match_at _URL_RE (lhs L) with Some (S _) => true | _ => false end
              = match match_at _URL_RE (rhs L) with Some (S _) => true | _ => false end).
    { intros a a' L0 _ [[-> ->] | (Lm & Lb' & E0 & Hm & -> & ->)] Hcase H0;
        [reflexivity|].
      rewrite E0 in H0.
      destruct (lhs_length_pos Lm (pieces_app_nonempty _ _ H0) Hm)
        as (n & n' & -> & ->).
      rewrite !Nat.add_succ_r. reflexivity. }
    destruct HL as [|c L' Hc HL'|w w' L' HW HS' HL']; [contradiction| |].
    + apply (G [] [] (([c], [c]) :: L')).
      * right. auto.
      * apply (url_sim [] [] _ hrel_nil (pieces_other c L' Hc HL')).
        exact Hc.
      * right. auto.
      * constructor; assumption.
    + apply (G w w' L').
      * left. reflexivity.
      * rewrite lhs_cons, rhs_cons.
        apply url_sim; auto using word_pair_hrel.
      * left. destruct HW as (? & ? & _). auto.
      * exact HL'.
  - rewrite EL in HL.
    destruct (lhs_length_pos (x :: La0) (pieces_app_nonempty _ _ HL)
                ltac:(discriminate)) as (n & n' & -> & ->).
    reflexivity.
Qed.

Lemma state_step (t q : str) (L' La Lb : list (str * str)) :
  pieces ((t, q) :: L') -> (t, q) :: L' = La ++ Lb ->
  exists La' Lb', L' = La' ++ Lb'
    /\ advance _URL_RE (length (lhs La)) (lhs ((t, q) :: L')) (length t)
       = length (lhs La')
    /\ advance _URL_RE (length (rhs La)) (rhs ((t, q) :: L')) (length q)
       = length (rhs La').
Proof.
  intros HL EL. rewrite lhs_cons, rhs_cons. destruct La as [|x La0].
  - cbn [lhs rhs map concat length].
    inversion HL as [|c L0 Hc HL'|w w' L0 HW HS' HL']; subst.
    + cbn [app]. rewrite !advance_one. unfold next.
      pose proof (url_sim [] [] _ hrel_nil HL Hc) as M.
      change ([] ++ lhs (([c], [c]) :: L')) with (c :: lhs L') in M.
      change ([] ++ rhs (([c], [c]) :: L')) with (c :: rhs L') in M.
      destruct M as [[E1 E2] | (Lm & Lb' & E0 & Hm & E1 & E2)];
        rewrite E1, E2.
      * exists [], L'. repeat split.
      * destruct Lm as [|y Lm']; [contradiction|].
        injection E0 as <- ->. exists Lm', Lb'. repeat split.
    + pose proof HW as (Hw & Hw' & Hl & Hl' & [<- | (S1 & S2 & _)]).
      * exact (advance_same_word L' HL' HS' t Hl).
      * destruct (url_sim t q L' (word_pair_hrel _ _ HW) HL' HS')
          as [[E1 E2] | (Lm & Lb' & E0 & Hm & E1 & E2)].
        -- destruct (advance_safe_word L' HL' HS' t q HW S1 S2 E1) as [-> ->].
           exists [], L'. repeat split.
        -- exists Lm, Lb'. split; [exact E0|].
           destruct t as [|c t]; [contradiction|].
           destruct q as [|c' q]; [contradiction|].
           cbn [app length advance next] in *. rewrite E1, E2.
           cbn [Nat.add pred].
           rewrite !advance_skip by (rewrite ?length_app; lia). split; lia.
  - injection EL as <- EL. rewrite lhs_cons, rhs_cons, !length_app.
    exists La0, Lb. split; [exact EL|].
    rewrite !advance_skip by (rewrite ?length_app; lia). split; lia.
Qed.

(** On corresponding texts the scan by [_URL_RE] covers corresponding
    offsets: the starts of corresponding pieces are inside a match on both
    sides or on neither. *)
Lemma covered_sim (L : list (str * str)) :
  pieces L ->
  forall La Lb, L = La ++ Lb ->
  forall L1 L2, L = L1 ++ L2 ->
    covered _URL_RE (length (lhs La)) (lhs L) (length (lhs L1))
    = covered _URL_RE (length (rhs La)) (rhs L) (length (rhs L1)).
Proof.
  induction L as [|[t q] L' IH]; intros HL La Lb ELa L1 L2 EL1.
  - reflexivity.
  - destruct L1 as [|x L1'].
    + pose proof (pieces_nonempty _ HL) as F. inversion F as [|? ? [Ht Hq] _]; subst.
      simpl in Ht, Hq.
      change (length (lhs [])) with 0. change (length (rhs [])) with 0.
      rewrite !covered_0.
      * apply (hit_sim _ La Lb HL); [discriminate | exact ELa].
      * rewrite rhs_cons. destruct q; [contradiction | discriminate].
      * rewrite lhs_cons. destruct t; [contradiction | discriminate].
    + injection EL1 as <- EL1. rewrite (lhs_cons t q L1'), (rhs_cons t q L1').
      rewrite !length_app.
      rewrite !covered_advance
        by (rewrite ?lhs_cons, ?rhs_cons, length_app; lia).
      destruct (state_step t q L' La Lb HL ELa) as (La' & Lb' & E' & -> & ->).
      rewrite (lhs_cons t q L'), (rhs_cons t q L').
      rewrite !skipn_exact.
      apply (IH (pieces_app_r [(t, q)] L' HL) La' Lb' E' L1' L2 EL1).
Qed.

Lemma in_url_sim (L L1 L2 : list (str * str)) :
  pieces L -> L = L1 ++ L2 ->
  in_url (url_spans_of (lhs L)) (length (lhs L1))
  = in_url (url_spans_of (rhs L)) (length (rhs L1)).
Proof.
  intros HL EL. rewrite !in_url_covered.
  exact (covered_sim L HL [] L eq_refl L1 L2 EL).
Qed.

(** ** The parts emitted by the converter *)

Lemma select_good (variant : str) :
  table_good (fst (select variant)) (snd (select variant)) = true.
Proof.
  unfold select. destruct (str_eqb variant (py "uk")); vm_compute; reflexivity.
Qed.

Lemma table_good_get (mapping : dict) (sw : list str) (k : str) :
  table_good mapping sw = true -> mem k sw = true ->
  exists r, dict_get mapping k = Some r
    /\ forallb az_lower r = true /\ 2 <= length r
    /\ unsafe_tail r = false /\ unsafe_tail k = false /\ 2 <= length k
    /\ (mem r sw = true -> dict_get mapping r = Some r).
Proof.
  unfold table_good. rewrite forallb_forall, mem_In. intros H Hk.
  specialize (H k Hk). destruct (dict_get mapping k) as [r|]; [|discriminate].
  repeat (apply andb_true_iff in H; destruct H as [H ?]).
  exists r. repeat split; auto.
  - apply Nat.leb_le. assumption.
  - apply negb_true_iff. assumption.
  - apply negb_true_iff. assumption.
  - apply Nat.leb_le. assumption.
  - intros Hm. match goal with
      | X : negb (mem r sw) || _ = true |- _ =>
          rewrite Hm in X; simpl in X; apply opt_eqb_eq in X; exact X
      end.
Qed.

Lemma az_lower_letter (c : cp) : az_lower c = true -> az_letter c = true.
Proof. intros H. unfold az_letter. rewrite H. apply orb_true_r. Qed.

Lemma az_lower_not_az_upper (c : cp) : az_lower c = true -> az_upper c = false.
Proof. cp_cases. Qed.

Lemma ascii_upper_lower (c : cp) :
  az_lower c = true ->
  az_upper (ascii_upper c) = true /\ ascii_lower (ascii_upper c) = c.
Proof.
  intros H. unfold ascii_upper. rewrite H.
  assert (B : (97 <= c /\ c <= 122)%N) by (revert H; cp_cases).
  assert (E : az_upper (c - 32)%N = true).
  { unfold az_upper, between. apply andb_true_iff. split; apply N.leb_le; lia. }
  split; [exact E|]. unfold ascii_lower. rewrite E. lia.
Qed.

Lemma ascii_lower_lower (c : cp) : az_lower c = true -> ascii_lower c = c.
Proof.
  intros H. unfold ascii_lower. rewrite (az_lower_not_az_upper c H). reflexivity.
Qed.

Lemma letters_ascii (w : str) : letters w -> forallb is_ascii w = true.
Proof.
  unfold letters. rewrite !forallb_forall. intros H c Hc.
  apply az_letter_ascii, H, Hc.
Qed.

Lemma lowers_letters (r : str) : forallb az_lower r = true -> letters r.
Proof.
  unfold letters. rewrite !forallb_forall. intros H c Hc.
  apply az_lower_letter, H, Hc.
Qed.

Lemma map_lower_lowers (r : str) :
  forallb az_lower r = true -> map ascii_lower r = r.
Proof.
  induction r as [|c r IH]; simpl; [reflexivity|]. intros H.
  apply andb_true_iff in H. destruct H as [Hc H].
  rewrite (ascii_lower_lower c Hc), (IH H). reflexivity.
Qed.

Lemma map_upper_lowers (r : str) :
  forallb az_lower r = true ->
  forallb az_upper (map ascii_upper r) = true
  /\ map ascii_lower (map ascii_upper r) = r.
Proof.
  induction r as [|c r IH]; simpl; [auto|]. intros H.
  apply andb_true_iff in H. destruct H as [Hc H].
  destruct (ascii_upper_lower c Hc) as [E1 E2]. destruct (IH H) as [E3 E4].
  rewrite E1, E2, E3, E4. auto.
Qed.

Lemma uppers_letters (w : str) : forallb az_upper w = true -> letters w.
Proof.
  unfold letters. rewrite !forallb_forall. intros H c Hc.
  unfold az_letter. rewrite (H c Hc). reflexivity.
Qed.

Section CaseShape.
Context {U : UnicodeDB}.

Lemma lower_letters (w : str) : letters w -> lower w = map ascii_lower w.
Proof. intros H. unfold lower. rewrite (letters_ascii w H). reflexivity. Qed.

Lemma upper_letters (w : str) : letters w -> upper w = map ascii_upper w.
Proof.
  unfold letters, upper. induction w as [|c w IH]; simpl; [reflexivity|].
  intros H. apply andb_true_iff in H. destruct H as [Hc H].
  unfold cp_upper at 1. rewrite (az_letter_ascii c Hc), (IH H). reflexivity.
Qed.

Lemma match_case_letters (o : cp) (rest r : str) :
  letters (o :: rest) ->
  _match_case (o :: rest) r =
  if forallb az_upper (o :: rest) then Some (upper r)
  else if az_upper o then
         match r with
         | [] => None
         | r0 :: tl => Some (upper [r0] ++ tl)
         end
       else Some r.
Proof.
  intros H. unfold _match_case.
  rewrite (isupper_letters (o :: rest)) by (discriminate || exact H).
  assert (Ho : az_letter o = true).
  { unfold letters in H. simpl in H. apply andb_true_iff in H. tauto. }
  replace (isupper [o]) with (az_upper o)
    by (symmetry; simpl; apply cp_isupper_letter; exact Ho).
  reflexivity.
Qed.

(** The case projection of a lower-case word: letters, of the same
    length, the word again when lower-cased, and a fixed point of the
    projection. *)
Lemma match_case_shape (t r : str) :
  t <> [] -> letters t -> r <> [] -> forallb az_lower r = true ->
  exists r1, _match_case t r = Some r1
    /\ letters r1 /\ length r1 = length r /\ map ascii_lower r1 = r
    /\ _match_case r1 r = Some r1.
Proof.
  intros Ht Hl Hr Hlow. destruct t as [|o rest]; [contradiction|].
  destruct r as [|r0 tl]; [contradiction|].
  pose proof (lowers_letters _ Hlow) as Hrl.
  destruct (map_upper_lowers _ Hlow) as [Up1 Up2].
  rewrite (match_case_letters o rest (r0 :: tl) Hl).
  pose proof Hlow as Hlow'. simpl in Hlow'. apply andb_true_iff in Hlow'.
  destruct Hlow' as [H0 Htl].
  destruct (forallb az_upper (o :: rest)); [|destruct (az_upper o)].
  - exists (map ascii_upper (r0 :: tl)). rewrite (upper_letters _ Hrl).
    split; [reflexivity|]. split; [apply uppers_letters; exact Up1|].
    split; [apply length_map|]. split; [exact Up2|].
    cbn [map]. rewrite match_case_letters
      by (apply uppers_letters; exact Up1).
    cbn [map] in Up1. rewrite Up1, (upper_letters _ Hrl). reflexivity.
  - destruct (ascii_upper_lower r0 H0) as [E1 E2].
    assert (E : upper [r0] = [ascii_upper r0]).
    { rewrite upper_letters; [reflexivity|].
      unfold letters. simpl. rewrite (az_lower_letter r0 H0). reflexivity. }
    exists (ascii_upper r0 :: tl). rewrite E. split; [reflexivity|].
    assert (L1 : letters (ascii_upper r0 :: tl)).
    { unfold letters. simpl. unfold az_letter at 1. rewrite E1. simpl.
      apply lowers_letters. exact Htl. }
    split; [exact L1|]. split; [reflexivity|].
    split; [simpl; rewrite E2, (map_lower_lowers tl Htl); reflexivity|].
    rewrite (match_case_letters _ _ _ L1). cbn [forallb]. rewrite E1.
    cbn [andb]. destruct (forallb az_upper tl) eqn:Etl.
    + destruct tl as [|c tl]; [rewrite E; reflexivity|].
      simpl in Etl, Htl. apply andb_true_iff in Etl, Htl.
      destruct Etl as [Ec _], Htl as [Hc _].
      rewrite (az_lower_not_az_upper c Hc) in Ec. discriminate.
    + rewrite E. reflexivity.
  - exists (r0 :: tl). split; [reflexivity|]. split; [exact Hrl|].
    split; [reflexivity|]. split; [apply map_lower_lowers; exact Hlow|].
    rewrite (match_case_letters _ _ _ Hrl). cbn [forallb].
    rewrite (az_lower_not_az_upper r0 H0). reflexivity.
Qed.
End CaseShape.

Section Rerun.
Context {U : UnicodeDB}.
Hypothesis HU : lower_off_tables.
Variable variant : str.

Lemma convert_token_eq (mapping : dict) (sw : list str)
    (spans : list (nat * nat)) (m : Match) :
  convert_token mapping sw spans ([], []) m =
  if in_url spans (m_start m) || negb (isalpha (group m))
  then Some ([], [group m])
  else if mem (lower (group m)) sw then
    match dict_get mapping (lower (group m)) with
    | None => None
    | Some r =>
        match _match_case (group m) r with
        | None => None
        | Some r1 =>
            if negb (str_eqb r1 (group m))
            then Some ([spelling (group m) r1], [r1])
            else Some ([], [group m])
        end
    end
  else Some ([], [group m]).
Proof. reflexivity. Qed.

Lemma off_tables (t : str) :
  forallb not_letter t = true -> isalpha t = true ->
  mem (lower t) (snd (select variant)) = false.
Proof.
  intros H1 H2. destruct (HU t H1 H2) as [E1 E2].
  unfold select. destruct (str_eqb variant (py "uk")); assumption.
Qed.

Lemma word_pair_refl (t : str) : t <> [] -> letters t -> word_pair t t.
Proof. intros H1 H2. repeat split; auto. Qed.

(** The part emitted for a token: how it relates to the token, and that
    a second run emits it again and records nothing, provided the part is
    protected whenever the token was. *)
Lemma part_facts (spans : list (nat * nat)) (m : Match) :
  group m <> [] -> uniform (group m) = true ->
  crel (group m, part_of (fst (select variant)) (snd (select variant)) spans m)
  /\ forall spans' m',
      group m' = part_of (fst (select variant)) (snd (select variant)) spans m ->
      (in_url spans (m_start m) = true -> in_url spans' (m_start m') = true) ->
      convert_token (fst (select variant)) (snd (select variant)) spans'
        ([], []) m'
      = Some ([], [group m']).
Proof.
  intros Hne Hu. set (mapping := fst (select variant)).
  set (sw := snd (select variant)). set (t := group m) in *.
  assert (Keep : crel (t, t) ->
            (forall spans' m', group m' = t ->
               (in_url spans (m_start m) = true ->
                in_url spans' (m_start m') = true) ->
               convert_token mapping sw spans' ([], []) m' = Some ([], [t])) ->
            convert_token mapping sw spans ([], []) m = Some ([], [t]) ->
            crel (t, part_of mapping sw spans m)
            /\ forall spans' m',
                group m' = part_of mapping sw spans m ->
                (in_url spans (m_start m) = true ->
                 in_url spans' (m_start m') = true) ->
                convert_token mapping sw spans' ([], []) m'
                = Some ([], [group m'])).
  { intros Hc Hs E. unfold part_of. rewrite E. cbn [concat].
    rewrite app_nil_r. split; [exact Hc|].
    intros spans' m' Eg Hi. rewrite Eg. exact (Hs spans' m' Eg Hi). }
  assert (Crel : crel (t, t)).
  { unfold crel. cbn [fst snd]. destruct (kind t) eqn:K; [|reflexivity].
    apply word_pair_refl; [exact Hne | exact (uniform_letters t K Hu)]. }
  pose proof (convert_token_eq mapping sw spans m) as E. fold t in E.
  destruct (in_url spans (m_start m)) eqn:Eu; cbn [orb] in E.
  { apply (Keep Crel); [|exact E].
    intros spans' m' Eg Hi. rewrite convert_token_eq, Eg, (Hi eq_refl).
    reflexivity. }
  destruct (isalpha t) eqn:Ea; cbn [negb] in E.
  2: { apply (Keep Crel); [|exact E].
       intros spans' m' Eg Hi. rewrite convert_token_eq, Eg, Ea, orb_true_r.
       reflexivity. }
  destruct (mem (lower t) sw) eqn:Em.
  2: { apply (Keep Crel); [|exact E].
       intros spans' m' Eg Hi. rewrite convert_token_eq, Eg, Ea, Em.
       destruct (in_url spans' (m_start m')); reflexivity. }
  destruct (kind t) eqn:K.
  2: { pose proof (off_tables t (uniform_others t K Hu) Ea) as Off.
       fold sw in Off. congruence. }
  pose proof (uniform_letters t K Hu) as Hl.
  destruct (table_good_get mapping sw (lower t) (select_good variant) Em)
    as (r & Er & Hlow & Hr2 & Sr & Sk & Hk2 & Hself).
  assert (Hrne : r <> []) by (destruct r; [simpl in Hr2; lia | discriminate]).
  destruct (match_case_shape t r Hne Hl Hrne Hlow)
    as (r1 & E1 & Lr1 & Len & Low & Idem).
  rewrite Er, E1 in E.
  destruct (str_eqb r1 t) eqn:Eq; cbn [negb] in E.
  { apply (Keep Crel); [|exact E].
    intros spans' m' Eg Hi. rewrite convert_token_eq, Eg, Ea, Em, Er, E1, Eq.
    destruct (in_url spans' (m_start m')); reflexivity. }
  unfold part_of. rewrite E. cbn [concat]. rewrite app_nil_r. split.
  - unfold crel. cbn [fst snd]. rewrite K.
    rewrite (lower_letters t Hl) in Sk, Hk2. rewrite length_map in Hk2.
    assert (Hr1 : r1 <> []) by (destruct r1; [simpl in Len; lia | discriminate]).
    repeat split; auto. right. unfold tail_safe. rewrite Low.
    repeat split; auto. lia.
  - intros spans' m' Eg Hi. rewrite convert_token_eq, Eg.
    destruct (in_url spans' (m_start m')); [reflexivity|].
    destruct (isalpha r1); [|reflexivity]. cbn [orb negb].
    rewrite (lower_letters r1 Lr1), Low.
    destruct (mem r sw) eqn:Emr; [|reflexivity].
    rewrite (Hself eq_refl), Idem, str_eqb_refl. reflexivity.
Qed.
End Rerun.

(** ** The second run *)

Lemma matches_of_app (l1 l2 : list str) (pos : nat) :
  matches_of pos (l1 ++ l2)
  = matches_of pos l1 ++ matches_of (pos + length (concat l1)) l2.
Proof.
  revert pos; induction l1 as [|t l1 IH]; intros pos; simpl.
  - rewrite Nat.add_0_r. reflexivity.
  - rewrite IH, length_app, Nat.add_assoc. reflexivity.
Qed.

Lemma chunked_uniform (l : list str) :
  chunked l -> Forall (fun t => t <> [] /\ uniform t = true) l.
Proof. induction 1; constructor; auto. Qed.

Lemma letters_uniform (q : str) : q <> [] -> letters q -> uniform q = true.
Proof.
  intros Hne Hl. unfold uniform. rewrite (letters_kind q Hne Hl).
  unfold letters in Hl. rewrite forallb_forall in *. intros c Hc.
  rewrite (Hl c Hc). reflexivity.
Qed.

Lemma crel_kind (t q : str) : t <> [] -> crel (t, q) -> kind q = kind t.
Proof.
  unfold crel. cbn [fst snd]. intros Hne H. destruct (kind t) eqn:K.
  - destruct H as (_ & Hq & _ & Hl & _). apply letters_kind; assumption.
  - rewrite H. exact K.
Qed.

Lemma crel_chunk (t q : str) :
  t <> [] -> uniform t = true -> crel (t, q) -> q <> [] /\ uniform q = true.
Proof.
  unfold crel. cbn [fst snd]. intros Hne Hu H. destruct (kind t) eqn:K.
  - destruct H as (_ & Hq & _ & Hl & _). split; [exact Hq|].
    apply letters_uniform; assumption.
  - rewrite H. auto.
Qed.

Lemma chunked_parts (cs : list (str * str)) :
  chunked (map fst cs) -> Forall crel cs -> chunked (map snd cs).
Proof.
  induction cs as [|[t q] cs IH]; intros C F; [constructor|].
  inversion C as [|? ? Hne Hu Hk C']; subst.
  inversion F as [|? ? Hc F']; subst. cbn [map snd].
  destruct (crel_chunk t q Hne Hu Hc) as [Hq Hqu].
  constructor; auto.
  intros q2 H2. rewrite (crel_kind t q Hne Hc).
  destruct cs as [|[t2 q2'] cs]; [discriminate|].
  cbn [map snd hd_error] in H2. injection H2 as ->.
  inversion F' as [|? ? Hc2 _]; subst.
  inversion C' as [|? ? Hne2 _ _ _]; subst.
  rewrite (crel_kind t2 q2 Hne2 Hc2). apply Hk. reflexivity.
Qed.

Lemma lhs_others (t : str) (L : list (str * str)) :
  lhs (map (fun c => ([c], [c])) t ++ L) = t ++ lhs L.
Proof.
  induction t as [|c t IH]; [reflexivity|].
  cbn [map app]. rewrite lhs_cons, IH. reflexivity.
Qed.

Lemma rhs_others (t : str) (L : list (str * str)) :
  rhs (map (fun c => ([c], [c])) t ++ L) = t ++ rhs L.
Proof.
  induction t as [|c t IH]; [reflexivity|].
  cbn [map app]. rewrite rhs_cons, IH. reflexivity.
Qed.

Lemma lhs_pieces_of (cs : list (str * str)) :
  lhs (flat_map piece_of cs) = concat (map fst cs).
Proof.
  induction cs as [|[t q] cs IH]; [reflexivity|].
  cbn [flat_map map fst concat]. unfold piece_of at 1. cbn [fst].
  destruct (kind t).
  - cbn [app]. rewrite lhs_cons, IH. reflexivity.
  - rewrite lhs_others, IH. reflexivity.
Qed.

Lemma rhs_pieces_of (cs : list (str * str)) :
  Forall crel cs -> rhs (flat_map piece_of cs) = concat (map snd cs).
Proof.
  induction 1 as [|[t q] cs Hc _ IH]; [reflexivity|].
  cbn [flat_map map snd concat]. unfold piece_of at 1. unfold crel in Hc.
  cbn [fst snd] in *. destruct (kind t).
  - cbn [app]. rewrite rhs_cons, IH. reflexivity.
  - rewrite rhs_others, IH, Hc. reflexivity.
Qed.

Lemma pieces_others (t : str) (L : list (str * str)) :
  forallb not_letter t = true -> pieces L ->
  pieces (map (fun c => ([c], [c])) t ++ L).
Proof.
  induction t as [|c t IH]; intros H HL; [exact HL|].
  simpl in H. apply andb_true_iff in H. destruct H as [Hc H].
  cbn [map app]. constructor; [|apply IH; assumption].
  unfold not_letter in Hc. destruct (az_letter c); [discriminate | reflexivity].
Qed.

Lemma pieces_of_chunks (cs : list (str * str)) :
  chunked (map fst cs) -> Forall crel cs -> pieces (flat_map piece_of cs).
Proof.
  induction cs as [|[t q] cs IH]; intros C F; [constructor|].
  inversion C as [|? ? Hne Hu Hk C']; subst.
  inversion F as [|? ? Hc F']; subst.
  cbn [flat_map]. unfold piece_of at 1. unfold crel in Hc. cbn [fst snd] in *.
  destruct (kind t) eqn:K.
  - cbn [app]. constructor; [exact Hc | | exact (IH C' F')].
    destruct cs as [|[t2 q2] cs]; [exact I|].
    specialize (Hk t2 eq_refl). cbn [negb] in Hk.
    inversion C' as [|? ? Hne2 _ _ _]; subst.
    cbn [flat_map]. unfold piece_of. cbn [fst]. rewrite Hk.
    destruct t2 as [|c2 t2]; [contradiction|]. exact Hk.
  - apply pieces_others; [exact (uniform_others t K Hu) | exact (IH C' F')].
Qed.

Section SecondRun.
Context {U : UnicodeDB}.
Hypothesis HU : lower_off_tables.
Variables (text variant : str) (l : list str).
Hypothesis Hl : chunked l.
Hypothesis Htext : concat l = text.

Local Abbreviation mapping := (fst (select variant)).
Local Abbreviation sw := (snd (select variant)).
Local Abbreviation spans := (url_spans_of text).
Local Abbreviation part := (part_of mapping sw spans).
Local Abbreviation out := (concat (map part (matches_of 0 l))).

Lemma pairs_crel (l2 : list str) (pos : nat) :
  Forall (fun t => t <> [] /\ uniform t = true) l2 ->
  Forall crel (map (pair_of mapping sw spans) (matches_of pos l2)).
Proof.
  intros F; revert pos; induction F as [|t l2 [Hne Hu] _ IH]; intros pos;
    cbn [matches_of map]; constructor; [|apply IH].
  exact (proj1 (part_facts HU variant spans
                  {| m_start := pos; m_end := pos + length t; group := t |}
                  Hne Hu)).
Qed.

Lemma map_fst_pairs (l2 : list str) (pos : nat) :
  map fst (map (pair_of mapping sw spans) (matches_of pos l2)) = l2.
Proof.
  rewrite map_map. cbn [pair_of fst]. apply map_group_matches_of.
Qed.

Lemma map_snd_pairs (l2 : list str) (pos : nat) :
  map snd (map (pair_of mapping sw spans) (matches_of pos l2))
  = map part (matches_of pos l2).
Proof. rewrite map_map. reflexivity. Qed.

(** The pieces of the text and of what the converter returns for it. *)
Lemma text_pieces :
  let L := flat_map piece_of (map (pair_of mapping sw spans) (matches_of 0 l)) in
  pieces L /\ lhs L = text /\ rhs L = out.
Proof.
  intros L. pose proof (pairs_crel l 0 (chunked_uniform l Hl)) as F.
  split; [|split].
  - apply pieces_of_chunks; [rewrite map_fst_pairs; exact Hl | exact F].
  - unfold L. rewrite lhs_pieces_of, map_fst_pairs. exact Htext.
  - unfold L. rewrite (rhs_pieces_of _ F), map_snd_pairs. reflexivity.
Qed.

Lemma second_tokens (l2 : list str) :
  forall l1 pos pos', l1 ++ l2 = l ->
    pos = length (concat l1) ->
    pos' = length (concat (map part (matches_of 0 l1))) ->
    Forall (fun m' =>
              convert_token mapping sw (url_spans_of out) ([], []) m'
              = Some ([], [group m']))
      (matches_of pos' (map part (matches_of pos l2))).
Proof.
  induction l2 as [|t l2 IH]; intros l1 pos pos' El Ep Ep'; [constructor|].
  cbn [matches_of map].
  set (m := {| m_start := pos; m_end := pos + length t; group := t |}).
  pose proof (chunked_uniform l Hl) as Fu. rewrite <- El in Fu.
  apply Forall_app in Fu. destruct Fu as [_ Fu].
  pose proof (Forall_inv Fu) as [Hne Hu].
  constructor.
  - apply (proj2 (part_facts HU variant spans m Hne Hu)); [reflexivity|].
    destruct text_pieces as (HP & EL & ER).
    cbn [m_start]. intros Hin.
    assert (EQ : flat_map piece_of (map (pair_of mapping sw spans) (matches_of 0 l))
                 = flat_map piece_of
                     (map (pair_of mapping sw spans) (matches_of 0 l1))
                   ++ flat_map piece_of
                        (map (pair_of mapping sw spans)
                           (matches_of (0 + length (concat l1)) (t :: l2)))).
    { rewrite <- El, matches_of_app, map_app, flat_map_app. reflexivity. }
    pose proof (in_url_sim _ _ _ HP EQ) as S.
    rewrite EL, ER in S.
    pose proof (pairs_crel l1 0) as F1.
    assert (Fu1 : Forall (fun t => t <> [] /\ uniform t = true) l1).
    { pose proof (chunked_uniform l Hl) as Fl. rewrite <- El in Fl.
      exact (Forall_app_l _ _ _ Fl). }
    specialize (F1 Fu1).
    rewrite lhs_pieces_of, (rhs_pieces_of _ F1), map_fst_pairs, map_snd_pairs in S.
    rewrite <- Ep, <- Ep' in S. rewrite <- S. exact Hin.
  - apply (IH (l1 ++ [t])).
    + rewrite <- app_assoc. exact El.
    + rewrite concat_app, length_app. simpl. rewrite app_nil_r. lia.
    + rewrite matches_of_app, map_app, concat_app, length_app.
      cbn [matches_of map concat]. rewrite app_nil_r, <- Ep.
      cbn [Nat.add]. fold m. lia.
Qed.

Lemma rerun_tokens :
  finditer _TOKEN_RE out = matches_of 0 (map part (matches_of 0 l)).
Proof.
  unfold finditer. apply scan_chunked.
  rewrite <- map_snd_pairs. apply chunked_parts.
  - rewrite map_fst_pairs. exact Hl.
  - exact (pairs_crel l 0 (chunked_uniform l Hl)).
Qed.

Lemma rerun : _convert_variant out variant = Some (out, []).
Proof.
  rewrite convert_variant_spec, rerun_tokens.
  pose proof (second_tokens l [] 0 0 eq_refl eq_refl eq_refl) as F.
  set (T' := matches_of 0 (map part (matches_of 0 l))) in *.
  assert (E1 : map (part_of mapping sw (url_spans_of out)) T' = map group T').
  { apply map_ext_in. intros m' Hm. rewrite Forall_forall in F.
    unfold part_of at 1. rewrite (F m' Hm). simpl. apply app_nil_r. }
  assert (E2 : flat_map (changes_of mapping sw (url_spans_of out)) T' = []).
  { clear E1. induction F as [|m' T'' Hm _ IH]; [reflexivity|].
    cbn [flat_map]. unfold changes_of at 1. rewrite Hm, IH. reflexivity. }
  rewrite E1, E2. unfold T'. rewrite map_group_matches_of. reflexivity.
Qed.
End SecondRun.

(** Running the converter on what it returned, in the same direction,
    returns the same text and no change. *)
Lemma convert_idempotent {U : UnicodeDB} (text variant out : str)
    (changes : list Change) :
  lower_off_tables ->
  _convert_variant text variant = Some (out, changes) ->
  _convert_variant out variant = Some (out, []).
Proof.
  intros HU E. destruct (tokens_chunks text) as (l & C & Ec & Et).
  rewrite convert_variant_spec, Et in E. injection E as <- _.
  exact (rerun HU text variant l C Ec).
Qed.

(** ** No-op suppression and idempotence *)

Lemma small_db_off_tables : @lower_off_tables small_db.
Proof.
  intros t Hn Ha.
  assert (Hc : forall c, In c t -> small_lower c = 233%N \/ small_lower c = 107%N).
  { intros c Hc. unfold isalpha in Ha. destruct t as [|c0 t0]; [discriminate|].
    rewrite forallb_forall in Ha, Hn. specialize (Ha c Hc). specialize (Hn c Hc).
    unfold cp_isalpha, not_letter in *. destruct (is_ascii c).
    - rewrite Ha in Hn. discriminate.
    - simpl in Ha. unfold small_lower.
      destruct (N.eqb c 201); [auto|]. destruct (N.eqb c 8490); [auto|].
      simpl in Ha. rewrite orb_false_r in Ha. apply N.eqb_eq in Ha. subst c.
      left. reflexivity. }
  assert (Hl : forall c, In c (lower (U := small_db) t) -> c = 233%N \/ c = 107%N).
  { unfold lower. destruct (forallb is_ascii t) eqn:E.
    - intros c Hin. apply in_map_iff in Hin. destruct Hin as (d & <- & Hd).
      rewrite forallb_forall in E. specialize (E d Hd).
      destruct (Hc d Hd) as [H | H]; unfold small_lower in H.
      + destruct (N.eqb_spec d 201) as [-> | _]; [discriminate E|].
        destruct (N.eqb_spec d 8490) as [-> | _]; [discriminate E|]. auto.
      + destruct (N.eqb_spec d 201) as [-> | _]; [discriminate E|].
        destruct (N.eqb_spec d 8490) as [-> | _]; [discriminate E|]. auto.
    - intros c Hin. cbn [u_lower small_db] in Hin.
      apply in_map_iff in Hin. destruct Hin as (d & <- & Hd). auto. }
  assert (G : forall ws : list str,
            forallb (existsb (fun c => negb (N.eqb c 233) && negb (N.eqb c 107))) ws
            = true -> mem (lower (U := small_db) t) ws = false).
  { intros ws Hws. destruct (mem _ ws) eqn:E; [|reflexivity].
    apply mem_In in E. rewrite forallb_forall in Hws. specialize (Hws _ E).
    apply existsb_exists in Hws. destruct Hws as (c & Hin & Hc').
    destruct (Hl c Hin) as [-> | ->]; discriminate Hc'. }
  split; apply G; vm_compute; reflexivity.
Qed.

(** A key that is a value as well is "programmed", stored for itself. *)
Lemma key_and_value (variant k : str) :
  mem k (snd (select variant)) = true ->
  mem k (values (fst (select variant))) = true ->
  k = py "programmed"
  /\ dict_get (fst (select variant)) k = Some (py "programmed").
Proof.
  intros H1 H2. apply mem_In in H1.
  assert (F : forallb (fun k =>
                negb (mem k (values (fst (select variant))))
                || (str_eqb k (py "programmed")
                    && opt_eqb (dict_get (fst (select variant)) k)
                         (Some (py "programmed"))))
                (snd (select variant)) = true).
  { unfold select. destruct (str_eqb variant (py "uk")); vm_compute; reflexivity. }
  rewrite forallb_forall in F. specialize (F k H1). rewrite H2 in F.
  simpl in F. apply andb_true_iff in F. destruct F as [F1 F2].
  apply str_eqb_eq in F1. apply opt_eqb_eq in F2. auto.
Qed.

(** C4 as the specification has it fails: "pROGRAMMED" is a word in the
    spelling of the target variant "uk" (lower-cased it is a value of the
    mapping), and converting it records a change and returns another
    text. *)
Lemma C4_mixed_case_programmed :
  mem (lower (U := ascii_db) (py "pROGRAMMED")) (values (fst (select (py "uk"))))
  = true
  /\ _convert_variant (U := ascii_db) (py "pROGRAMMED") (py "uk")
     = Some (py "programmed", [spelling (py "pROGRAMMED") (py "programmed")])
  /\ _convert_variant (U := ascii_db) (py "pROGRAMMED") (py "uk")
     <> Some (py "pROGRAMMED", []).
Proof.
  split; [vm_compute; reflexivity|]. split; [vm_compute; reflexivity|].
  vm_compute. discriminate.
Qed.

(** C4, amended.  A token that lower-cased is a word of the source set
    and whose case projection is the token itself is emitted as it is and
    records no change.  So does a word token already in the spelling of
    the target variant (lower-cased it is a value of the mapping), unless
    it is "programmed" in a casing that the case projection does not
    reproduce.  And running the converter on what it returned, in the same
    direction, returns the same text and an empty list of changes (on a
    Python whose lower-casing maps no token without ASCII letters to a
    word of the tables, which Unicode guarantees). *)
Theorem C4_noop_and_idempotence {U : UnicodeDB} :
  (forall (mapping : dict) (sw : list str) (spans : list (nat * nat))
          (st : list Change * list str) (m : Match) (r : str),
      mem (lower (group m)) sw = true ->
      dict_get mapping (lower (group m)) = Some r ->
      _match_case (group m) r = Some (group m) ->
      convert_token mapping sw spans st m = Some (fst st, snd st ++ [group m]))
  /\ (forall (variant : str) (spans : list (nat * nat))
             (st : list Change * list str) (m : Match),
      group m <> [] -> letters (group m) ->
      mem (lower (group m)) (values (fst (select variant))) = true ->
      lower (group m) <> py "programmed"
      \/ _match_case (group m) (py "programmed") = Some (group m) ->
      convert_token (fst (select variant)) (snd (select variant)) spans st m
      = Some (fst st, snd st ++ [group m]))
  /\ (lower_off_tables ->
      forall (text variant out : str) (changes : list Change),
        _convert_variant text variant = Some (out, changes) ->
        _convert_variant out variant = Some (out, [])).
Proof.
  assert (A : forall mapping sw spans st m r,
             mem (lower (group m)) sw = true ->
             dict_get mapping (lower (group m)) = Some r ->
             _match_case (group m) r = Some (group m) ->
             convert_token mapping sw spans st m
             = Some (fst st, snd st ++ [group m])).
  { intros mapping sw spans [cs ps] m r Hm Hg Hc.
    rewrite convert_token_st, convert_token_eq, Hm, Hg, Hc, str_eqb_refl.
    destruct (in_url spans (m_start m) || negb (isalpha (group m)));
      cbn [negb fst snd]; rewrite app_nil_r; reflexivity. }
  split; [exact A|]. split.
  - intros variant spans [cs ps] m Hne Hl Hv Hor.
    destruct (mem (lower (group m)) (snd (select variant))) eqn:Hm.
    + destruct (key_and_value variant _ Hm Hv) as [Ek Eg].
      destruct Hor as [Hor | Hor]; [contradiction|].
      exact (A _ _ spans (cs, ps) m _ Hm Eg Hor).
    + rewrite convert_token_st, convert_token_eq, Hm.
      destruct (in_url spans (m_start m) || negb (isalpha (group m)));
        cbn [fst snd]; rewrite app_nil_r; reflexivity.
  - intros HU text variant out changes. apply convert_idempotent. exact HU.
Qed.

Lemma C4_noop_and_idempotence_witness :
  let text := py "pROGRAMMED the Color at www.color.org, "
              ++ [8490%N] ++ py " programmed" in
  _convert_variant (U := small_db)
    (py "programmed the Colour at www.color.org, " ++ [8490%N] ++ py " programmed")
    (py "uk")
  = Some (py "programmed the Colour at www.color.org, "
          ++ [8490%N] ++ py " programmed", [])
  /\ convert_token (U := small_db) _US_TO_UK _US_WORDS [] ([], [])
       {| m_start := 0; m_end := 6; group := py "COLOUR" |}
     = Some ([], [py "COLOUR"]).
Proof.
  intros text.
  destruct (C4_noop_and_idempotence (U := small_db)) as (_ & B & C). split.
  - apply (C small_db_off_tables text (py "uk") _
             [spelling (py "pROGRAMMED") (py "programmed");
              spelling (py "Color") (py "Colour")]).
    vm_compute. reflexivity.
  - apply (B (py "uk") [] ([], [])
             {| m_start := 0; m_end := 6; group := py "COLOUR" |}).
    + discriminate.
    + vm_compute. reflexivity.
    + vm_compute. reflexivity.
    + left. vm_compute. discriminate.
Defined.

(** * The grammar stage *)

Lemma firstn_slice (s : str) (a b : nat) :
  a <= b -> firstn a s ++ slice s a b = firstn b s.
Proof.
  unfold slice. revert s b; induction a as [|a IH]; intros s b H.
  - rewrite Nat.sub_0_r. reflexivity.
  - destruct b as [|b]; [lia|]. destruct s as [|c s].
    + simpl. rewrite firstn_nil. reflexivity.
    + cbn [firstn skipn app Nat.sub]. rewrite IH by lia. reflexivity.
Qed.

Lemma slice_length (s : str) (a b : nat) :
  a <= b -> b <= length s -> length (slice s a b) = b - a.
Proof.
  intros H1 H2. unfold slice. rewrite length_firstn, length_skipn. lia.
Qed.

Lemma firstn_firstn_app (s r : str) (a b : nat) :
  a <= b -> b <= length s -> firstn a (firstn b s ++ r) = firstn a s.
Proof.
  intros H1 H2. rewrite firstn_app, length_firstn.
  replace (a - Nat.min b (length s)) with 0 by lia.
  rewrite firstn_O, app_nil_r, firstn_firstn. f_equal. lia.
Qed.

Lemma skipn_firstn_app (s r : str) (b : nat) :
  b <= length s -> skipn b (firstn b s ++ r) = r.
Proof.
  intros H. rewrite skipn_app, length_firstn.
  replace (b - Nat.min b (length s)) with 0 by lia.
  rewrite skipn_all2 by (rewrite length_firstn; lia). reflexivity.
Qed.

Lemma slice_firstn_app (s r : str) (a b : nat) :
  a <= b -> b <= length s -> slice (firstn b s ++ r) a b = slice s a b.
Proof.
  intros H1 H2. unfold slice.
  rewrite skipn_app, length_firstn.
  replace (a - Nat.min b (length s)) with 0 by lia. cbn [skipn].
  rewrite firstn_app, length_skipn, length_firstn.
  replace (b - a - (Nat.min b (length s) - a)) with 0 by lia.
  rewrite firstn_O, app_nil_r, skipn_firstn_comm, firstn_firstn.
  f_equal. lia.
Qed.

Section GrammarFacts.
Context {U : UnicodeDB}.

Lemma fix_grammar_fold (check : str -> list GMatch) (text : str) :
  _fix_grammar check text =
  (fst (fold_right (fun m st => fix_step st m) (text, []) (check text)),
   rev (snd (fold_right (fun m st => fix_step st m) (text, []) (check text)))).
Proof.
  unfold _fix_grammar.
  rewrite <- (rev_involutive (check text)) at 2 3.
  rewrite !(fold_left_rev_right (fun m st => fix_step st m)).
  destruct (fold_left _ _ _). reflexivity.
Qed.

(** A turn of the loop on a text whose part before the end of the match
    is still that of the input. *)
Lemma fix_step_in_order (text rest : str) (chs : list Change) (m : GMatch) :
  offset m + errorLength m <= length text ->
  fix_step (firstn (offset m + errorLength m) text ++ rest, chs) m
  = (firstn (offset m) text ++ suggestion text m ++ rest,
     chs ++ edit_of text m).
Proof.
  intros Hb. assert (Hoe : offset m <= offset m + errorLength m) by lia.
  unfold fix_step, edit_of, suggestion.
  rewrite (slice_firstn_app text rest _ _ Hoe Hb).
  destruct (replacements m) as [|r rs].
  - rewrite app_nil_r, app_assoc, (firstn_slice text _ _ Hoe). reflexivity.
  - destruct (str_eqb (slice text (offset m) (offset m + errorLength m)) r)
      eqn:E.
    + apply str_eqb_eq in E. rewrite <- E.
      rewrite app_nil_r, app_assoc, (firstn_slice text _ _ Hoe). reflexivity.
    + rewrite (firstn_firstn_app text rest _ _ Hoe Hb),
        (skipn_firstn_app text rest _ Hb). reflexivity.
Qed.

(** The loop, from the last match back to the first: the text before the
    first match is still the text of the input, and what follows is
    spliced. *)
Lemma fix_fold_in_order (text : str) (ms : list GMatch) :
  forall pos, in_order pos ms (length text) ->
    fold_right (fun m st => fix_step st m) (text, []) ms
    = (firstn pos text ++ splice text pos ms,
       rev (flat_map (edit_of text) ms)).
Proof.
  induction ms as [|m ms IH]; intros pos H.
  - simpl. rewrite firstn_skipn. reflexivity.
  - destruct H as (Hp & Hb & H). cbn [fold_right]. rewrite (IH _ H).
    rewrite (fix_step_in_order text _ _ m Hb).
    cbn [splice flat_map]. rewrite rev_app_distr.
    rewrite (app_assoc (firstn pos text)), (firstn_slice text pos _ Hp).
    f_equal. unfold edit_of. destruct (replacements m) as [|r rs];
      [reflexivity|]. cbv zeta.
    destruct (str_eqb _ r); reflexivity.
Qed.

(** X1: when the matches that the tool reports lie in the text, in order
    of their offsets and without overlap, [_fix_grammar] returns the text
    with every match replaced by its first replacement, and the changes
    in the order of the text, the original of each being what the text of
    the input has at the match: applying the matches from the last to the
    first keeps the offsets of the others valid. *)
Theorem fix_grammar_in_order (check : str -> list GMatch) (text : str) :
  in_order 0 (check text) (length text) ->
  _fix_grammar check text
  = (splice text 0 (check text), flat_map (edit_of text) (check text)).
Proof.
  intros H. rewrite fix_grammar_fold, (fix_fold_in_order text _ 0 H).
  cbn [fst snd firstn app]. rewrite rev_involutive. reflexivity.
Qed.

(** The loop when no match stands for a change. *)
Lemma fix_fold_quiet (text : str) (ms : list GMatch) :
  (forall m, In m ms -> edit_of text m = []) ->
  fold_right (fun m st => fix_step st m) (text, []) ms = (text, []).
Proof.
  induction ms as [|m ms IH]; intros H; [reflexivity|].
  cbn [fold_right]. rewrite IH by (intros m' Hm; apply H; right; exact Hm).
  specialize (H m (or_introl eq_refl)). unfold edit_of in H.
  unfold fix_step. destruct (replacements m) as [|r rs]; [reflexivity|].
  cbv zeta in H.
  destruct (str_eqb (slice text (offset m) (offset m + errorLength m)) r);
    [reflexivity | discriminate].
Qed.

(** X2: when the tool has nothing to change (every match is without a
    replacement, or its first replacement is what the text already has
    there), [_fix_grammar] returns the text as it is and no change,
    whatever the offsets of the matches. *)
Theorem fix_grammar_nothing (check : str -> list GMatch) (text : str) :
  (forall m, In m (check text) -> edit_of text m = []) ->
  _fix_grammar check text = (text, []).
Proof.
  intros H. rewrite fix_grammar_fold, (fix_fold_quiet text _ H). reflexivity.
Qed.

Lemma splice_length (text : str) (ms : list GMatch) :
  forall pos, in_order pos ms (length text) -> pos <= length text ->
    length (splice text pos ms) + list_sum (map errorLength ms) + pos
    = length text + list_sum (map (fun m => length (suggestion text m)) ms).
Proof.
  induction ms as [|m ms IH]; intros pos H Hp.
  - simpl. rewrite length_skipn. lia.
  - destruct H as (H1 & H2 & H3). cbn [splice map].
    change (list_sum (errorLength m :: map errorLength ms))
      with (errorLength m + list_sum (map errorLength ms)).
    change (list_sum (length (suggestion text m)
                        :: map (fun m => length (suggestion text m)) ms))
      with (length (suggestion text m)
            + list_sum (map (fun m => length (suggestion text m)) ms)).
    rewrite !length_app, slice_length by lia.
    specialize (IH _ H3 H2). lia.
Qed.

(** X3: under the same condition the length of the corrected text is the
    length of the text, less the lengths of the matches, plus the lengths
    of what stands for them. *)
Theorem fix_grammar_length (check : str -> list GMatch) (text : str) :
  in_order 0 (check text) (length text) ->
  length (fst (_fix_grammar check text))
    + list_sum (map errorLength (check text))
  = length text
    + list_sum (map (fun m => length (suggestion text m)) (check text)).
Proof.
  intros H. rewrite fix_grammar_fold, (fix_fold_in_order text _ 0 H).
  cbn [fst firstn app].
  pose proof (splice_length text _ 0 H (Nat.le_0_l _)). lia.
Qed.

(** X4: a match that starts at or past the end of the text does not
    raise: slicing stops at the end, the original recorded is the empty
    string and the replacement is put at the end of the text. *)
Theorem fix_grammar_past_end (check : str -> list GMatch) (text : str)
    (m : GMatch) (r : str) (rs : list str) :
  check text = [m] -> replacements m = r :: rs -> r <> [] ->
  length text <= offset m ->
  _fix_grammar check text
  = (text ++ r,
     [{| type := _classify_match m; original := []; replacement := r |}]).
Proof.
  intros Hc Hr Hne Ho. unfold _fix_grammar. rewrite Hc.
  cbn [rev app fold_left]. unfold fix_step. rewrite Hr. unfold slice.
  rewrite !skipn_all2 by lia. rewrite firstn_nil, firstn_all2 by lia.
  destruct r as [|c r]; [contradiction|]. cbn [str_eqb rev app].
  rewrite app_nil_r. reflexivity.
Qed.
End GrammarFacts.

Lemma fix_grammar_in_order_witness :
  _fix_grammar (U := ascii_db)
    (fun _ => [ {| offset := 0; errorLength := 1; replacements := [py "I"];
                   ruleId := Some (py "I_LOWERCASE"); category := None |};
                {| offset := 5; errorLength := 5;
                   replacements := [py "happy"; py "harpy"];
                   ruleId := Some (py "HUNSPELL_RULE");
                   category := Some (py "Possible Typo") |} ])
    (py "i am hapyy today.")
  = (py "I am happy today.",
     [ {| type := py "grammar"; original := py "i"; replacement := py "I" |};
       {| type := py "spelling"; original := py "hapyy";
          replacement := py "happy" |} ]).
Proof.
  rewrite fix_grammar_in_order; [reflexivity|].
  vm_compute. repeat split; lia.
Defined.

Lemma fix_grammar_nothing_witness :
  _fix_grammar (U := ascii_db)
    (fun _ => [ {| offset := 40; errorLength := 3; replacements := [];
                   ruleId := None; category := None |};
                {| offset := 0; errorLength := 2; replacements := [py "It"];
                   ruleId := None; category := None |} ])
    (py "It is fine.")
  = (py "It is fine.", []).
Proof.
  apply fix_grammar_nothing. intros m [<- | [<- | []]]; reflexivity.
Defined.

Lemma fix_grammar_length_witness :
  length (fst (_fix_grammar (U := ascii_db)
    (fun _ => [ {| offset := 3; errorLength := 2; replacements := [py "goes"];
                   ruleId := None; category := None |} ])
    (py "He go to school."))) + 2
  = 16 + 4.
Proof.
  apply (fix_grammar_length (U := ascii_db)
           (fun _ => [ {| offset := 3; errorLength := 2;
                          replacements := [py "goes"];
                          ruleId := None; category := None |} ])
           (py "He go to school.")).
  vm_compute. repeat split; lia.
Defined.

Lemma fix_grammar_past_end_witness :
  _fix_grammar (U := ascii_db)
    (fun _ => [ {| offset := 9; errorLength := 1; replacements := [py "."];
                   ruleId := Some (py "PUNCTUATION_PARAGRAPH_END");
                   category := None |} ])
    (py "A test")
  = (py "A test.",
     [ {| type := py "punctuation"; original := [];
          replacement := py "." |} ]).
Proof.
  exact (fix_grammar_past_end (U := ascii_db)
           (fun _ => [ {| offset := 9; errorLength := 1;
                          replacements := [py "."];
                          ruleId := Some (py "PUNCTUATION_PARAGRAPH_END");
                          category := None |} ])
           (py "A test") _ (py ".") [] eq_refl eq_refl
           ltac:(discriminate) ltac:(simpl; lia)).
Defined.

(** ** The kinds of changes *)

Section Kinds.
Context {U : UnicodeDB}.

Lemma upper_ascii (s : str) :
  forallb is_ascii s = true -> upper s = map ascii_upper s.
Proof.
  unfold upper. induction s as [|c s IH]; simpl; [reflexivity|].
  intros H. apply andb_true_iff in H. destruct H as [Hc H].
  unfold cp_upper at 1. rewrite Hc, (IH H). reflexivity.
Qed.

(** X5: the rule id and the category of a match are compared without
    regard to the case of ASCII letters, and a missing one counts as the
    empty string: two matches whose rule ids, and whose categories, are
    ASCII and equal once put in capitals are classified alike. *)
Theorem classify_ignores_case (m m' : GMatch) :
  forallb is_ascii (or_empty (ruleId m)) = true ->
  forallb is_ascii (or_empty (ruleId m')) = true ->
  forallb is_ascii (or_empty (category m)) = true ->
  forallb is_ascii (or_empty (category m')) = true ->
  map ascii_upper (or_empty (ruleId m)) = map ascii_upper (or_empty (ruleId m')) ->
  map ascii_upper (or_empty (category m))
  = map ascii_upper (or_empty (category m')) ->
  _classify_match m = _classify_match m'.
Proof.
  intros A1 A2 A3 A4 E1 E2. unfold _classify_match.
  rewrite !upper_ascii by assumption. rewrite E1, E2. reflexivity.
Qed.

Lemma classify_type (m : GMatch) : In (_classify_match m) change_types.
Proof.
  unfold _classify_match, change_types. cbv zeta.
  destruct (_ || _ || _); [simpl; auto|].
  destruct (_ || _ || _); simpl; auto.
Qed.

Lemma fix_step_types (st : str * list Change) (m : GMatch) :
  Forall (fun c => In (type c) change_types) (snd st) ->
  Forall (fun c => In (type c) change_types) (snd (fix_step st m)).
Proof.
  destruct st as [corrected chs]. unfold fix_step. intros H.
  destruct (replacements m) as [|r rs]; [exact H|].
  destruct (str_eqb _ r); [exact H|]. cbn [snd].
  apply Forall_app. split; [exact H|]. constructor; [|constructor].
  apply classify_type.
Qed.

Lemma fix_grammar_types (check : str -> list GMatch) (text : str) :
  Forall (fun c => In (type c) change_types) (snd (_fix_grammar check text)).
Proof.
  rewrite fix_grammar_fold. cbn [snd]. apply Forall_rev.
  induction (check text) as [|m ms IH]; [constructor|].
  cbn [fold_right]. apply fix_step_types. exact IH.
Qed.

(** What the turn of the loop for a token records. *)
Lemma changes_of_facts (mapping : dict) (sw : list str)
    (spans : list (nat * nat)) (m : Match) (c : Change) :
  In c (changes_of mapping sw spans m) ->
  type c = py "spelling"
  /\ original c <> replacement c
  /\ original c = group m
  /\ in_url spans (m_start m) = false
  /\ isalpha (group m) = true
  /\ mem (lower (group m)) sw = true
  /\ exists r, dict_get mapping (lower (group m)) = Some r
               /\ _match_case (group m) r = Some (replacement c).
Proof.
  intros Hc. unfold changes_of in Hc. rewrite convert_token_eq in Hc.
  destruct (in_url spans (m_start m)) eqn:Eu; [destruct Hc|].
  cbn [orb] in Hc.
  destruct (isalpha (group m)) eqn:Ea; [|destruct Hc]. cbn [negb] in Hc.
  destruct (mem (lower (group m)) sw) eqn:Em; [|destruct Hc].
  destruct (dict_get mapping (lower (group m))) as [r|] eqn:Eg;
    [|destruct Hc].
  destruct (_match_case (group m) r) as [r1|] eqn:Ec; [|destruct Hc].
  destruct (str_eqb r1 (group m)) eqn:Eq; [destruct Hc|].
  cbn [negb] in Hc. destruct Hc as [<- | []]. cbn [type original replacement].
  apply str_eqb_neq in Eq. split; [reflexivity|].
  split; [intros E'; apply Eq; symmetry; exact E'|].
  repeat split; try assumption. exists r. split; [reflexivity | exact Ec].
Qed.

(** X6: every change that the conversion records is of type "spelling",
    its original and its replacement differ, and it comes from a token of
    the text that is outside the protected spans: the original is the
    token, lower-cased it is a word of the source set, and the replacement
    is the case projection of the entry of the mapping. *)
Theorem convert_changes (text variant out : str) (chs : list Change) :
  _convert_variant text variant = Some (out, chs) ->
  forall c, In c chs ->
    type c = py "spelling"
    /\ original c <> replacement c
    /\ exists m r,
         In m (finditer _TOKEN_RE text)
         /\ original c = group m
         /\ in_url (url_spans_of text) (m_start m) = false
         /\ mem (lower (group m)) (snd (select variant)) = true
         /\ dict_get (fst (select variant)) (lower (group m)) = Some r
         /\ _match_case (group m) r = Some (replacement c).
Proof.
  rewrite convert_variant_spec. intros [= _ <-] c Hc.
  apply in_flat_map in Hc. destruct Hc as (m & Hm & Hc).
  destruct (changes_of_facts _ _ _ m c Hc)
    as (H1 & H2 & H3 & H4 & _ & H5 & r & H6 & H7).
  split; [exact H1|]. split; [exact H2|].
  exists m, r. repeat split; assumption.
Qed.

Lemma convert_types (text variant out : str) (chs : list Change) :
  _convert_variant text variant = Some (out, chs) ->
  Forall (fun c => In (type c) change_types) chs.
Proof.
  rewrite convert_variant_spec. intros [= _ <-].
  apply Forall_forall. intros c Hc.
  apply in_flat_map in Hc. destruct Hc as (m & _ & Hc).
  destruct (changes_of_facts _ _ _ m c Hc) as [-> _].
  left. reflexivity.
Qed.

(** X7: [correct] raises nothing, whatever the tool reports: it returns
    the conversion of the text that the grammar stage returns, and the
    changes of the grammar stage followed by those of the conversion; and
    every change has one of the three types that the schema of [Change]
    allows. *)
Theorem correct_total (check : str -> list GMatch) (text variant : str) :
  exists out spelling_changes,
    _convert_variant (fst (_fix_grammar check text)) variant
    = Some (out, spelling_changes)
    /\ correct check text variant
       = Some (out, snd (_fix_grammar check text) ++ spelling_changes)
    /\ Forall (fun c => In (type c) change_types)
         (snd (_fix_grammar check text) ++ spelling_changes).
Proof.
  unfold correct. pose proof (fix_grammar_types check text) as T.
  destruct (_fix_grammar check text) as [fixed gch]. cbn [fst snd] in *.
  pose proof (convert_variant_spec fixed variant) as E.
  rewrite E. eexists; eexists. split; [reflexivity|]. split; [reflexivity|].
  apply Forall_app. split; [exact T|].
  exact (convert_types fixed variant _ _ E).
Qed.

(** X8: when the tool has nothing to change in the text, [correct] is the
    conversion alone. *)
Theorem correct_quiet_tool (check : str -> list GMatch) (text variant : str) :
  (forall m, In m (check text) -> edit_of text m = []) ->
  correct check text variant = _convert_variant text variant.
Proof.
  intros H. unfold correct.
  rewrite fix_grammar_fold, (fix_fold_quiet text _ H). cbn [fst snd rev].
  destruct (_convert_variant text variant) as [[out chs]|]; reflexivity.
Qed.
End Kinds.

Lemma classify_ignores_case_witness :
  _classify_match (U := ascii_db)
    {| offset := 0; errorLength := 0; replacements := [];
       ruleId := Some (py "comma_parenthesis_whitespace"); category := None |}
  = py "punctuation".
Proof.
  rewrite (classify_ignores_case (U := ascii_db) _
             {| offset := 7; errorLength := 2; replacements := [];
                ruleId := Some (py "COMMA_PARENTHESIS_WHITESPACE");
                category := Some [] |}); reflexivity.
Defined.

Lemma convert_changes_witness :
  exists m r,
    In m (finditer _TOKEN_RE (py "My Favorite color"))
    /\ py "Favorite" = group m
    /\ dict_get (fst (select (py "uk"))) (lower (U := ascii_db) (group m))
       = Some r
    /\ _match_case (U := ascii_db) (group m) r = Some (py "Favourite").
Proof.
  destruct (convert_changes (U := ascii_db) (py "My Favorite color") (py "uk")
              (py "My Favourite colour")
              [spelling (py "Favorite") (py "Favourite");
               spelling (py "color") (py "colour")] eq_refl
              (spelling (py "Favorite") (py "Favourite")) (or_introl eq_refl))
    as (_ & _ & m & r & H1 & H2 & _ & _ & H5 & H6).
  exists m, r. repeat split; assumption.
Defined.

Lemma correct_quiet_tool_witness :
  correct (U := ascii_db) (fun _ => []) (py "The center") (py "uk")
  = Some (py "The centre", [spelling (py "center") (py "centre")]).
Proof.
  rewrite (correct_quiet_tool (U := ascii_db) (fun _ => []));
    [reflexivity | intros m []].
Defined.

(** * The request and the response *)

Lemma run_all (p : cp -> bool) (s : str) :
  forallb p s = true -> run p s = length s.
Proof.
  intros H. rewrite <- (app_nil_r s) at 1.
  rewrite (run_app_all p s [] H). simpl. lia.
Qed.

Lemma run_stop (p : cp -> bool) (s : str) :
  forallb p s = false ->
  exists c r, skipn (run p s) s = c :: r /\ p c = false.
Proof.
  induction s as [|c s IH]; simpl; [discriminate|].
  destruct (p c) eqn:E; simpl.
  - exact IH.
  - intros _. exists c, s. auto.
Qed.

Lemma lstrip_nil (s : str) : lstrip s = [] <-> forallb is_space s = true.
Proof.
  unfold lstrip. split.
  - intros H. destruct (forallb is_space s) eqn:E; [reflexivity|].
    destruct (run_stop is_space s E) as (c & r & E' & _). congruence.
  - intros H. rewrite (run_all _ _ H). apply skipn_all.
Qed.

Lemma forallb_rev {A} (p : A -> bool) (l : list A) :
  forallb p (rev l) = forallb p l.
Proof.
  induction l as [|x l IH]; [reflexivity|]. simpl.
  rewrite forallb_app, IH. simpl. rewrite andb_true_r. apply andb_comm.
Qed.

Lemma strip_nil (s : str) : str_strip s = [] <-> forallb is_space s = true.
Proof.
  unfold str_strip, rstrip. split.
  - intros H. destruct (forallb is_space s) eqn:E; [reflexivity|].
    destruct (run_stop is_space s E) as (c & r & E' & Hc).
    fold (lstrip s) in E'. rewrite E' in H.
    assert (H' : lstrip (rev (c :: r)) = []).
    { destruct (lstrip (rev (c :: r))) as [|d l]; [reflexivity|].
      simpl in H. apply app_eq_nil in H. destruct H; discriminate. }
    apply lstrip_nil in H'. rewrite forallb_rev in H'. simpl in H'.
    rewrite Hc in H'. discriminate.
  - intros H. apply lstrip_nil in H. rewrite H. reflexivity.
Qed.

(** X9: the validator of the text of a request rejects exactly the texts
    without a character other than white space, the empty text among
    them, and returns every other text as it was sent: nothing is
    trimmed. *)
Theorem text_must_not_be_empty_spec (v : str) :
  schemas.text_must_not_be_empty v
  = if forallb is_space v then None else Some v.
Proof.
  unfold schemas.text_must_not_be_empty.
  destruct (forallb is_space v) eqn:E.
  - apply strip_nil in E. rewrite E. reflexivity.
  - destruct (str_strip v) eqn:S; [|reflexivity].
    apply strip_nil in S. congruence.
Qed.


(** * Tokens and spans *)

Lemma matches_of_split (L1 : list Match) :
  forall pos l a L2, matches_of pos l = L1 ++ a :: L2 ->
    l = map group L1 ++ group a :: map group L2
    /\ m_start a = pos + length (concat (map group L1))
    /\ m_end a = m_start a + length (group a).
Proof.
  induction L1 as [|x L1 IH]; intros pos l a L2 H.
  - destruct l as [|t l]; [discriminate|]. cbn [matches_of app] in H.
    injection H as <- <-. cbn [map group m_start m_end concat length].
    rewrite map_group_matches_of. repeat split; lia.
  - destruct l as [|t l]; [discriminate|]. cbn [matches_of app] in H.
    injection H as <- H. destruct (IH _ _ _ _ H) as (-> & E1 & E2).
    cbn [map group concat]. rewrite length_app. repeat split; lia.
Qed.

Lemma chunked_app_r (l1 l2 : list str) : chunked (l1 ++ l2) -> chunked l2.
Proof.
  induction l1 as [|t l1 IH]; [auto|]. intros H. inversion H; subst. auto.
Qed.

Lemma slice_app (a t b : str) :
  slice (a ++ t ++ b) (length a) (length a + length t) = t.
Proof.
  unfold slice. rewrite skipn_exact.
  replace (length a + length t - length a) with (length t) by lia.
  rewrite firstn_app, Nat.sub_diag, firstn_O, app_nil_r. apply firstn_all.
Qed.

(** X11: the tokens cover the text without a gap, each is a non-empty run
    of letters alone or of other characters alone, and letters and other
    characters alternate from a token to the next, so that every run is
    maximal.  The first token starts at 0, each token starts where the one
    before ends, the last ends at the end of the text, and the group of a
    token is the text between its offsets. *)
Theorem tokens_maximal_runs (text : str) :
  (forall m, In m (finditer _TOKEN_RE text) ->
     group m <> [] /\ uniform (group m) = true
     /\ m_end m = m_start m + length (group m)
     /\ group m = slice text (m_start m) (m_end m))
  /\ (forall l1 a b l2, finditer _TOKEN_RE text = l1 ++ a :: b :: l2 ->
        m_start b = m_end a /\ kind (group b) = negb (kind (group a)))
  /\ (forall m l2, finditer _TOKEN_RE text = m :: l2 -> m_start m = 0)
  /\ (forall l1 m, finditer _TOKEN_RE text = l1 ++ [m] ->
        m_end m = length text).
Proof.
  destruct (tokens_chunks text) as (l & C & E & ->).
  split; [|split; [|split]].
  - intros m Hm. apply in_split in Hm. destruct Hm as (L1 & L2 & H).
    destruct (matches_of_split L1 0 l m L2 H) as (El & E1 & E2).
    pose proof (chunked_uniform l C) as F. rewrite El in F.
    apply Forall_app in F. destruct F as [_ F].
    apply Forall_inv in F. destruct F as [Hne Hu].
    repeat split; try assumption.
    rewrite <- E, El, concat_app. cbn [concat]. rewrite E2, E1. cbn [Nat.add].
    symmetry. apply slice_app.
  - intros l1 a b l2 H.
    destruct (matches_of_split l1 0 l a (b :: l2) H) as (El & E1 & E2).
    change (l1 ++ a :: b :: l2) with (l1 ++ [a] ++ b :: l2) in H.
    rewrite app_assoc in H.
    destruct (matches_of_split (l1 ++ [a]) 0 l b l2 H) as (_ & E3 & _).
    rewrite map_app, concat_app, length_app in E3. cbn [map concat] in E3.
    rewrite app_nil_r in E3. split; [lia|].
    rewrite El in C. apply chunked_app_r in C.
    inversion C as [|? ? _ _ Hk _]; subst. apply Hk. reflexivity.
  - intros m l2 H. destruct (matches_of_split [] 0 l m l2 H) as (_ & E1 & _).
    exact E1.
  - intros l1 m H. destruct (matches_of_split l1 0 l m [] H) as (El & E1 & E2).
    rewrite <- E, El, concat_app, length_app. cbn [map concat].
    rewrite !app_nil_r. lia.
Qed.

(** The matches of a scan lie in the text, in order and without overlap,
    and the group of each is the text between its offsets. *)
Lemma scan_within (r : regex) (s : str) :
  forall skip pos pre m, length pre = pos ->
    In m (scan r skip pos s) ->
    pos + skip <= m_start m /\ m_start m <= m_end m
    /\ m_end m <= pos + length s
    /\ group m = slice (pre ++ s) (m_start m) (m_end m).
Proof.
  induction s as [|c s IH]; intros skip pos pre m Hp; [contradiction|].
  assert (Step : forall j, In m (scan r j (S pos) s) ->
            S pos + j <= m_start m /\ m_start m <= m_end m
            /\ m_end m <= S pos + length s
            /\ group m = slice (pre ++ c :: s) (m_start m) (m_end m)).
  { intros j Hm.
    change (pre ++ c :: s) with (pre ++ [c] ++ s). rewrite app_assoc.
    apply (IH j (S pos) (pre ++ [c]) m); [|exact Hm].
    rewrite length_app. simpl. lia. }
  cbn [scan]. destruct skip as [|j].
  - destruct (match_at r (c :: s)) as [n|] eqn:E.
    + pose proof (match_at_le _ _ _ E) as Hn.
      intros [<- | Hm].
      * cbn [m_start m_end group]. repeat split; try lia.
        rewrite <- Hp. unfold slice. rewrite skipn_exact. f_equal. lia.
      * destruct (Step _ Hm) as (H1 & H2 & H3 & H4). cbn [length].
        repeat split; try lia. exact H4.
    + intros Hm. destruct (Step _ Hm) as (H1 & H2 & H3 & H4). cbn [length].
      repeat split; try lia. exact H4.
  - intros Hm. destruct (Step _ Hm) as (H1 & H2 & H3 & H4). cbn [length].
    repeat split; try lia. exact H4.
Qed.

Lemma scan_sorted (r : regex) (s : str) :
  forall skip pos,
    StronglySorted (fun a b => m_end a <= m_start b) (scan r skip pos s).
Proof.
  induction s as [|c s IH]; intros skip pos; [constructor|].
  cbn [scan]. destruct skip as [|j]; [|apply IH].
  destruct (match_at r (c :: s)) as [n|] eqn:E; [|apply IH].
  constructor; [apply IH|]. apply Forall_forall. intros m Hm.
  destruct (scan_within r s (pred n) (S pos) (repeat c (S pos)) m
              (repeat_length c (S pos)) Hm) as (H & _).
  cbn [m_end]. lia.
Qed.

(** *** No white space in a protected span *)

Lemma local_not_space (c : cp) : local_part c = true -> not_space c = true.
Proof.
  intros H.
  assert (B : (37 <= c /\ c <= 122)%N).
  { unfold local_part in H. repeat rewrite orb_true_iff in H.
    destruct H as [[[[[[H|H]|H]|H]|H]|H]|H].
    - apply az_letter_bounds in H. lia.
    - unfold is_digit, between in H. apply andb_true_iff in H.
      destruct H as [D1 D2]. apply N.leb_le in D1, D2. lia.
    - apply N.eqb_eq in H. subst c. vm_compute. split; discriminate.
    - apply N.eqb_eq in H. subst c. vm_compute. split; discriminate.
    - apply N.eqb_eq in H. subst c. vm_compute. split; discriminate.
    - apply N.eqb_eq in H. subst c. vm_compute. split; discriminate.
    - apply N.eqb_eq in H. subst c. vm_compute. split; discriminate. }
  unfold not_space, is_space, between.
  repeat match goal with
    | |- context [N.leb ?a ?b] => destruct (N.leb_spec a b); try lia
    | |- context [N.eqb ?a ?b] => destruct (N.eqb_spec a b); try lia
    end; reflexivity.
Qed.

Lemma domain_local (c : cp) : domain_part c = true -> local_part c = true.
Proof.
  unfold domain_part, local_part.
  destruct (az_letter c), (is_digit c), (chr "." c), (chr "-" c),
    (chr "_" c), (chr "%" c), (chr "+" c); simpl; auto.
Qed.

Lemma forallb_firstn_run (p q : cp -> bool) (s : str) :
  (forall c, p c = true -> q c = true) ->
  forallb q (firstn (run p s) s) = true.
Proof.
  intros H. pose proof (run_firstn p s) as F.
  rewrite forallb_forall in *. intros c Hc. apply H, F, Hc.
Qed.

Lemma strip_firstn (pre s r : str) :
  strip pre s = Some r -> firstn (length pre) s = pre /\ skipn (length pre) s = r.
Proof.
  intros H. apply strip_Some in H. subst s.
  rewrite skipn_exact, firstn_app, Nat.sub_diag, firstn_O, app_nil_r, firstn_all.
  auto.
Qed.

Lemma rest_of_url_no_space (pre s r : str) (n : nat) :
  strip pre s = Some r -> forallb not_space pre = true ->
  rest_of_url (length pre) r = Some n ->
  forallb not_space (firstn n s) = true.
Proof.
  intros Hs Hp. unfold rest_of_url. rewrite rep_k0.
  destruct (1 <=? run not_space r); [|discriminate]. intros [= <-].
  apply strip_Some in Hs. subst s.
  rewrite firstn_app, forallb_app.
  replace (length pre + run not_space r - length pre) with (run not_space r)
    by lia.
  rewrite firstn_all2 by lia. rewrite Hp, run_firstn. reflexivity.
Qed.

(** What follows the start of the domain stays inside the run of the
    characters of a domain. *)
Lemma rep_domain_inside (s : str) :
  forall min n, rep domain_part min s after_domain = Some n ->
    forallb domain_part (firstn n s) = true.
Proof.
  induction s as [|c s IH]; intros min n.
  - simpl. destruct min; discriminate.
  - cbn [rep].
    assert (Stop : match min with 0 => after_domain (c :: s) | S _ => None end
                   = Some n -> forallb domain_part (firstn n (c :: s)) = true).
    { destruct min; [|discriminate]. unfold after_domain.
      destruct (chr "." c) eqn:Ec; [|discriminate]. rewrite rep_k0.
      destruct (2 <=? run az_letter s); [|discriminate]. intros [= <-].
      cbn [firstn forallb]. unfold domain_part at 1. rewrite Ec.
      rewrite orb_true_r. cbn [orb andb].
      apply forallb_firstn_run. exact letter_domain. }
    destruct (domain_part c) eqn:Ed; [|exact Stop].
    destruct (rep domain_part (pred min) s after_domain) as [k|] eqn:E;
      [|exact Stop].
    intros [= <-]. cbn [firstn forallb]. rewrite Ed. exact (IH _ _ E).
Qed.

Lemma forallb_impl (p q : cp -> bool) (s : str) :
  (forall c, p c = true -> q c = true) ->
  forallb p s = true -> forallb q s = true.
Proof.
  intros H F. rewrite forallb_forall in *. intros c Hc. apply H, F, Hc.
Qed.

Lemma firstn_plus (a b : nat) (s : str) :
  firstn (a + b) s = firstn a s ++ firstn b (skipn a s).
Proof.
  revert s; induction a as [|a IH]; intros s; [reflexivity|].
  destruct s as [|c s]; [destruct b; reflexivity|].
  cbn [Nat.add firstn skipn app]. rewrite IH. reflexivity.
Qed.

Lemma http_url_no_space (s : str) (n : nat) :
  rmatch http_url s k0 = Some n -> forallb not_space (firstn n s) = true.
Proof.
  rewrite http_url_spec.
  destruct (strip (py "https://") s) as [r|] eqn:S1.
  { intros R. exact (rest_of_url_no_space (py "https://") s r n S1 eq_refl R). }
  destruct (strip (py "http://") s) as [r|] eqn:S2; [|discriminate].
  intros R. exact (rest_of_url_no_space (py "http://") s r n S2 eq_refl R).
Qed.

Lemma www_host_no_space (s : str) (n : nat) :
  rmatch www_host s k0 = Some n -> forallb not_space (firstn n s) = true.
Proof.
  rewrite www_host_spec.
  destruct (strip (py "www.") s) as [r|] eqn:S1; [|discriminate].
  intros R. exact (rest_of_url_no_space (py "www.") s r n S1 eq_refl R).
Qed.

Lemma email_no_space (s : str) (n : nat) :
  rmatch email s k0 = Some n -> forallb not_space (firstn n s) = true.
Proof.
  rewrite email_spec.
  destruct (1 <=? run local_part s); [|discriminate].
  destruct (after_local (skipn (run local_part s) s)) as [k|] eqn:A;
    [|discriminate].
  cbn [option_map]. intros [= <-]. rewrite firstn_plus, forallb_app.
  rewrite (forallb_firstn_run local_part not_space s local_not_space).
  cbn [andb]. destruct (skipn (run local_part s) s) as [|c x]; [discriminate|].
  cbn [after_local] in A. destruct (chr "@" c) eqn:Ec; [|discriminate].
  destruct (rep domain_part 1 x after_domain) as [j|] eqn:R; [|discriminate].
  cbn [option_map] in A. injection A as <-. cbn [firstn forallb].
  apply N.eqb_eq in Ec. subst c. apply andb_true_iff. split; [reflexivity|].
  apply (forallb_impl domain_part); [|exact (rep_domain_inside x 1 j R)].
  intros c Hc. apply local_not_space, domain_local, Hc.
Qed.

Lemma URL_RE_no_space (s : str) (n : nat) :
  match_at _URL_RE s = Some n -> forallb not_space (firstn n s) = true.
Proof.
  rewrite match_at_URL.
  destruct (rmatch http_url s k0) as [a|] eqn:E1.
  { intros [= <-]. exact (http_url_no_space s a E1). }
  destruct (rmatch www_host s k0) as [b|] eqn:E2.
  { intros [= <-]. exact (www_host_no_space s b E2). }
  apply email_no_space.
Qed.

Lemma scan_groups (r : regex) (P : str -> Prop) :
  (forall s n, match_at r s = Some n -> P (firstn n s)) ->
  forall s skip pos m, In m (scan r skip pos s) -> P (group m).
Proof.
  intros H. induction s as [|c s IH]; intros skip pos m; [contradiction|].
  cbn [scan]. destruct skip as [|j]; [|apply IH].
  destruct (match_at r (c :: s)) as [n|] eqn:E; [|apply IH].
  intros [<- | Hm]; [exact (H _ _ E) | exact (IH _ _ _ Hm)].
Qed.

Lemma URL_RE_group (s : str) (n : nat) :
  match_at _URL_RE s = Some n ->
  firstn n s <> [] /\ forallb not_space (firstn n s) = true.
Proof.
  intros E. split; [|exact (URL_RE_no_space s n E)].
  pose proof (URL_RE_nonempty s n E) as H0.
  pose proof (match_at_le _ s n E) as H1. intros Z.
  apply (f_equal (@length cp)) in Z. rewrite length_firstn in Z. simpl in Z.
  lia.
Qed.

Lemma sorted_app_r (R : Match -> Match -> Prop) (l1 l2 : list Match) :
  StronglySorted R (l1 ++ l2) -> StronglySorted R l2.
Proof.
  induction l1 as [|x l1 IH]; [auto|]. intros H.
  apply StronglySorted_inv in H. apply IH, H.
Qed.

(** X12: the spans that [_URL_RE] finds lie in the text, one after the
    other without overlap; none is empty, none holds white space, and the
    group of each is the text between its offsets. *)
Theorem url_spans_disjoint (text : str) :
  (forall m, In m (finditer _URL_RE text) ->
     m_start m < m_end m /\ m_end m <= length text
     /\ group m = slice text (m_start m) (m_end m)
     /\ existsb is_space (group m) = false)
  /\ (forall l1 a l2 b l3, finditer _URL_RE text = l1 ++ a :: l2 ++ b :: l3 ->
        m_end a <= m_start b).
Proof.
  split.
  - intros m Hm. unfold finditer in Hm.
    destruct (scan_within _URL_RE text 0 0 [] m eq_refl Hm)
      as (_ & H2 & H3 & H4).
    pose proof (scan_groups _URL_RE
                  (fun g => g <> [] /\ forallb not_space g = true)) as G.
    destruct (G URL_RE_group text 0 0 m Hm) as [Hne Hsp].
    cbn [app Nat.add] in H3, H4.
    assert (Hlen : length (group m) = m_end m - m_start m).
    { rewrite H4. unfold slice. rewrite length_firstn, length_skipn. lia. }
    repeat split.
    + destruct (group m); [congruence|]. simpl in Hlen. lia.
    + exact H3.
    + exact H4.
    + clear - Hsp. induction (group m) as [|c g IH]; [reflexivity|].
      cbn [forallb existsb] in *. apply andb_true_iff in Hsp.
      destruct Hsp as [Hc Hg]. unfold not_space in Hc.
      destruct (is_space c); [discriminate|]. exact (IH Hg).
  - intros l1 a l2 b l3 H. pose proof (scan_sorted _URL_RE text 0 0) as S.
    unfold finditer in H. rewrite H in S.
    apply sorted_app_r in S.
    apply StronglySorted_inv in S. destruct S as [_ F].
    rewrite Forall_forall in F. apply F. apply in_or_app. right. left.
    reflexivity.
Qed.

Lemma tokens_maximal_runs_witness :
  py ", " = slice (py "ab, c") 2 4.
Proof.
  destruct (tokens_maximal_runs (py "ab, c")) as (H & _).
  destruct (H {| m_start := 2; m_end := 4; group := py ", " |})
    as (_ & _ & _ & E); [vm_compute; right; left; reflexivity|].
  exact E.
Defined.

Lemma url_spans_disjoint_witness :
  existsb is_space (py "www.a.bc") = false.
Proof.
  destruct (url_spans_disjoint (py "see www.a.bc now")) as (H & _).
  destruct (H {| m_start := 4; m_end := 12; group := py "www.a.bc" |})
    as (_ & _ & _ & E); [vm_compute; left; reflexivity|].
  exact E.
Defined.

(** * What the conversion keeps *)

Lemma tokens_join (text : str) :
  concat (map group (finditer _TOKEN_RE text)) = text.
Proof.
  destruct (tokens_chunks text) as (l & _ & E & ->).
  rewrite map_group_matches_of. exact E.
Qed.

Lemma token_uniform (text : str) (m : Match) :
  In m (finditer _TOKEN_RE text) -> group m <> [] /\ uniform (group m) = true.
Proof.
  destruct (tokens_chunks text) as (l & C & _ & ->). intros Hm.
  pose proof (chunked_uniform l C) as F. rewrite Forall_forall in F.
  apply F. rewrite <- (map_group_matches_of l 0). apply in_map. exact Hm.
Qed.

Lemma filter_letters (w : str) : letters w -> filter not_letter w = [].
Proof.
  unfold letters, not_letter. induction w as [|c w IH]; [reflexivity|].
  cbn [forallb filter]. intros H. apply andb_true_iff in H.
  destruct H as [Hc H]. rewrite Hc. cbn [negb]. exact (IH H).
Qed.

Lemma pieces_filter (L : list (str * str)) :
  pieces L -> filter not_letter (lhs L) = filter not_letter (rhs L).
Proof.
  induction 1 as [|c L Hc _ IH|w w' L (_ & _ & Hw & Hw' & _) _ _ IH].
  - reflexivity.
  - rewrite lhs_cons, rhs_cons, !filter_app, IH. reflexivity.
  - rewrite lhs_cons, rhs_cons, !filter_app, IH.
    rewrite (filter_letters w Hw), (filter_letters w' Hw'). reflexivity.
Qed.

Lemma map_eq_pointwise {A B} (f g : A -> B) (l : list A) :
  map f l = map g l -> forall x, In x l -> f x = g x.
Proof.
  induction l as [|a l IH]; [intros _ x []|].
  cbn [map]. intros [= E1 E2] x [<- | Hx]; [exact E1 | exact (IH E2 x Hx)].
Qed.

Lemma flat_map_nil {A B} (f : A -> list B) (l : list A) :
  flat_map f l = [] <-> forall x, In x l -> f x = [].
Proof.
  induction l as [|a l IH]; cbn [flat_map].
  - split; [intros _ x [] | reflexivity].
  - split.
    + intros H. apply app_eq_nil in H. destruct H as [H1 H2].
      intros x [<- | Hx]; [exact H1 | exact (proj1 IH H2 x Hx)].
    + intros H. rewrite (H a (or_introl eq_refl)).
      apply IH. intros x Hx. apply H. right. exact Hx.
Qed.

Section Kept.
Context {U : UnicodeDB}.
Variable variant : str.

Local Abbreviation mapping := (fst (select variant)).
Local Abbreviation sw := (snd (select variant)).

(** A turn of the loop records nothing exactly when it emits the token. *)
Lemma part_changes (spans : list (nat * nat)) (m : Match) :
  group m <> [] ->
  (changes_of mapping sw spans m = [] <-> part_of mapping sw spans m = group m).
Proof.
  intros Hne. unfold changes_of, part_of.
  destruct (convert_token_total mapping sw spans (select_ok variant) m Hne)
    as (c & p & -> & [[-> ->] | [-> Hp]]); cbn [concat]; rewrite app_nil_r.
  - split; reflexivity.
  - split; [discriminate | intros E; contradiction].
Qed.

Lemma parts_crel_tokens (spans : list (nat * nat)) (l : list str) :
  lower_off_tables ->
  Forall (fun t => t <> [] /\ uniform t = true) l ->
  forall pos pos',
    Forall2 stands_for (matches_of pos l)
      (matches_of pos' (map (part_of mapping sw spans) (matches_of pos l))).
Proof.
  intros HU F. induction F as [|t l [Hne Hu] _ IH]; intros pos pos';
    cbn [matches_of map]; constructor; [|apply IH].
  pose proof (proj1 (part_facts HU variant spans
                       {| m_start := pos; m_end := pos + length t; group := t |}
                       Hne Hu)) as C.
  unfold crel in C. unfold stands_for. cbn [fst snd group] in *.
  destruct (kind t); [|exact C].
  destruct C as (_ & H1 & _ & H2 & _). split; assumption.
Qed.
End Kept.

(** X13: a text none of whose tokens is, in lower case, a word of the
    source set comes back as it is, with no change recorded. *)
Theorem convert_no_source_word {U : UnicodeDB} (text variant : str) :
  (forall m, In m (finditer _TOKEN_RE text) ->
     mem (lower (group m)) (snd (select variant)) = false) ->
  _convert_variant text variant = Some (text, []).
Proof.
  intros H. rewrite convert_variant_spec.
  assert (E : forall m, In m (finditer _TOKEN_RE text) ->
            convert_token (fst (select variant)) (snd (select variant))
              (url_spans_of text) ([], []) m = Some ([], [group m])).
  { intros m Hm. rewrite convert_token_eq, (H m Hm).
    destruct (_ || _); reflexivity. }
  f_equal. f_equal.
  - rewrite <- (tokens_join text) at 3. f_equal. apply map_ext_in.
    intros m Hm. unfold part_of. rewrite (E m Hm). cbn [concat].
    apply app_nil_r.
  - apply flat_map_nil. intros m Hm. unfold changes_of. rewrite (E m Hm).
    reflexivity.
Qed.

Lemma convert_no_source_word_witness :
  _convert_variant (U := ascii_db) (py "Hello, world! 42") (py "uk")
  = Some (py "Hello, world! 42", []).
Proof.
  apply convert_no_source_word.
  intros m [<- | [<- | [<- | [<- | []]]]]; vm_compute; reflexivity.
Defined.

(** X14: the list of changes tells whether the text was changed.  When no
    change is recorded the result is the text; and, for a character
    database in which no token without ASCII letters is lower-cased to a
    word of the tables, a result that is the text has no change
    recorded. *)
Theorem convert_unchanged_iff {U : UnicodeDB} (text variant out : str)
    (chs : list Change) :
  _convert_variant text variant = Some (out, chs) ->
  (chs = [] -> out = text)
  /\ (lower_off_tables -> out = text -> chs = []).
Proof.
  intros E. pose proof (tokens_nonempty text) as Ne.
  rewrite Forall_forall in Ne.
  rewrite convert_variant_spec in E. injection E as Eo Ec. split.
  - intros Z. rewrite Z in Ec.
    pose proof (proj1 (flat_map_nil _ _) Ec) as Ec'. clear Ec.
    rename Ec' into Ec. rewrite <- Eo.
    rewrite <- (tokens_join text) at 3. f_equal. apply map_ext_in.
    intros m Hm. apply (part_changes variant _ m (Ne m Hm)).
    exact (Ec m Hm).
  - intros HU Z. rewrite <- Ec. apply flat_map_nil. intros m Hm.
    apply (part_changes variant _ m (Ne m Hm)).
    revert m Hm. apply map_eq_pointwise.
    destruct (tokens_chunks text) as (l & C & El & Et).
    pose proof (rerun_tokens HU text variant l C) as R.
    rewrite Et in Eo |- *. rewrite Eo, Z, Et in R.
    apply (f_equal (map group)) in R.
    rewrite !map_group_matches_of in R. rewrite <- R at 1.
    rewrite map_group_matches_of. reflexivity.
Qed.

Lemma convert_unchanged_iff_witness :
  (@nil Change = [] -> py "The Colour" = py "The Colour")
  /\ (py "The Colour" = py "The Colour" -> @nil Change = []).
Proof.
  destruct (convert_unchanged_iff (U := small_db) (py "The Colour") (py "uk")
              (py "The Colour") [] eq_refl) as [H1 H2].
  split; [exact H1 | exact (H2 small_db_off_tables)].
Defined.

(** X15: for such a character database the conversion changes words
    only.  The result has as many tokens as the text: where the text has
    a run of characters that are no letters the result has the same run,
    and where it has a word the result has a word.  So the characters
    that are no ASCII letters are those of the text, in the same order. *)
Theorem convert_keeps_others {U : UnicodeDB} (text variant out : str)
    (chs : list Change) :
  lower_off_tables ->
  _convert_variant text variant = Some (out, chs) ->
  Forall2 stands_for (finditer _TOKEN_RE text) (finditer _TOKEN_RE out)
  /\ filter not_letter out = filter not_letter text.
Proof.
  intros HU E. destruct (tokens_chunks text) as (l & C & El & Et).
  rewrite convert_variant_spec, Et in E. injection E as Eo _.
  pose proof (rerun_tokens HU text variant l C) as R. rewrite Eo in R.
  pose proof (text_pieces HU text variant l C El) as TP. cbv zeta in TP.
  destruct TP as (HP & EL & ER). rewrite Eo in ER. split.
  - rewrite R, Et.
    apply (parts_crel_tokens variant _ l HU (chunked_uniform l C)).
  - pose proof (pieces_filter _ HP) as Fl. rewrite EL, ER in Fl.
    symmetry. exact Fl.
Qed.

Lemma convert_keeps_others_witness :
  filter not_letter (py "My color, 3 centers.")
  = filter not_letter (py "My colour, 3 centres.").
Proof.
  symmetry.
  exact (proj2 (convert_keeps_others (U := small_db)
                  (py "My color, 3 centers.") (py "uk")
                  (py "My colour, 3 centres.")
                  [spelling (py "color") (py "colour");
                   spelling (py "centers") (py "centres")]
                  small_db_off_tables eq_refl)).
Defined.

(** * The case of a replacement *)

(** X16: the case projection of a word of lower-case letters on a word of
    ASCII letters raises nothing and returns the same word up to case:
    letters, as many, and the word again in lower case.  Projecting the
    case of the result on the word returns the result. *)
Theorem match_case_same_word {U : UnicodeDB} (token replacement : str) :
  token <> [] -> forallb az_letter token = true ->
  replacement <> [] -> forallb az_lower replacement = true ->
  exists r1,
    _match_case token replacement = Some r1
    /\ forallb az_letter r1 = true
    /\ length r1 = length replacement
    /\ lower r1 = replacement
    /\ _match_case r1 replacement = Some r1.
Proof.
  intros Ht Hl Hr Hlow.
  destruct (match_case_shape token replacement Ht Hl Hr Hlow)
    as (r1 & E & L & Len & Low & Idem).
  exists r1. rewrite (lower_letters r1 L). repeat split; assumption.
Qed.

Lemma match_case_same_word_witness :
  exists r1,
    _match_case (U := ascii_db) (py "COLOR") (py "colour") = Some r1
    /\ lower (U := ascii_db) r1 = py "colour"
    /\ _match_case (U := ascii_db) r1 (py "colour") = Some r1.
Proof.
  destruct (match_case_same_word (U := ascii_db) (py "COLOR") (py "colour"))
    as (r1 & H1 & _ & _ & H2 & H3);
    [discriminate | reflexivity | discriminate | reflexivity |].
  exists r1. repeat split; assumption.
Defined.

(** X17: for a character database in which no token without ASCII
    letters is lower-cased to a word of the tables, every change that the
    conversion records replaces a word of ASCII letters by the entry of
    the mapping for it, up to case: the replacement is a word of ASCII
    letters which in lower case is that entry. *)
Theorem convert_changes_words {U : UnicodeDB} (text variant out : str)
    (chs : list Change) :
  lower_off_tables ->
  _convert_variant text variant = Some (out, chs) ->
  forall c, In c chs ->
    original c <> []
    /\ forallb az_letter (original c) = true
    /\ forallb az_letter (replacement c) = true
    /\ dict_get (fst (select variant)) (lower (original c))
       = Some (lower (replacement c)).
Proof.
  intros HU E c Hc. rewrite convert_variant_spec in E. injection E as _ <-.
  apply in_flat_map in Hc. destruct Hc as (m & Hm & Hc).
  destruct (changes_of_facts _ _ _ m c Hc)
    as (_ & _ & Eo & _ & Ea & Em & r & Er & Ec).
  rewrite Eo.
  destruct (token_uniform text m Hm) as (Hne & Hu).
  destruct (kind (group m)) eqn:K.
  2: { pose proof (off_tables HU variant (group m)
                     (uniform_others _ K Hu) Ea) as Off. congruence. }
  pose proof (uniform_letters _ K Hu) as Hl.
  destruct (table_good_get _ _ _ (select_good variant) Em)
    as (r' & Er' & Hlow & Hr2 & _).
  rewrite Er in Er'. injection Er' as <-.
  assert (Hrne : r <> []) by (destruct r; [simpl in Hr2; lia | discriminate]).
  destruct (match_case_shape (group m) r Hne Hl Hrne Hlow)
    as (r1 & E1 & Lr1 & _ & Low & _).
  rewrite Ec in E1. injection E1 as <-.
  rewrite (lower_letters _ Lr1), Low. repeat split; assumption.
Qed.

Lemma convert_changes_words_witness :
  dict_get (fst (select (py "us")))
    (lower (U := small_db) (py "Colour"))
  = Some (lower (U := small_db) (py "Color")).
Proof.
  exact (proj2 (proj2 (proj2
    (convert_changes_words (U := small_db) (py "Colour me") (py "us")
       (py "Color me") [spelling (py "Colour") (py "Color")]
       small_db_off_tables eq_refl
       (spelling (py "Colour") (py "Color")) (or_introl eq_refl))))).
Defined.

(** * Dictionaries and the reverse table *)

Lemma dict_set_fresh (r : dict) (k v : str) :
  ~ In k (keys r) -> dict_set r k v = r ++ [(k, v)].
Proof.
  induction r as [|[k' v'] r IH]; [reflexivity|]. cbn [keys map fst In].
  intros H. cbn [dict_set app]. destruct (str_eqb k k') eqn:E.
  - apply str_eqb_eq in E. subst k'. exfalso. apply H. left. reflexivity.
  - rewrite IH; [reflexivity|]. intros Hk. apply H. right. exact Hk.
Qed.

Lemma invert_fold_fresh (d : dict) :
  forall r, NoDup (values d) ->
    (forall v, In v (values d) -> ~ In v (keys r)) ->
    fold_left (fun r kv => dict_set r (snd kv) (fst kv)) d r
    = r ++ map (fun kv => (snd kv, fst kv)) d.
Proof.
  induction d as [|[k v] d IH]; intros r Hn Hr.
  - symmetry. apply app_nil_r.
  - cbn [values map snd] in Hn, Hr. apply NoDup_cons_iff in Hn.
    destruct Hn as [Hv Hn]. cbn [fold_left map fst snd].
    rewrite (dict_set_fresh r v k (Hr v (or_introl eq_refl))).
    rewrite IH; [rewrite <- app_assoc; reflexivity | exact Hn |].
    intros v' Hv'. unfold keys. rewrite map_app, in_app_iff.
    intros [H | [<- | []]].
    + exact (Hr v' (or_intror Hv') H).
    + exact (Hv Hv').
Qed.

Lemma dict_invert_swap (d : dict) :
  NoDup (values d) -> dict_invert d = map (fun kv => (snd kv, fst kv)) d.
Proof.
  intros H. unfold dict_invert, items.
  rewrite (invert_fold_fresh d [] H); [reflexivity|]. intros v _ [].
Qed.

Lemma In_dict_get (d : dict) (k v : str) :
  NoDup (keys d) -> In (k, v) d -> dict_get d k = Some v.
Proof.
  induction d as [|[k' v'] d IH]; [intros _ []|]. cbn [keys map fst].
  intros Hn. apply NoDup_cons_iff in Hn. destruct Hn as [Hk Hn].
  intros [[= -> ->] | H]; cbn [dict_get].
  - rewrite str_eqb_refl. reflexivity.
  - destruct (str_eqb k k') eqn:E; [|exact (IH Hn H)].
    apply str_eqb_eq in E. subst k'. exfalso. apply Hk.
    change k with (fst (k, v)). apply in_map. exact H.
Qed.

Lemma mem_snoc (x y : str) (s : list str) :
  mem x (s ++ [y]) = mem x s || str_eqb x y.
Proof.
  unfold mem. rewrite existsb_app. cbn [existsb]. rewrite orb_false_r.
  reflexivity.
Qed.

Lemma mem_set_fold (l : list str) :
  forall s x,
    mem x (fold_left (fun s x => if mem x s then s else s ++ [x]) l s)
    = mem x s || mem x l.
Proof.
  induction l as [|y l IH]; intros s x; cbn [fold_left].
  - cbn [mem existsb]. rewrite orb_false_r. reflexivity.
  - rewrite IH. change (mem x (y :: l)) with (str_eqb x y || mem x l).
    destruct (mem y s) eqn:E.
    + destruct (str_eqb x y) eqn:Exy; [|reflexivity].
      apply str_eqb_eq in Exy. subst y. rewrite E. reflexivity.
    + rewrite mem_snoc, orb_assoc. reflexivity.
Qed.

Lemma dict_get_keys (d : dict) (k : str) :
  mem k (keys d) = true <-> exists v, dict_get d k = Some v.
Proof.
  induction d as [|[k' v'] d IH]; cbn [keys map fst dict_get].
  - split; [discriminate | intros (v & H); discriminate].
  - change (mem k (k' :: map fst d)) with (str_eqb k k' || mem k (keys d)).
    destruct (str_eqb k k'); cbn [orb]; [|exact IH].
    split; [intros _; exists v'; reflexivity | reflexivity].
Qed.

(** X18: inverting a dictionary whose values are pairwise distinct swaps
    every pair and keeps the order; so the reverse of such a table has as
    many entries, looks up a value to its key exactly when the table
    looks up the key to the value, and inverted again is the table. *)
Theorem dict_invert_round_trip (d : dict) :
  NoDup (keys d) -> NoDup (values d) ->
  dict_invert d = map (fun kv => (snd kv, fst kv)) d
  /\ length (dict_invert d) = length d
  /\ (forall k v, dict_get d k = Some v <-> dict_get (dict_invert d) v = Some k)
  /\ dict_invert (dict_invert d) = d.
Proof.
  intros Hk Hv. pose proof (dict_invert_swap d Hv) as E.
  assert (Ek : keys (map (fun kv : str * str => (snd kv, fst kv)) d)
               = values d).
  { unfold keys, values. rewrite map_map. reflexivity. }
  assert (Ev : values (map (fun kv : str * str => (snd kv, fst kv)) d)
               = keys d).
  { unfold keys, values. rewrite map_map. reflexivity. }
  split; [exact E|]. split; [rewrite E; apply length_map|]. split.
  - intros k v. rewrite E. split; intros H.
    + apply In_dict_get; [rewrite Ek; exact Hv|].
      apply dict_get_In in H.
      exact (in_map (fun kv : str * str => (snd kv, fst kv)) d (k, v) H).
    + apply dict_get_In in H. apply in_map_iff in H.
      destruct H as ([k' v'] & [= <- <-] & H).
      exact (In_dict_get d k' v' Hk H).
  - rewrite E, dict_invert_swap by (rewrite Ev; exact Hk).
    rewrite map_map. cbn [fst snd]. rewrite <- (map_id d) at 2.
    apply map_ext. intros [k v]. reflexivity.
Qed.

Lemma dict_invert_round_trip_witness :
  dict_invert _UK_TO_US = _US_TO_UK.
Proof.
  assert (K : NoDup (keys _US_TO_UK))
    by (apply nodupb_NoDup; vm_compute; reflexivity).
  assert (V : NoDup (values _US_TO_UK))
    by (apply nodupb_NoDup; vm_compute; reflexivity).
  exact (proj2 (proj2 (proj2 (dict_invert_round_trip _US_TO_UK K V)))).
Defined.

(** X19: a word is in the set made of the keys of a dictionary exactly
    when the dictionary has an entry for it; the look-up of a word of the
    source set in its mapping therefore raises no [KeyError]. *)
Theorem source_words_have_entries (d : dict) (k : str) :
  mem k (set_of (keys d)) = true <-> exists v, dict_get d k = Some v.
Proof.
  unfold set_of. rewrite mem_set_fold. cbn [mem existsb orb].
  apply dict_get_keys.
Qed.

Lemma source_words_have_entries_witness :
  exists v, dict_get _UK_TO_US (py "colour") = Some v.
Proof.
  apply (proj1 (source_words_have_entries _UK_TO_US (py "colour"))).
  vm_compute. reflexivity.
Defined.

(** * The protected spans of the result *)

Lemma covered_in_match (r : regex) (s : str) (n p : nat) :
  match_at r s = Some n -> p < n -> covered r 0 s p = true.
Proof.
  intros E Hp. pose proof (match_at_le _ _ _ E) as Hn.
  destruct s as [|c s]; simpl in Hn; [lia|]. destruct p as [|p].
  - cbn [covered hit]. rewrite E. destruct n; [lia | reflexivity].
  - cbn [covered next]. rewrite E. apply covered_skip; lia.
Qed.

Lemma covered_after_match (r : regex) (s : str) (n p : nat) :
  match_at r s = Some n -> 0 < n ->
  covered r 0 s (n + p) = covered r 0 (skipn n s) p.
Proof.
  intros E Hp. pose proof (match_at_le _ _ _ E) as Hn.
  rewrite covered_advance by exact Hn. f_equal.
  destruct s as [|c s]; simpl in Hn; [lia|]. destruct n as [|n]; [lia|].
  cbn [advance next]. rewrite E. cbn [pred].
  rewrite advance_skip by lia. lia.
Qed.

Lemma covered_no_match (r : regex) (c : cp) (s : str) (p : nat) :
  match_at r (c :: s) = None ->
  covered r 0 (c :: s) (S p) = covered r 0 s p.
Proof. intros E. cbn [covered next]. rewrite E. reflexivity. Qed.

Lemma scan_none_run (r : regex) (n : nat) :
  forall s pos, n <= length s ->
    (forall k, k < n -> match_at r (skipn k s) = None) ->
    scan r 0 pos s = scan r 0 (pos + n) (skipn n s).
Proof.
  induction n as [|n IH]; intros s pos Hl H.
  - rewrite Nat.add_0_r. reflexivity.
  - destruct s as [|c s]; simpl in Hl; [lia|].
    rewrite (scan_no_match r c s pos (H 0 ltac:(lia))). cbn [skipn].
    rewrite (IH s (S pos)); [f_equal; lia | lia |].
    intros k Hk. apply (H (S k)). lia.
Qed.

Lemma same_pieces (L : list (str * str)) :
  (forall L1 w w' L2, L = L1 ++ (w, w') :: L2 -> w = w') -> lhs L = rhs L.
Proof.
  induction L as [|[w w'] L IH]; intros H; [reflexivity|].
  rewrite lhs_cons, rhs_cons, (H [] w w' L eq_refl). f_equal.
  apply IH. intros L1 v v' L2 E. apply (H ((w, w') :: L1) v v' L2).
  rewrite E. reflexivity.
Qed.

(** Through a word replaced by another one no match starts, on either
    side. *)
Lemma safe_word_no_match (L : list (str * str)) (w w' : str) :
  pieces L -> starts_other L ->
  word_pair w w' -> tail_safe w -> tail_safe w' ->
  match_at _URL_RE (w ++ lhs L) = None ->
  (forall k, k < length w -> match_at _URL_RE (skipn k (w ++ lhs L)) = None)
  /\ (forall k, k < length w' ->
        match_at _URL_RE (skipn k (w' ++ rhs L)) = None).
Proof.
  intros HL HS (Hw & Hw' & Hl & Hl' & _) S1 S2 E.
  split; intros k Hk; rewrite skipn_app_le by lia.
  - destruct (url_sim (skipn k w) w' L) as [[H _] | (La & Lb & _ & _ & _ & H)];
      try assumption.
    + split; [apply letters_skipn; exact Hl|]. split; [exact Hl'|]. right.
      split; [apply skipn_nonempty; exact Hk|]. split; [exact Hw'|].
      split; [apply tail_safe_skipn; exact S1 | exact S2].
    + destruct (url_sim w w' L) as [[_ H'] | (La' & Lb' & _ & _ & H' & _)];
        try assumption; [repeat split; auto | congruence | congruence].
  - destruct (url_sim w (skipn k w') L) as [[_ H] | (La & Lb & _ & _ & H & _)];
      try assumption; [|congruence].
    split; [exact Hl|]. split; [apply letters_skipn; exact Hl'|]. right.
    split; [exact Hw|]. split; [apply skipn_nonempty; exact Hk|].
    split; [exact S1 | apply tail_safe_skipn; exact S2].
Qed.

(** *** How [guarded] moves along the scan *)

Lemma guarded_char (c : cp) (u : str) (L : list (str * str)) :
  guarded (c :: u) L -> match_at _URL_RE ((c :: u) ++ lhs L) = None ->
  guarded u L.
Proof.
  intros G E L1 w w' L2 EL Hc. apply (G L1 w w' L2 EL).
  cbn [length Nat.add]. cbn [app] in E |- *.
  rewrite (covered_no_match _ _ _ _ E). exact Hc.
Qed.

Lemma guarded_other (c : cp) (L : list (str * str)) :
  guarded [] (([c], [c]) :: L) -> match_at _URL_RE (c :: lhs L) = None ->
  guarded [] L.
Proof.
  intros G E L1 w w' L2 EL Hc.
  apply (G (([c], [c]) :: L1) w w' L2); [rewrite EL; reflexivity|].
  rewrite !lhs_cons. cbn [app length Nat.add] in *.
  rewrite (covered_no_match _ _ _ _ E). exact Hc.
Qed.

Lemma guarded_jump (u : str) (L Lm Lb : list (str * str)) :
  guarded u L -> L = Lm ++ Lb ->
  match_at _URL_RE (u ++ lhs L) = Some (length u + length (lhs Lm)) ->
  0 < length u + length (lhs Lm) ->
  guarded [] Lb.
Proof.
  intros G EL E Hp L1 w w' L2 ELb Hc.
  apply (G (Lm ++ L1) w w' L2).
  { rewrite EL, ELb, app_assoc. reflexivity. }
  rewrite lhs_app, length_app, Nat.add_assoc.
  rewrite (covered_after_match _ _ _ _ E Hp).
  rewrite EL, lhs_app, app_assoc, <- length_app, skipn_exact.
  exact Hc.
Qed.

Lemma guarded_enter (w : str) (L : list (str * str)) :
  guarded [] ((w, w) :: L) -> guarded w L.
Proof.
  intros G L1 v v' L2 EL Hc.
  apply (G ((w, w) :: L1) v v' L2); [rewrite EL; reflexivity|].
  rewrite !lhs_cons, length_app. exact Hc.
Qed.

Lemma guarded_skip_word (w w' : str) (L : list (str * str)) :
  guarded [] ((w, w') :: L) ->
  (forall k, k < length w -> match_at _URL_RE (skipn k (w ++ lhs L)) = None) ->
  guarded [] L.
Proof.
  intros G H L1 v v' L2 EL Hc.
  apply (G ((w, w') :: L1) v v' L2); [rewrite EL; reflexivity|].
  rewrite !lhs_cons, length_app. cbn [app length Nat.add] in *.
  assert (Hl : length w <= length (w ++ lhs L)) by (rewrite length_app; lia).
  rewrite (covered_advance _ _ _ _ _ Hl), (advance_none _ _ _ Hl H).
  rewrite skipn_exact. exact Hc.
Qed.

(** The pieces inside a match are the same on both sides. *)
Lemma guarded_match (u : str) (L Lm Lb : list (str * str)) :
  pieces L -> guarded u L -> L = Lm ++ Lb ->
  match_at _URL_RE (u ++ lhs L) = Some (length u + length (lhs Lm)) ->
  lhs Lm = rhs Lm.
Proof.
  intros HL G EL E. apply same_pieces. intros L1 w w' L2 ELm.
  apply (G L1 w w' (L2 ++ Lb)).
  { rewrite EL, ELm, <- app_assoc. reflexivity. }
  apply (covered_in_match _ _ _ _ E).
  assert (Hw : w <> []).
  { pose proof (pieces_nonempty _ HL) as F. rewrite EL, ELm in F.
    apply Forall_app_l in F. apply Forall_app in F. destruct F as [_ F].
    apply Forall_inv in F. exact (proj1 F). }
  rewrite ELm, lhs_app, lhs_cons, !length_app.
  destruct w; [contradiction|]. simpl. lia.
Qed.

Lemma firstn_exact {A} (x y : list A) : firstn (length x) (x ++ y) = x.
Proof.
  rewrite firstn_app, Nat.sub_diag, firstn_O, app_nil_r. apply firstn_all.
Qed.

(** The scans of corresponding texts find the same strings. *)
Lemma groups_sim (n : nat) :
  forall u L pos pos',
    length (u ++ lhs L) <= n ->
    letters u -> pieces L -> (u <> [] -> starts_other L) -> guarded u L ->
    map group (scan _URL_RE 0 pos (u ++ lhs L))
    = map group (scan _URL_RE 0 pos' (u ++ rhs L)).
Proof.
  induction n as [|n IH]; intros u L pos pos' Hn Hu HL HS G.
  { rewrite length_app in Hn.
    assert (E1 : u = []) by (destruct u; [reflexivity | simpl in Hn; lia]).
    subst u. cbn [app] in *.
    assert (E2 : L = []).
    { apply (lhs_nil_inv _ (pieces_nonempty _ HL)).
      destruct (lhs L); [reflexivity | simpl in Hn; lia]. }
    subst L. reflexivity. }
  (* A match found at the head, and what follows it. *)
  assert (Jump : forall v L0 Lm Lb p p',
            length (v ++ lhs L0) <= S n -> pieces L0 -> guarded v L0 ->
            L0 = Lm ++ Lb -> Lm <> [] ->
            match_at _URL_RE (v ++ lhs L0)
            = Some (length v + length (lhs Lm)) ->
            match_at _URL_RE (v ++ rhs L0)
            = Some (length v + length (rhs Lm)) ->
            map group (scan _URL_RE 0 p (v ++ lhs L0))
            = map group (scan _URL_RE 0 p' (v ++ rhs L0))).
  { intros v L0 Lm Lb p p' Hl HL0 G0 EL Hm E1 E2.
    pose proof (guarded_match v L0 Lm Lb HL0 G0 EL E1) as Same.
    assert (F : Forall (fun tq => fst tq <> [] /\ snd tq <> []) Lm).
    { apply (pieces_app_nonempty Lm Lb). rewrite <- EL. exact HL0. }
    destruct (lhs_length_pos Lm F Hm) as (a & a' & Ea & Ea').
    pose proof (guarded_jump v L0 Lm Lb G0 EL E1 ltac:(lia)) as Gb.
    rewrite Ea in E1. rewrite Ea' in E2. rewrite Nat.add_succ_r in E1, E2.
    rewrite (scan_match _ _ p _ E1), (scan_match _ _ p' _ E2).
    rewrite <- Nat.add_succ_r, <- Ea in *. rewrite <- Nat.add_succ_r, <- Ea'.
    cbn [map group]. rewrite EL, lhs_app, rhs_app, !app_assoc.
    rewrite <- !length_app, !firstn_exact, !skipn_exact, Same. f_equal.
    apply (IH [] Lb); try assumption.
    - cbn [app]. rewrite EL, lhs_app, !length_app in Hl. lia.
    - exact eq_refl.
    - rewrite EL in HL0. exact (pieces_app_r _ _ HL0).
    - intros Z. contradiction. }
  (* Inside a word that is the same on both sides. *)
  assert (Word : forall c v L0 p p',
            length ((c :: v) ++ lhs L0) <= S n ->
            letters (c :: v) -> pieces L0 -> starts_other L0 ->
            guarded (c :: v) L0 ->
            map group (scan _URL_RE 0 p ((c :: v) ++ lhs L0))
            = map group (scan _URL_RE 0 p' ((c :: v) ++ rhs L0))).
  { intros c v L0 p p' Hl Hv HL0 HS0 G0.
    assert (Hr : hrel (c :: v) (c :: v)) by (repeat split; auto).
    assert (Hv' : letters v).
    { unfold letters in *. simpl in Hv. apply andb_true_iff in Hv. tauto. }
    destruct (url_sim (c :: v) (c :: v) L0 Hr HL0 HS0)
      as [[E1 E2] | (Lm & Lb & EL & Hm & E1 & E2)].
    - pose proof (guarded_char c v L0 G0 E1) as G1.
      cbn [app] in E1, E2 |- *.
      rewrite (scan_no_match _ _ _ p E1), (scan_no_match _ _ _ p' E2).
      apply (IH v L0); try assumption.
      + cbn [app length] in Hl. lia.
      + intros _. exact HS0.
    - exact (Jump (c :: v) L0 Lm Lb p p' Hl HL0 G0 EL Hm E1 E2). }
  destruct u as [|c u].
  2: { exact (Word c u L pos pos' Hn Hu HL (HS ltac:(discriminate)) G). }
  cbn [app] in *.
  destruct HL as [|c L' Hc HL'|w w' L' HW HS' HL'].
  - reflexivity.
  - pose proof (pieces_other c L' Hc HL') as HL.
    destruct (url_sim [] [] _ hrel_nil HL Hc)
      as [[E1 E2] | (Lm & Lb & EL & Hm & E1 & E2)].
    + cbn [app] in E1, E2. rewrite lhs_cons in E1. rewrite rhs_cons in E2.
      rewrite lhs_cons, rhs_cons. cbn [app] in E1, E2 |- *.
      rewrite (scan_no_match _ _ _ pos E1), (scan_no_match _ _ _ pos' E2).
      apply (IH [] L'); try assumption.
      * cbn [app]. rewrite lhs_cons in Hn. cbn [app length] in Hn. lia.
      * intros Z. contradiction.
      * exact (guarded_other c L' G E1).
    + exact (Jump [] _ Lm Lb pos pos' Hn HL G EL Hm E1 E2).
  - pose proof HW as (Hw & Hw' & Hl & Hl' & Hcase).
    destruct (list_eq_dec N.eq_dec w w') as [<- | Hneq].
    + rewrite lhs_cons, rhs_cons in *. destruct w as [|c v]; [contradiction|].
      exact (Word c v L' pos pos' Hn Hl HL' HS' (guarded_enter _ _ G)).
    + destruct Hcase as [Heq | (S1 & S2 & _)]; [contradiction|].
      assert (E : match_at _URL_RE (w ++ lhs L') = None).
      { destruct (match_at _URL_RE (w ++ lhs L')) as [k|] eqn:E;
          [|reflexivity].
        exfalso. apply Hneq. apply (G [] w w' L' eq_refl).
        change (covered _URL_RE 0 (lhs ((w, w') :: L')) 0 = true).
        rewrite lhs_cons. apply (covered_in_match _ _ _ _ E).
        destruct (url_sim w w' L' (word_pair_hrel _ _ HW) HL' HS')
          as [[E1 _] | (Lm & Lb & _ & _ & E1 & _)];
          [congruence|]. rewrite E in E1. injection E1 as ->.
        destruct w; [contradiction|]. simpl. lia. }
      destruct (safe_word_no_match L' w w' HL' HS' HW S1 S2 E) as [N1 N2].
      rewrite lhs_cons, rhs_cons in *.
      assert (Hl1 : length w <= length (w ++ lhs L'))
        by (rewrite length_app; lia).
      assert (Hl2 : length w' <= length (w' ++ rhs L'))
        by (rewrite length_app; lia).
      rewrite (scan_none_run _ (length w) _ pos Hl1 N1).
      rewrite (scan_none_run _ (length w') _ pos' Hl2 N2).
      rewrite !skipn_exact.
      apply (IH [] L'); try assumption.
      * cbn [app]. rewrite length_app in Hn.
        destruct w; [contradiction|]. simpl in Hn. lia.
      * intros Z. contradiction.
      * exact (guarded_skip_word w w' L' G N1).
Qed.

Lemma split_others (t : str) (L : list (str * str)) :
  forall L1 w w' L2,
    map (fun c => ([c], [c])) t ++ L = L1 ++ (w, w') :: L2 ->
    w = w'
    \/ exists L1', L1 = map (fun c => ([c], [c])) t ++ L1'
                   /\ L = L1' ++ (w, w') :: L2.
Proof.
  induction t as [|c t IH]; intros L1 w w' L2 E.
  - right. exists L1. split; [reflexivity | exact E].
  - cbn [map app] in E. destruct L1 as [|x L1].
    + cbn [app] in E. injection E as <- <- _. left. reflexivity.
    + cbn [app] in E. injection E as <- E.
      destruct (IH L1 w w' L2 E) as [H | (L1' & -> & H)]; [left; exact H|].
      right. exists L1'. split; [reflexivity | exact H].
Qed.

(** A word of the text that starts inside a protected span is emitted as
    it is. *)
Lemma tokens_guarded {U : UnicodeDB} (mapping : dict) (sw : list str)
    (spans : list (nat * nat)) (l : list str) :
  forall pos L1 w w' L2,
    flat_map piece_of (map (pair_of mapping sw spans) (matches_of pos l))
    = L1 ++ (w, w') :: L2 ->
    in_url spans (pos + length (lhs L1)) = true -> w = w'.
Proof.
  induction l as [|t l IH]; intros pos L1 w w' L2 E Hin.
  - destruct L1; discriminate.
  - cbn [matches_of map flat_map] in E. unfold piece_of at 1 in E.
    unfold pair_of at 1 in E. cbn [fst group] in E.
    destruct (kind t) eqn:K.
    + destruct L1 as [|[xt xq] L1]; cbn [app] in E.
      * injection E as <- <- _.
        cbn [lhs map concat length] in Hin. rewrite Nat.add_0_r in Hin.
        symmetry.
        exact (part_of_in_url mapping sw spans
                 {| m_start := pos; m_end := pos + length t; group := t |}
                 Hin).
      * injection E as <- <- E. apply (IH _ _ _ _ _ E).
        rewrite lhs_cons, length_app, Nat.add_assoc in Hin. exact Hin.
    + destruct (split_others t _ _ _ _ _ E) as [H | (L1' & -> & E')];
        [exact H|].
      apply (IH _ _ _ _ _ E').
      rewrite lhs_others, length_app, Nat.add_assoc in Hin. exact Hin.
Qed.

(** X20: for a character database in which no token without ASCII
    letters is lower-cased to a word of the tables, the URLs, hosts and
    addresses that [_URL_RE] finds in the result are those that it finds
    in the text, the same strings in the same order: the conversion
    changes nothing inside a protected span, and makes none and breaks
    none by the words that it replaces. *)
Theorem convert_keeps_urls {U : UnicodeDB} (text variant out : str)
    (chs : list Change) :
  lower_off_tables ->
  _convert_variant text variant = Some (out, chs) ->
  map group (finditer _URL_RE out) = map group (finditer _URL_RE text).
Proof.
  intros HU E. destruct (tokens_chunks text) as (l & C & El & Et).
  rewrite convert_variant_spec, Et in E. injection E as Eo _.
  pose proof (text_pieces HU text variant l C El) as TP. cbv zeta in TP.
  destruct TP as (HP & EL & ER). rewrite Eo in ER.
  set (L := flat_map piece_of
              (map (pair_of (fst (select variant)) (snd (select variant))
                      (url_spans_of text)) (matches_of 0 l))) in *.
  assert (G : guarded [] L).
  { intros L1 w w' L2 E1 Hc. cbn [app length Nat.add] in Hc.
    rewrite EL, <- in_url_covered in Hc.
    exact (tokens_guarded _ _ _ l 0 L1 w w' L2 E1 Hc). }
  unfold finditer. rewrite <- ER, <- EL. symmetry.
  apply (groups_sim (length (lhs L)) [] L 0 0);
    [cbn [app]; lia | exact eq_refl | exact HP | intros Z; contradiction
    | exact G].
Qed.

Lemma convert_keeps_urls_witness :
  map group (finditer _URL_RE
               (py "See www.color.org or mail color@center.com: colour!"))
  = map group (finditer _URL_RE
                 (py "See www.color.org or mail color@center.com: color!")).
Proof.
  exact (convert_keeps_urls (U := small_db)
           (py "See www.color.org or mail color@center.com: color!")
           (py "uk")
           (py "See www.color.org or mail color@center.com: colour!")
           [spelling (py "color") (py "colour")]
           small_db_off_tables eq_refl).
Defined.

(** * What the grammar stage records *)

Section Recorded.
Context {U : UnicodeDB}.




End Recorded.


(** * The corrector of the module *)

Lemma calls_made (n : nat) :
  forall c g, _corrector g = Some c ->
    calls n g = (repeat c n, g).
Proof.
  induction n as [|n IH]; intros c g H; [reflexivity|].
  cbn [calls]. unfold get_corrector. rewrite H, (IH c g H). reflexivity.
Qed.

(** X22: however often [get_corrector] is called, every call returns the
    same corrector, and at most one is ever constructed: the first call
    makes it when the module has none, and no later call makes another. *)
Theorem get_corrector_once (n : nat) (g : Globals) :
  let c := match _corrector g with Some c0 => c0 | None => made g end in
  fst (calls (S n) g) = repeat c (S n)
  /\ _corrector (snd (calls (S n) g)) = Some c
  /\ made (snd (calls (S n) g))
     = match _corrector g with Some _ => made g | None => S (made g) end.
Proof.
  cbv zeta. destruct (_corrector g) as [c0|] eqn:E.
  - rewrite (calls_made (S n) c0 g E). cbn [fst snd]. auto.
  - cbn [calls]. unfold get_corrector. rewrite E.
    rewrite (calls_made n (made g)
               {| _corrector := Some (made g); made := S (made g) |} eq_refl).
    cbn [fst snd repeat _corrector made]. auto.
Qed.
